(** * Email-to-Notion inbox worker: the text pipeline of [src/index.ts]

    A shallow embedding of the worker's pure core (body resolution, title
    normalisation, truncation, chunking, fingerprinting) and of its two
    entry points, with the properties of the specification stated over it.

    Strings are JavaScript strings: sequences of UTF-16 code units, here
    [list Z].  Every length, index and limit is a count of code units,
    as [String.prototype.length] and [slice] have it; limits are integers.

    The source file holds two versions of the module.  The second, with
    the debug endpoint, the fingerprint and the configurable property
    names, is embedded at top level; the handler of the first is in
    [V1].  What the handlers take from outside is an argument: the clock,
    the conversion of dates, lower-casing, the mail as the parser returns
    it, and the answer of the Notion API.  The calls to the Notion API are
    recorded, in order; the log lines, which nothing reads, are left
    out. *)

From Stdlib Require Import String Ascii ZArith List Bool Lia Sorted.
#[local] Set Warnings "-register-all".
Import ListNotations.
Local Open Scope Z_scope.

(** ** JavaScript strings *)

Module Js.

Definition str := list Z.

(** An ASCII literal of the source, as code units. *)
Definition lit (s : string) : str :=
  map (fun a => Z.of_N (N_of_ascii a)) (list_ascii_of_string s).

(** [s.length] *)
Definition len (s : str) : Z := Z.of_nat (List.length s).

(** Truthiness of a string value: only the empty string is falsy. *)
Definition truthy (s : str) : bool :=
  match s with [] => false | _ :: _ => true end.

(** String equality, [===] on two strings. *)
Fixpoint eqb (a b : str) : bool :=
  match a, b with
  | [], [] => true
  | x :: a', y :: b' => (x =? y) && eqb a' b'
  | _, _ => false
  end.

(** WhiteSpace and LineTerminator of ECMAScript: what [trim] removes and
    what [\s] matches.  TAB, LF, VT, FF, CR, SP, NBSP, the Unicode space
    separators, LS, PS and the byte-order mark. *)
Definition isWhiteSpace (c : Z) : bool :=
  ((9 <=? c) && (c <=? 13))
  || (c =? 32) || (c =? 160) || (c =? 5760)
  || ((8192 <=? c) && (c <=? 8202))
  || (c =? 8232) || (c =? 8233) || (c =? 8239) || (c =? 8287)
  || (c =? 12288) || (c =? 65279).

Fixpoint trimStart (s : str) : str :=
  match s with
  | c :: s' => if isWhiteSpace c then trimStart s' else s
  | [] => []
  end.

Definition trimEnd (s : str) : str := rev (trimStart (rev s)).

(** [s.trim()] *)
Definition trim (s : str) : str := trimEnd (trimStart s).

(** The index arithmetic of [slice]: a negative index counts from the
    end, and both ends are clamped to [0 .. len]. *)
Definition relIndex (n i : Z) : Z :=
  if i <? 0 then Z.max (n + i) 0 else Z.min i n.

(** [s.slice(start, stop)] for integral arguments. *)
Definition slice (s : str) (start stop : Z) : str :=
  let from := relIndex (len s) start in
  let to := relIndex (len s) stop in
  firstn (Z.to_nat (to - from)) (skipn (Z.to_nat from) s).

(** The string behind an optional argument, read where a guard has
    established that there is one. *)
Definition the (x : option str) : str :=
  match x with Some v => v | None => [] end.

(** [s.slice(start)] *)
Definition sliceFrom (s : str) (start : Z) : str := slice s start (len s).

(** [s.split(sep)] for a separator of one code unit. *)
Fixpoint split_from (sep : Z) (s cur : str) : list str :=
  match s with
  | [] => [rev cur]
  | c :: s' =>
      if c =? sep then rev cur :: split_from sep s' []
      else split_from sep s' (c :: cur)
  end.

Definition split (sep : Z) (s : str) : list str := split_from sep s [].

Fixpoint startsWith (s prefix : str) : bool :=
  match prefix, s with
  | [], _ => true
  | p :: prefix', c :: s' => (c =? p) && startsWith s' prefix'
  | _ :: _, [] => false
  end.

(** [s.indexOf(needle)], counting from [i] at the head of [s]. *)
Fixpoint indexOf_from (s needle : str) (i : Z) : Z :=
  if startsWith s needle then i
  else match s with
       | [] => -1
       | _ :: s' => indexOf_from s' needle (i + 1)
       end.

Definition indexOf (s needle : str) : Z := indexOf_from s needle 0.

(** [a ?? b] on an optional string. *)
Definition orElse (a : option str) (b : str) : str :=
  match a with Some v => v | None => b end.

(** Truthiness of an optional string: [undefined], [null] and the empty
    string are falsy. *)
Definition present (a : option str) : bool :=
  match a with Some v => truthy v | None => false end.

(** [parts.join("")] *)
Definition join (parts : list str) : str := List.concat parts.

End Js.

Notation "` s" := (Js.lit s) (at level 1, format "` s").

(** ** Regular expressions

    The regular expressions of the source, as syntax trees, with the
    backtracking matcher of ECMA-262 in continuation-passing style: a
    matcher takes the rest of the input and a continuation, and a failed
    continuation makes it try its next alternative.  [run r s k] is what
    the continuation returns on the first successful path. *)

Module Re.

Inductive t : Type :=
| Empty : t
| Char : (Z -> bool) -> t      (* one code unit of a class *)
| Seq : t -> t -> t
| Alt : t -> t -> t            (* [a|b], [a] tried first *)
| Star : t -> t.               (* greedy [a*] *)

Definition Plus (a : t) : t := Seq a (Star a).
Definition Opt (a : t) : t := Alt a Empty.

(** The iterations of a greedy star over the matcher [m] of its body: one
    more iteration is tried first, the continuation [k] after it fails.  An
    iteration that consumes nothing is refused, as the RepeatMatcher of
    ECMA-262 refuses it, so there are at most as many iterations as code
    units, which is what [n] counts. *)
Fixpoint iterate (m : Js.str -> (Js.str -> option Js.str) -> option Js.str)
    (k : Js.str -> option Js.str) (n : nat) (s : Js.str) : option Js.str :=
  match n with
  | O => k s
  | S n' =>
      match
        m s (fun s' =>
               if (length s' <? length s)%nat then iterate m k n' s' else None)
      with
      | Some rest => Some rest
      | None => k s
      end
  end.

Fixpoint run (r : t) (s : Js.str) (k : Js.str -> option Js.str)
    : option Js.str :=
  match r with
  | Empty => k s
  | Char p =>
      match s with
      | c :: s' => if p c then k s' else None
      | [] => None
      end
  | Seq a b => run a s (fun s' => run b s' k)
  | Alt a b =>
      match run a s k with
      | Some rest => Some rest
      | None => run b s k
      end
  | Star a => iterate (run a) k (length s) s
  end.

(** The least number of code units a match of [r] consumes. *)
Fixpoint minLen (r : t) : nat :=
  match r with
  | Empty => O
  | Char _ => 1%nat
  | Seq a b => (minLen a + minLen b)%nat
  | Alt a b => Nat.min (minLen a) (minLen b)
  | Star _ => O
  end.

(** Canonicalize of ECMA-262 for the [i] flag without the [u] flag, on the
    characters the patterns of the source contain.  A code unit is compared
    through its upper case, and no code unit outside ASCII is ever mapped
    into ASCII, so against an ASCII pattern character only the two ASCII
    cases match; the two dashes of the title pattern have no case. *)
Definition canonicalize (c : Z) : Z :=
  if (97 <=? c) && (c <=? 122) then c - 32 else c.

Definition chr (c : Z) : t := Char (Z.eqb c).
Definition chr_i (c : Z) : t :=
  Char (fun x => canonicalize x =? canonicalize c).
Definition oneOf (cs : list Z) : t :=
  Char (fun x => existsb (Z.eqb x) cs).
Definition noneOf (cs : list Z) : t :=
  Char (fun x => negb (existsb (Z.eqb x) cs)).

Definition seq (rs : list t) : t := fold_right Seq Empty rs.

(** A literal, and a literal under the [i] flag. *)
Definition lit (s : string) : t := seq (map chr (Js.lit s)).
Definition lit_i (s : string) : t := seq (map chr_i (Js.lit s)).

(** [\s] and [\w] *)
Definition space : t := Char Js.isWhiteSpace.
Definition isWord (c : Z) : bool :=
  ((48 <=? c) && (c <=? 57)) || ((65 <=? c) && (c <=? 90))
  || (c =? 95) || ((97 <=? c) && (c <=? 122)).

(** A match attempt at the start of [s]: the input left after the match. *)
Definition prefix (r : t) (s : Js.str) : option Js.str := run r s Some.

(** The leftmost match: the text before it, the matched text, the text
    after it.  The end of the input is a position too. *)
Fixpoint search (r : t) (s : Js.str) : option (Js.str * Js.str * Js.str) :=
  match prefix r s with
  | Some rest => Some ([], firstn (length s - length rest) s, rest)
  | None =>
      match s with
      | [] => None
      | c :: s' =>
          match search r s' with
          | Some (before, found, rest) => Some (c :: before, found, rest)
          | None => None
          end
      end
  end.

(** [re.test(s)] *)
Definition test (r : t) (s : Js.str) : bool :=
  match search r s with Some _ => true | None => false end.

(** [s.match(re)] without the [g] flag, element 0 of the result. *)
Definition match0 (r : t) (s : Js.str) : option Js.str :=
  match search r s with Some (_, found, _) => Some found | None => None end.

(** [s.replace(/^.../, rep)]: the pattern starts with [^] and has no [g]
    and no [m] flag, so only a match at index 0 is replaced. *)
Definition replaceAnchored (r : t) (rep s : Js.str) : Js.str :=
  match prefix r s with
  | Some rest => rep ++ rest
  | None => s
  end.

(** [s.replace(/.../g, rep)]: every match, left to right, the scan resuming
    after each match (one code unit further after an empty match). *)
Fixpoint replaceAll_from (fuel : nat) (r : t) (rep s : Js.str) : Js.str :=
  match fuel with
  | O => s
  | S fuel' =>
      match prefix r s with
      | Some rest =>
          if (length rest <? length s)%nat
          then rep ++ replaceAll_from fuel' r rep rest
          else match s with
               | [] => rep
               | c :: s' => rep ++ c :: replaceAll_from fuel' r rep s'
               end
      | None =>
          match s with
          | [] => []
          | c :: s' => c :: replaceAll_from fuel' r rep s'
          end
      end
  end.

Definition replaceAll (r : t) (rep s : Js.str) : Js.str :=
  replaceAll_from (S (length s)) r rep s.

End Re.

(** ** Constants of the module *)

Definition RAW_PREVIEW_LIMIT : Z := 1800.
Definition CHILD_BLOCK_LIMIT : Z := 1500.
Definition TITLE_LIMIT : Z := 200.

(** ** Chunker and truncator *)

(** [truncateText(value, limit)] *)
Definition truncateText (value : Js.str) (limit : Z) : Js.str :=
  if negb (Js.truthy value) then `""
  else if Js.len value >? limit then Js.slice value 0 limit else value.

(** The [for] loop of [splitIntoChunks]: [i] is the loop index and
    [chunks] the array built so far.  The loop has no bound of its own when
    [limit <= 0], so the embedding counts iterations: [None] says that
    [fuel] iterations did not reach the exit test. *)
Fixpoint splitIntoChunks_loop (fuel : nat) (text : Js.str) (limit i : Z)
    (chunks : list Js.str) : option (list Js.str) :=
  match fuel with
  | O => None
  | S fuel' =>
      if i <? Js.len text
      then splitIntoChunks_loop fuel' text limit (i + limit)
             (chunks ++ [Js.slice text i (i + limit)])
      else Some chunks
  end.

(** [splitIntoChunks(text, limit)] *)
Definition splitIntoChunks (fuel : nat) (text : Js.str) (limit : Z)
    : option (list Js.str) :=
  if negb (Js.truthy text) then Some []
  else splitIntoChunks_loop fuel text limit 0 [].

(** ** Title builder *)

(** [/^\s*(?:\[\s*inbox\s*\]|inbox)\s*[:\-–—]*\s*/i]; the en dash and the
    em dash are the code units 8211 and 8212. *)
Definition markerPrefix : Re.t :=
  Re.seq
    [ Re.Star Re.space;
      Re.Alt
        (Re.seq [ Re.chr 91; Re.Star Re.space; Re.lit_i "inbox";
                  Re.Star Re.space; Re.chr 93 ])
        (Re.lit_i "inbox");
      Re.Star Re.space;
      Re.Star (Re.oneOf [58; 45; 8211; 8212]);
      Re.Star Re.space ].

(** [normalizeTitle(subject)] *)
Definition normalizeTitle (subject : Js.str) : Js.str :=
  let cleaned := Js.trim (Re.replaceAnchored markerPrefix `"" subject) in
  cleaned.

(** [buildTitle(subject, receivedAt)] *)
Definition buildTitle (subject receivedAt : Js.str) : Js.str :=
  let normalized := normalizeTitle subject in
  if negb (Js.len normalized =? 0) then normalized
  else
    let date := Js.slice receivedAt 0 10 in
    `"Inbox email " ++ date.

(** ** Text normaliser *)

(** [decodeHtmlEntities(text)] *)
Definition decodeHtmlEntities (text : Js.str) : Js.str :=
  let text := Re.replaceAll (Re.lit_i "&nbsp;") `" " text in
  let text := Re.replaceAll (Re.lit_i "&lt;") `"<" text in
  let text := Re.replaceAll (Re.lit_i "&gt;") `">" text in
  let text := Re.replaceAll (Re.lit_i "&amp;") `"&" text in
  let text := Re.replaceAll (Re.lit_i "&quot;") [34] text in
  Re.replaceAll (Re.lit_i "&#39;") `"'" text.

(** [/<\s*br\s*\/?\s*>/gi], [/<\s*\/p\s*>/gi], [/<\s*\/div\s*>/gi] and
    [/<[^>]+>/g]; 60 is [<], 62 is [>], 47 is [/]. *)
Definition brTag : Re.t :=
  Re.seq [ Re.chr 60; Re.Star Re.space; Re.lit_i "br"; Re.Star Re.space;
           Re.Opt (Re.chr 47); Re.Star Re.space; Re.chr 62 ].
Definition closingTag (name : string) : Re.t :=
  Re.seq [ Re.chr 60; Re.Star Re.space; Re.chr 47; Re.lit_i name;
           Re.Star Re.space; Re.chr 62 ].
Definition anyTag : Re.t :=
  Re.seq [ Re.chr 60; Re.Plus (Re.noneOf [62]); Re.chr 62 ].

(** [htmlToText(html)] *)
Definition htmlToText (html : Js.str) : Js.str :=
  let withBreaks :=
    Re.replaceAll (closingTag "div") [10]
      (Re.replaceAll (closingTag "p") [10]
         (Re.replaceAll brTag [10] html)) in
  let stripped := Re.replaceAll anyTag `"" withBreaks in
  decodeHtmlEntities stripped.

(** ** Body resolver *)

Inductive BodySource : Type := SrcText | SrcHtml | SrcRaw | SrcEmpty.

Record ResolvedBody : Type :=
  { body_text : Js.str; body_source : BodySource }.

(** A condition [x && x.trim().length] on an optional string: [undefined]
    and the empty string are falsy, and so is a length of zero. *)
Definition nonBlank (x : option Js.str) : bool :=
  match x with
  | Some v => Js.truthy v && negb (Js.len (Js.trim v) =? 0)
  | None => false
  end.

(** Non-blank, in the words of the specification: a string is there and
    has at least one character that is not white space. *)
Definition NonBlank (x : option Js.str) : Prop :=
  exists v, x = Some v /\ Exists (fun c => Js.isWhiteSpace c = false) v.

(** [resolveMailText(text, html, rawFallback)]; in a branch guarded by
    [nonBlank] the argument is a string. *)
Definition resolveMailText (text html rawFallback : option Js.str)
    : ResolvedBody :=
  if nonBlank text then
    {| body_text := Js.trim (Js.the text); body_source := SrcText |}
  else if nonBlank html then
    {| body_text := Js.trim (htmlToText (Js.the html));
       body_source := SrcHtml |}
  else if nonBlank rawFallback then
    {| body_text := Js.trim (Js.the rawFallback); body_source := SrcRaw |}
  else
    {| body_text := `""; body_source := SrcEmpty |}.

(** ** Fingerprint builder *)

(** [new TextEncoder().encode(value)]: the string is read as Unicode scalar
    values, a surrogate pair giving one supplementary code point and a lone
    surrogate U+FFFD, and each scalar value is written in UTF-8. *)
Module Utf8.

Definition isHighSurrogate (c : Z) : bool := (55296 <=? c) && (c <=? 56319).
Definition isLowSurrogate (c : Z) : bool := (56320 <=? c) && (c <=? 57343).

Definition encodeScalar (cp : Z) : list Z :=
  if cp <? 128 then [cp]
  else if cp <? 2048 then
    [Z.lor 192 (Z.shiftr cp 6); Z.lor 128 (Z.land cp 63)]
  else if cp <? 65536 then
    [Z.lor 224 (Z.shiftr cp 12);
     Z.lor 128 (Z.land (Z.shiftr cp 6) 63);
     Z.lor 128 (Z.land cp 63)]
  else
    [Z.lor 240 (Z.shiftr cp 18);
     Z.lor 128 (Z.land (Z.shiftr cp 12) 63);
     Z.lor 128 (Z.land (Z.shiftr cp 6) 63);
     Z.lor 128 (Z.land cp 63)].

Fixpoint encode (s : Js.str) : list Z :=
  match s with
  | [] => []
  | c :: rest =>
      if isHighSurrogate c then
        match rest with
        | d :: rest' =>
            if isLowSurrogate d
            then encodeScalar (65536 + (c - 55296) * 1024 + (d - 56320))
                   ++ encode rest'
            else encodeScalar 65533 ++ encode rest
        | [] => encodeScalar 65533
        end
      else if isLowSurrogate c then encodeScalar 65533 ++ encode rest
      else encodeScalar c ++ encode rest
  end.

End Utf8.

(** [crypto.subtle.digest("SHA-256", data)]: SHA-256 of FIPS 180-4 over
    bytes, on 32-bit words held in [Z] with the wrap-around written out. *)
Module Sha256.

Definition modulus : Z := 4294967296.
Definition add (x y : Z) : Z := (x + y) mod modulus.
Definition rotr (n x : Z) : Z :=
  Z.lor (Z.shiftr x n) (Z.shiftl x (32 - n) mod modulus).
Definition shr (n x : Z) : Z := Z.shiftr x n.
Definition not32 (x : Z) : Z := Z.lxor x (modulus - 1).

Definition Ch (x y z : Z) : Z := Z.lxor (Z.land x y) (Z.land (not32 x) z).
Definition Maj (x y z : Z) : Z :=
  Z.lxor (Z.lxor (Z.land x y) (Z.land x z)) (Z.land y z).
Definition Sigma0 (x : Z) : Z :=
  Z.lxor (Z.lxor (rotr 2 x) (rotr 13 x)) (rotr 22 x).
Definition Sigma1 (x : Z) : Z :=
  Z.lxor (Z.lxor (rotr 6 x) (rotr 11 x)) (rotr 25 x).
Definition sigma0 (x : Z) : Z :=
  Z.lxor (Z.lxor (rotr 7 x) (rotr 18 x)) (shr 3 x).
Definition sigma1 (x : Z) : Z :=
  Z.lxor (Z.lxor (rotr 17 x) (rotr 19 x)) (shr 10 x).

(** The constants of FIPS 180-4 are defined from the primes: the round
    constants are the first 32 bits of the fractional parts of the cube
    roots of the first 64 primes, the initial hash value those of the
    square roots of the first 8. *)
Definition isPrime (n : Z) : bool :=
  (2 <=? n)
  && forallb (fun d => negb (n mod d =? 0))
       (map Z.of_nat (List.seq 2 (Z.to_nat (Z.sqrt n) - 1))).

Definition primes (count : nat) : list Z :=
  firstn count (filter isPrime (map Z.of_nat (List.seq 2 310))).

(** The integer cube root, bit by bit from the top. *)
Fixpoint cbrt_from (bit : nat) (n r : Z) : Z :=
  match bit with
  | O => r
  | S bit' =>
      let r' := r + 2 ^ Z.of_nat bit' in
      if r' * r' * r' <=? n then cbrt_from bit' n r' else cbrt_from bit' n r
  end.

Definition cbrt (n : Z) : Z := cbrt_from 40 n 0.

Definition K : list Z :=
  Eval vm_compute in
    map (fun p => cbrt (p * 2 ^ 96) mod modulus) (primes 64).

Definition H0 : list Z :=
  Eval vm_compute in
    map (fun p => Z.sqrt (p * 2 ^ 64) mod modulus) (primes 8).

(** The eight working variables, and the hash value between blocks. *)
Record state : Type :=
  { va : Z; vb : Z; vc : Z; vd : Z; ve : Z; vf : Z; vg : Z; vh : Z }.

Definition initial : state :=
  {| va := nth 0 H0 0; vb := nth 1 H0 0; vc := nth 2 H0 0; vd := nth 3 H0 0;
     ve := nth 4 H0 0; vf := nth 5 H0 0; vg := nth 6 H0 0; vh := nth 7 H0 0 |}.

(** Padding: a one bit, zero bits up to 56 modulo 64 bytes, and the length
    of the message in bits as a 64-bit big-endian number. *)
Definition be (width : nat) (x : Z) : list Z :=
  map (fun i => Z.shiftr x (8 * Z.of_nat i) mod 256) (rev (List.seq 0 width)).

Definition pad (msg : list Z) : list Z :=
  let n := Z.of_nat (length msg) in
  msg ++ [128] ++ repeat 0 (Z.to_nat ((55 - n) mod 64)) ++ be 8 (8 * n).

Fixpoint words (bytes : list Z) : list Z :=
  match bytes with
  | b0 :: b1 :: b2 :: b3 :: rest =>
      (b0 * 16777216 + b1 * 65536 + b2 * 256 + b3) :: words rest
  | _ => []
  end.

Fixpoint blocks (n : nat) (ws : list Z) : list (list Z) :=
  match n, ws with
  | S n', _ :: _ => firstn 16 ws :: blocks n' (skipn 16 ws)
  | _, _ => []
  end.

(** The message schedule: sixteen words of the block, then 48 derived. *)
Fixpoint extend (n : nat) (w : list Z) : list Z :=
  match n with
  | O => w
  | S n' =>
      let t := length w in
      let wt :=
        add (add (add (sigma1 (nth (t - 2) w 0)) (nth (t - 7) w 0))
               (sigma0 (nth (t - 15) w 0)))
          (nth (t - 16) w 0) in
      extend n' (w ++ [wt])
  end.

Definition schedule (block : list Z) : list Z := extend 48 block.

Definition round (s : state) (kw : Z * Z) : state :=
  let t1 :=
    add (add (add (add (vh s) (Sigma1 (ve s))) (Ch (ve s) (vf s) (vg s)))
           (fst kw)) (snd kw) in
  let t2 := add (Sigma0 (va s)) (Maj (va s) (vb s) (vc s)) in
  {| va := add t1 t2; vb := va s; vc := vb s; vd := vc s;
     ve := add (vd s) t1; vf := ve s; vg := vf s; vh := vg s |}.

Definition compress (H : state) (block : list Z) : state :=
  let s := fold_left round (combine K (schedule block)) H in
  {| va := add (va H) (va s); vb := add (vb H) (vb s);
     vc := add (vc H) (vc s); vd := add (vd H) (vd s);
     ve := add (ve H) (ve s); vf := add (vf H) (vf s);
     vg := add (vg H) (vg s); vh := add (vh H) (vh s) |}.

Definition hash (msg : list Z) : state :=
  let ws := words (pad msg) in
  fold_left compress (blocks (length ws) ws) initial.

(** The digest: the eight words, big-endian, 32 bytes. *)
Definition digest (msg : list Z) : list Z :=
  let s := hash msg in
  flat_map (be 4) [va s; vb s; vc s; vd s; ve s; vf s; vg s; vh s].

End Sha256.

(** [byte.toString(16)] for a byte, and [s.padStart(n, "0")]. *)
Definition hexDigit (d : Z) : Z := if d <? 10 then 48 + d else 87 + d.
Definition toString16 (byte : Z) : Js.str :=
  if byte <? 16 then [hexDigit byte]
  else [hexDigit (byte / 16); hexDigit (byte mod 16)].
Definition padStart0 (s : Js.str) (n : nat) : Js.str :=
  repeat 48 (n - length s) ++ s.

(** [sha256Hex(value)] *)
Definition sha256Hex (value : Js.str) : Js.str :=
  let data := Utf8.encode value in
  let digest := Sha256.digest data in
  Js.join (map (fun byte => padStart0 (toString16 byte) 2) digest).

Record FingerprintInput : Type :=
  { fp_from : option Js.str;
    fp_subject : Js.str;
    fp_date : Js.str;
    fp_body : Js.str }.

(** The hashed material of [buildFingerprint], with the body hash in it. *)
Definition fingerprintMaterial (input : FingerprintInput) (bodyHash : Js.str)
    : Js.str :=
  Js.orElse (fp_from input) `"" ++ `"|" ++ fp_subject input ++ `"|"
    ++ fp_date input ++ `"|" ++ bodyHash.

(** [buildFingerprint(input)] *)
Definition buildFingerprint (input : FingerprintInput) : Js.str :=
  let bodyHash := sha256Hex (fp_body input) in
  let material := fingerprintMaterial input bodyHash in
  sha256Hex material.

(** Lower-case hexadecimal digits, [0-9a-f]. *)
Definition isLowerHex (c : Z) : bool :=
  ((48 <=? c) && (c <=? 57)) || ((97 <=? c) && (c <=? 102)).

(** ** Content blocks *)

(** [{ type: "text", text: { content } }] *)
Record RichText : Type := { text_content : Js.str }.

(** [{ object: "block", type: "paragraph", paragraph: { rich_text } }] *)
Record NotionParagraphBlock : Type := { paragraph_rich_text : list RichText }.

(** [buildParagraph(content)] *)
Definition buildParagraph (content : Js.str) : NotionParagraphBlock :=
  {| paragraph_rich_text := [ {| text_content := content |} ] |}.

(** The text a block holds. *)
Definition blockText (b : NotionParagraphBlock) : Js.str :=
  Js.join (map text_content (paragraph_rich_text b)).

(** The blocks pushed before the loop of [buildChildrenBlocks]. *)
Definition senderBlocks (fromAddress : option Js.str)
    : list NotionParagraphBlock :=
  if Js.present fromAddress
  then [buildParagraph (`"From: " ++ Js.the fromAddress)]
  else [].

(** The body of the [for ... of] loop of [buildChildrenBlocks]. *)
Definition pushChunk (blocks : list NotionParagraphBlock) (chunk : Js.str)
    : list NotionParagraphBlock :=
  if Js.len (Js.trim chunk) =? 0 then blocks
  else blocks ++ [buildParagraph chunk].

(** [buildChildrenBlocks(text, fromAddress)]; the chunker gets more fuel
    than there are code units, and [None] would say its loop did not end. *)
Definition buildChildrenBlocks (text : Js.str) (fromAddress : option Js.str)
    : option (list NotionParagraphBlock) :=
  let blocks := senderBlocks fromAddress in
  match splitIntoChunks (S (length text)) text CHILD_BLOCK_LIMIT with
  | Some chunks => Some (fold_left pushChunk chunks blocks)
  | None => None
  end.

(** ** Sender extraction and allowlist *)

(** The [from] and [to] values of a parsed mail, typed [unknown] in
    [extractFromAddress]: absent, a string, an array, an object with an
    optional [address] and an optional [value], or anything else. *)
Inductive AddressLike : Type :=
| AddrAbsent : AddressLike
| AddrString : Js.str -> AddressLike
| AddrList : list AddressLike -> AddressLike
| AddrRecord : option Js.str -> AddressLike -> AddressLike
| AddrOther : AddressLike.

(** [/[\w.+-]+@[\w.-]+/] *)
Definition emailPattern : Re.t :=
  Re.seq
    [ Re.Plus (Re.Char (fun c => Re.isWord c || existsb (Z.eqb c) [46; 43; 45]));
      Re.chr 64;
      Re.Plus (Re.Char (fun c => Re.isWord c || existsb (Z.eqb c) [46; 45])) ].

(** [extractEmailFromString(value)] *)
Definition extractEmailFromString (value : Js.str) : Js.str :=
  match Re.match0 emailPattern value with
  | Some found => found
  | None => Js.trim value
  end.

(** Truthiness of an address-like value. *)
Definition addrTruthy (from : AddressLike) : bool :=
  match from with
  | AddrAbsent => false
  | AddrString s => Js.truthy s
  | _ => true
  end.

(** [extractFromAddress(from)] *)
Fixpoint extractFromAddress (from : AddressLike) : option Js.str :=
  match from with
  | AddrAbsent => None
  | AddrString s =>
      if Js.truthy s then Some (extractEmailFromString s) else None
  | AddrList items =>
      match items with
      | first :: _ => extractFromAddress first
      | [] => None
      end
  | AddrRecord address value =>
      if Js.present address then address
      else if addrTruthy value then extractFromAddress value
      else None
  | AddrOther => None
  end.

(** [parseAllowlist(allowedFrom)]; the [Set] is held as the list of its
    entries and asked only for membership. *)
Definition parseAllowlist (lower : Js.str -> Js.str)
    (allowedFrom : option Js.str) : option (list Js.str) :=
  if negb (Js.present allowedFrom) then None
  else
    let entries :=
      filter Js.truthy
        (map (fun entry => lower (Js.trim entry))
           (Js.split 44 (Js.the allowedFrom))) in
    match entries with
    | [] => None
    | _ :: _ => Some entries
    end.

Definition setHas (set : list Js.str) (x : Js.str) : bool :=
  existsb (Js.eqb x) set.

(** The allowlist condition shared by both versions of the handler:
    [allowlist && (!fromAddress || !allowlist.has(fromAddress.toLowerCase()))]. *)
Definition rejectedByAllowlist (lower : Js.str -> Js.str)
    (allowlist : option (list Js.str)) (fromAddress : option Js.str) : bool :=
  match allowlist with
  | Some set =>
      negb (Js.present fromAddress)
      || negb (setHas set (lower (Js.the fromAddress)))
  | None => false
  end.

(** ** The record sent to Notion *)

Inductive PropertyValue : Type :=
| PTitle : Js.str -> PropertyValue       (* [{ title: [text] }] *)
| PDate : Js.str -> PropertyValue        (* [{ date: { start } }] *)
| PSelect : Js.str -> PropertyValue      (* [{ select: { name } }] *)
| PRichText : Js.str -> PropertyValue.   (* [{ rich_text: [text] }] *)

(** An object is held as the list of its own properties in the order in
    which [JSON.stringify] and [Object.keys] list them: the keys that are
    array indices first, in ascending order, and the other keys behind
    them, in the order in which they were first written.

    A key is an array index when it is the decimal numeral, without sign
    or leading zero, of an integer below 2^32 - 1. *)
Definition isDigit (c : Z) : bool := (48 <=? c) && (c <=? 57).

Definition arrayIndex (name : Js.str) : option Z :=
  match name with
  | [] => None
  | c :: rest =>
      if forallb isDigit name && (negb (c =? 48) || (Js.len rest =? 0))
      then
        let value := fold_left (fun n d => 10 * n + (d - 48)) name 0 in
        if value <? 4294967295 then Some value else None
      else None
  end.

(** A key [name] that is new to the object is listed before the key [n]
    that is already there. *)
Definition precedes (name n : Js.str) : bool :=
  match arrayIndex name, arrayIndex n with
  | Some i, Some j => i <? j
  | Some _, None => true
  | None, _ => false
  end.

Definition hasProperty (name : Js.str) (object : list (Js.str * PropertyValue))
    : bool :=
  existsb (fun entry => Js.eqb (fst entry) name) object.

Definition replaceProperty (name : Js.str) (value : PropertyValue)
    (object : list (Js.str * PropertyValue)) : list (Js.str * PropertyValue) :=
  map (fun entry => if Js.eqb (fst entry) name then (fst entry, value) else entry)
    object.

Fixpoint insertProperty (name : Js.str) (value : PropertyValue)
    (object : list (Js.str * PropertyValue)) : list (Js.str * PropertyValue) :=
  match object with
  | [] => [(name, value)]
  | (n, v) :: rest =>
      if precedes name n then (name, value) :: (n, v) :: rest
      else (n, v) :: insertProperty name value rest
  end.

(** One entry [[name]: value] of an object literal with computed keys: a
    key that repeats an earlier one replaces its value and keeps its place,
    a new key takes its place in the order of the keys. *)
Definition setProperty (name : Js.str) (value : PropertyValue)
    (object : list (Js.str * PropertyValue)) : list (Js.str * PropertyValue) :=
  if hasProperty name object then replaceProperty name value object
  else insertProperty name value object.

Fixpoint getProperty (name : Js.str) (object : list (Js.str * PropertyValue))
    : option PropertyValue :=
  match object with
  | [] => None
  | (n, v) :: rest => if Js.eqb n name then Some v else getProperty name rest
  end.

(** The [fetch] call to [https://api.notion.com/v1/pages]. *)
Record NotionRequest : Type :=
  { req_token : option Js.str;
    req_version : Js.str;
    req_database : option Js.str;
    req_properties : list (Js.str * PropertyValue);
    req_children : option (list NotionParagraphBlock) }.

(** What [safeJsonParse(responseBody)?.message] is: nothing (the body is
    not JSON, or is not an object with a message, or the message is null),
    a string, or a value of another kind (a number, a boolean, an array or
    an object). *)
Inductive ResponseMessage : Type :=
| MessageAbsent : ResponseMessage
| MessageString : Js.str -> ResponseMessage
| MessageOther : ResponseMessage.

(** The response, as far as the handler reads it: the status, and the
    message of the parsed body. *)
Record NotionResponse : Type :=
  { resp_status : Z;
    resp_message : ResponseMessage }.

(** [response.ok] *)
Definition resp_ok (r : NotionResponse) : bool :=
  (200 <=? resp_status r) && (resp_status r <=? 299).

(** What the worker takes from its platform: the two readings of the clock,
    [new Date(s).toISOString()] ([None] for an invalid date, where it
    raises), [String.prototype.toLowerCase], and the answer of the Notion
    API to a request. *)
Record World : Type :=
  { receivedAtNow : Js.str;
    createdAtNow : Js.str;
    dateToISOString : Js.str -> option Js.str;
    toLowerCase : Js.str -> Js.str;
    notionApi : NotionRequest -> NotionResponse }.

(** [buildSourceProperty(sourceAsRichText)] *)
Definition buildSourceProperty (lower : Js.str -> Js.str)
    (sourceAsRichText : option Js.str) : PropertyValue :=
  match sourceAsRichText with
  | Some flag =>
      if Js.eqb (lower flag) `"true" then PRichText `"Email"
      else PSelect `"Email"
  | None => PSelect `"Email"
  end.

(** [children.length ? children : undefined] *)
Definition childrenField (children : list NotionParagraphBlock)
    : option (list NotionParagraphBlock) :=
  match children with [] => None | _ :: _ => Some children end.

(** ** Effects

    A handler makes calls to the Notion API and either returns or raises.
    A computation is the list of the calls it made, in order, with how it
    ended. *)

Inductive Error : Type :=
| MissingEnv : list Js.str -> Error          (* "Missing required env vars: ..." *)
| NotionPropertyMissing : Js.str -> Error    (* "Notion property missing: ..." *)
| NotionApiError : Z -> Error                (* "Notion API error: <status>" *)
| InvalidTime : Error                        (* RangeError of [toISOString] *)
| TypeError : Error                          (* "message.match is not a function" *)
| LoopDidNotEnd : Error.                     (* fuel of the chunker spent *)

Inductive Outcome (A : Type) : Type :=
| Returned : A -> Outcome A
| Raised : Error -> Outcome A.

Arguments Returned {A} _.
Arguments Raised {A} _.

Definition M (A : Type) : Type := (list NotionRequest * Outcome A)%type.

Definition ret {A : Type} (a : A) : M A := ([], Returned a).
Definition raise {A : Type} (e : Error) : M A := ([], Raised e).

Definition bind {A B : Type} (m : M A) (f : A -> M B) : M B :=
  match m with
  | (calls, Returned a) =>
      let (calls', o) := f a in (calls ++ calls', o)
  | (calls, Raised e) => (calls, Raised e)
  end.

(** One call to the Notion API. *)
Definition post (world : World) (request : NotionRequest) : M NotionResponse :=
  ([request], Returned (notionApi world request)).

Definition calls {A : Type} (m : M A) : list NotionRequest := fst m.
Definition outcome {A : Type} (m : M A) : Outcome A := snd m.

Notation "x <- m ;; k" := (bind m (fun x => k))
  (at level 61, m at next level, right associativity).
Notation "m ;;; k" := (bind m (fun _ => k))
  (at level 61, right associativity).

(** ** Configuration *)

Definition DEFAULT_NOTION_VERSION : Js.str := `"2022-06-28".
Definition FINGERPRINT_PROPERTY_DEFAULT : Js.str := `"Fingerprint".
Definition RAW_PROPERTY_DEFAULT : Js.str := `"Raw".
Definition SOURCE_PROPERTY_DEFAULT : Js.str := `"Source".
Definition CREATED_PROPERTY_DEFAULT : Js.str := `"Created".
Definition TITLE_PROPERTY_DEFAULT : Js.str := `"Name".

Record Env : Type :=
  { NOTION_TOKEN : option Js.str;
    INBOX_DB_ID : option Js.str;
    NOTION_VERSION : option Js.str;
    ALLOWED_FROM : option Js.str;
    SOURCE_AS_RICH_TEXT : option Js.str;
    WORKERS_BEARER_TOKEN : option Js.str;
    TITLE_PROPERTY : option Js.str;
    CREATED_PROPERTY : option Js.str;
    SOURCE_PROPERTY : option Js.str;
    RAW_PROPERTY : option Js.str;
    FINGERPRINT_PROPERTY : option Js.str }.

(** The names [validateEnv] finds missing, in the order it pushes them. *)
Definition missingEnv (env : Env) : list Js.str :=
  (if Js.present (NOTION_TOKEN env) then [] else [`"NOTION_TOKEN"])
  ++ (if Js.present (INBOX_DB_ID env) then [] else [`"INBOX_DB_ID"])
  ++ (if Js.present (WORKERS_BEARER_TOKEN env) then []
      else [`"WORKERS_BEARER_TOKEN"]).

(** [validateEnv(env, requestId)] *)
Definition validateEnv (env : Env) : M unit :=
  match missingEnv env with
  | [] => ret tt
  | missing => raise (MissingEnv missing)
  end.

Record PropertyNames : Type :=
  { name_title : Js.str;
    name_created : Js.str;
    name_source : Js.str;
    name_raw : Js.str;
    name_fingerprint : Js.str }.

(** [resolvePropertyNames(env)] *)
Definition resolvePropertyNames (env : Env) : PropertyNames :=
  {| name_title := Js.orElse (TITLE_PROPERTY env) TITLE_PROPERTY_DEFAULT;
     name_created := Js.orElse (CREATED_PROPERTY env) CREATED_PROPERTY_DEFAULT;
     name_source := Js.orElse (SOURCE_PROPERTY env) SOURCE_PROPERTY_DEFAULT;
     name_raw := Js.orElse (RAW_PROPERTY env) RAW_PROPERTY_DEFAULT;
     name_fingerprint :=
       Js.orElse (FINGERPRINT_PROPERTY env) FINGERPRINT_PROPERTY_DEFAULT |}.

(** ** Messages *)

(** The parsed mail, as far as the handlers read it. *)
Record Mail : Type :=
  { mail_subject : option Js.str;
    mail_text : option Js.str;
    mail_html : option Js.str;
    mail_from : AddressLike;
    mail_to : AddressLike;
    mail_date : option Js.str }.

(** An inbound message: the text [TextDecoder] reads from the raw bytes,
    the mail the parser reads from them, and the envelope sender. *)
Record ForwardableEmailMessage : Type :=
  { message_decoded : Js.str;
    message_mail : Mail;
    message_from : option Js.str }.

(** [/\r?\n\r?\n/] *)
Definition headerBreak : Re.t :=
  Re.seq [ Re.Opt (Re.chr 13); Re.chr 10; Re.Opt (Re.chr 13); Re.chr 10 ].

(** [decodeRawText(raw)], after the decoding of the bytes. *)
Definition decodeRawText (decoded : Js.str) : Js.str :=
  match Re.match0 headerBreak decoded with
  | None => decoded
  | Some headerSplit =>
      let index := Js.indexOf decoded headerSplit in
      Js.sliceFrom decoded (index + Js.len headerSplit)
  end.

(** ** Diagnosis of a failed delivery *)

(** [/property(?:\s+name)?\s+"?([A-Za-z0-9 _-]+)"?\s+does not exist/i], in
    the three parts around its capture group; 34 is the double quote. *)
Definition isPropertyNameChar (c : Z) : bool :=
  ((48 <=? c) && (c <=? 57)) || ((65 <=? c) && (c <=? 90))
  || ((97 <=? c) && (c <=? 122))
  || (c =? 32) || (c =? 95) || (c =? 45).

Definition missingPropertyHead : Re.t :=
  Re.seq [ Re.lit_i "property";
           Re.Opt (Re.Seq (Re.Plus Re.space) (Re.lit_i "name"));
           Re.Plus Re.space;
           Re.Opt (Re.chr 34) ].

Definition missingPropertyGroup : Re.t := Re.Plus (Re.Char isPropertyNameChar).

Definition missingPropertyTail : Re.t :=
  Re.seq [ Re.Opt (Re.chr 34); Re.Plus Re.space; Re.lit_i "does not exist" ].

(** A match attempt at the start of [s], giving what the group captured on
    the first path on which the whole pattern matches. *)
Definition missingPropertyAt (s : Js.str) : option Js.str :=
  Re.run missingPropertyHead s (fun s1 =>
    Re.run missingPropertyGroup s1 (fun s2 =>
      match Re.run missingPropertyTail s2 Some with
      | Some _ => Some (firstn (length s1 - length s2) s1)
      | None => None
      end)).

(** [extractMissingProperty(message)]: [match[1]] of the leftmost match. *)
Fixpoint extractMissingProperty (message : Js.str) : option Js.str :=
  match missingPropertyAt message with
  | Some name => Some name
  | None =>
      match message with
      | [] => None
      | _ :: message' => extractMissingProperty message'
      end
  end.

(** ** Record assembly and delivery *)

(** The [properties] object of [handleNotionCreate], key by key. *)
Definition buildProperties (lower : Js.str -> Js.str) (env : Env)
    (title createdAt rawPreview fingerprint : Js.str)
    : list (Js.str * PropertyValue) :=
  let propertyNames := resolvePropertyNames env in
  setProperty (name_fingerprint propertyNames) (PRichText fingerprint)
    (setProperty (name_raw propertyNames) (PRichText rawPreview)
       (setProperty (name_source propertyNames)
          (buildSourceProperty lower (SOURCE_AS_RICH_TEXT env))
          (setProperty (name_created propertyNames) (PDate createdAt)
             (setProperty (name_title propertyNames) (PTitle title) [])))).

(** [handleNotionCreate(input)]. For a response that is not ok, both
    [logNotionError] and the handler hand [parsed?.message ?? ""] to
    [extractMissingProperty], whose [message.match] is a [TypeError] on a
    message that is no string. *)
Definition handleNotionCreate (world : World) (env : Env)
    (receivedAt : Js.str) (mail : Mail) (resolved : ResolvedBody)
    (messageFrom : option Js.str) : M unit :=
  let subject := Js.orElse (mail_subject mail) `"" in
  let fromAddress :=
    match extractFromAddress (mail_from mail) with
    | Some a => Some a
    | None => messageFrom
    end in
  let allowlist := parseAllowlist (toLowerCase world) (ALLOWED_FROM env) in
  if rejectedByAllowlist (toLowerCase world) allowlist fromAddress then ret tt
  else
    let rawText := body_text resolved in
    let rawPreview := truncateText rawText RAW_PREVIEW_LIMIT in
    let createdAt := createdAtNow world in
    let title := truncateText (buildTitle subject receivedAt) TITLE_LIMIT in
    date <- (if Js.present (mail_date mail)
             then match dateToISOString world (Js.the (mail_date mail)) with
                  | Some iso => ret iso
                  | None => raise InvalidTime
                  end
             else ret createdAt) ;;
    let fingerprint :=
      buildFingerprint {| fp_from := fromAddress; fp_subject := subject;
                          fp_date := date; fp_body := rawText |} in
    let properties :=
      buildProperties (toLowerCase world) env title createdAt rawPreview
        fingerprint in
    children <- (match buildChildrenBlocks rawText fromAddress with
                 | Some blocks => ret blocks
                 | None => raise LoopDidNotEnd
                 end) ;;
    response <- post world
      {| req_token := NOTION_TOKEN env;
         req_version := Js.orElse (NOTION_VERSION env) DEFAULT_NOTION_VERSION;
         req_database := INBOX_DB_ID env;
         req_properties := properties;
         req_children := childrenField children |} ;;
    if negb (resp_ok response) then
      message <- (match resp_message response with
                  | MessageAbsent => ret `""
                  | MessageString text => ret text
                  | MessageOther => raise TypeError
                  end) ;;
      let missingProperty := extractMissingProperty message in
      if Js.present missingProperty
      then raise (NotionPropertyMissing (Js.the missingProperty))
      else raise (NotionApiError (resp_status response))
    else ret tt.

(** The [email] handler. *)
Definition email (world : World) (message : ForwardableEmailMessage)
    (env : Env) : M unit :=
  let receivedAt := receivedAtNow world in
  validateEnv env ;;;
  let rawFallback := decodeRawText (message_decoded message) in
  let mail := message_mail message in
  let resolved :=
    resolveMailText (mail_text mail) (mail_html mail) (Some rawFallback) in
  handleNotionCreate world env receivedAt mail resolved (message_from message).

(** ** The debug endpoint *)

(** The mail of a debug request, at the types the handler casts the
    payload to. *)
Record DebugMail : Type :=
  { debug_subject : option Js.str;
    debug_text : option Js.str;
    debug_html : option Js.str;
    debug_from : option Js.str;
    debug_to : option Js.str;
    debug_date : option Js.str;
    debug_raw : option Js.str }.

(** What [request.json()] resolves to.  An array has none of the fields the
    handler reads. *)
Inductive Payload : Type :=
| JsonNull : Payload
| JsonBoolean : bool -> Payload
| JsonNumber : Z -> Payload
| JsonString : Js.str -> Payload
| JsonArray : Payload
| JsonObject : DebugMail -> Payload.

Record Request : Type :=
  { request_method : Js.str;
    request_pathname : Js.str;          (* [new URL(request.url).pathname] *)
    request_authorization : option Js.str;  (* [headers.get("Authorization")] *)
    request_json : option Payload }.    (* [None]: [request.json()] rejects *)

Record Response : Type :=
  { response_body : Js.str; response_status : Z }.

(** [requireBearerAuth(request, token)] *)
Definition requireBearerAuth (request : Request) (token : Js.str)
    : option Js.str :=
  if negb (Js.truthy token) then Some `"missing_token"
  else
    match request_authorization request with
    | None => Some `"missing_header"
    | Some header =>
        if negb (Js.truthy header) then Some `"missing_header"
        else
          let fields := Js.split 32 header in
          let scheme := nth 0 fields [] in
          let value := nth_error fields 1 in
          if negb (Js.eqb scheme `"Bearer")
             || negb (match value with
                      | Some v => Js.eqb v token
                      | None => false
                      end)
          then Some `"invalid_token"
          else None
    end.

(** [!payload || typeof payload !== "object"], and the payload read as a
    mail when the test lets it through. *)
Definition payloadMail (payload : option Payload) : option DebugMail :=
  match payload with
  | Some (JsonObject mail) => Some mail
  | Some JsonArray =>
      Some {| debug_subject := None; debug_text := None; debug_html := None;
              debug_from := None; debug_to := None; debug_date := None;
              debug_raw := None |}
  | _ => None
  end.

Definition mailOfDebug (mail : DebugMail) : Mail :=
  {| mail_subject := debug_subject mail;
     mail_text := debug_text mail;
     mail_html := debug_html mail;
     mail_from := match debug_from mail with
                  | Some s => AddrString s
                  | None => AddrAbsent
                  end;
     mail_to := match debug_to mail with
                | Some s => AddrString s
                | None => AddrAbsent
                end;
     mail_date := debug_date mail |}.

(** The [fetch] handler. *)
Definition fetch (world : World) (request : Request) (env : Env)
    : M Response :=
  let receivedAt := receivedAtNow world in
  validateEnv env ;;;
  if negb (Js.eqb (request_method request) `"POST")
     || negb (Js.eqb (request_pathname request) `"/debug/email")
  then ret {| response_body := `"Not found"; response_status := 404 |}
  else
    match
      requireBearerAuth request (Js.orElse (WORKERS_BEARER_TOKEN env) `"")
    with
    | Some _ =>
        ret {| response_body := `"Unauthorized"; response_status := 401 |}
    | None =>
        match payloadMail (request_json request) with
        | None =>
            ret {| response_body := `"Invalid payload";
                   response_status := 400 |}
        | Some mail =>
            let rawFallback := Js.orElse (debug_raw mail) `"" in
            let resolved :=
              resolveMailText (debug_text mail) (debug_html mail)
                (Some rawFallback) in
            handleNotionCreate world env receivedAt (mailOfDebug mail)
              resolved None ;;;
            ret {| response_body := `"OK"; response_status := 200 |}
        end
    end.

(** ** The handler before the debug endpoint

    The first version of the module: one [email] handler that tests the
    subject itself, no fingerprint, fixed property names. *)

Module V1.

(** [normalizeTitle(subject)] *)
Definition normalizeTitle (subject : Js.str) : Js.str :=
  let cleaned := Js.trim (Re.replaceAnchored markerPrefix `"" subject) in
  if negb (Js.len cleaned =? 0) then cleaned else `"(No title)".

(** [resolveMailText(text, html)] *)
Definition resolveMailText (text html : option Js.str) : Js.str :=
  if nonBlank text then Js.trim (Js.the text)
  else if nonBlank html then Js.trim (htmlToText (Js.the html))
  else `"".

(** The [email] handler. *)
Definition email (world : World) (message : ForwardableEmailMessage)
    (env : Env) : M unit :=
  let mail := message_mail message in
  let subject := Js.orElse (mail_subject mail) `"" in
  if negb (Re.test (Re.lit_i "inbox") subject) then ret tt
  else
    let fromAddress := extractFromAddress (mail_from mail) in
    let allowlist := parseAllowlist (toLowerCase world) (ALLOWED_FROM env) in
    if rejectedByAllowlist (toLowerCase world) allowlist fromAddress
    then ret tt
    else
      let rawText := resolveMailText (mail_text mail) (mail_html mail) in
      let rawPreview := Js.slice rawText 0 RAW_PREVIEW_LIMIT in
      let title := normalizeTitle subject in
      let createdAt := createdAtNow world in
      let properties :=
        [ (`"Name", PTitle title);
          (`"Created", PDate createdAt);
          (`"Source",
            buildSourceProperty (toLowerCase world) (SOURCE_AS_RICH_TEXT env));
          (`"Raw", PRichText rawPreview) ] in
      children <- (match buildChildrenBlocks rawText fromAddress with
                   | Some blocks => ret blocks
                   | None => raise LoopDidNotEnd
                   end) ;;
      response <- post world
        {| req_token := NOTION_TOKEN env;
           req_version :=
             Js.orElse (NOTION_VERSION env) DEFAULT_NOTION_VERSION;
           req_database := INBOX_DB_ID env;
           req_properties := properties;
           req_children := childrenField children |} ;;
      if negb (resp_ok response)
      then raise (NotionApiError (resp_status response))
      else ret tt.

End V1.

(** ** The words of the specification *)

(** The subject contains the marker token in any letter case, at any
    position. *)
Definition containsMarker (subject : Js.str) : Prop :=
  exists before found rest,
    subject = before ++ found ++ rest
    /\ map Re.canonicalize found = `"INBOX".

(** The request is a POST to [/debug/email]. *)
Definition routed (request : Request) : Prop :=
  request_method request = `"POST"
  /\ request_pathname request = `"/debug/email".

(** The request carries the bearer credential: its Authorization header
    reads, field by field at the spaces, "Bearer", then the token. *)
Definition bearerMatches (request : Request) (token : Js.str) : Prop :=
  exists header rest,
    request_authorization request = Some header
    /\ Js.split 32 header = `"Bearer" :: token :: rest.

(** The body did not parse as JSON, or parsed to [null], a boolean, a
    number or a string. *)
Definition unusableBody (body : option Payload) : Prop :=
  match body with
  | None => True
  | Some (JsonObject _) => False
  | Some JsonArray => False
  | Some _ => True
  end.

(** ** A world for the examples

    A clock, dates that are already in ISO form, lower case on ASCII, and a
    Notion API that answers every request with the given status. *)

Definition asciiLower (s : Js.str) : Js.str :=
  map (fun c => if (65 <=? c) && (c <=? 90) then c + 32 else c) s.

Definition exampleWorld (status : Z) : World :=
  {| receivedAtNow := `"2024-02-03T10:00:00.000Z";
     createdAtNow := `"2024-02-03T10:00:01.000Z";
     dateToISOString := fun s => Some s;
     toLowerCase := asciiLower;
     notionApi := fun _ => {| resp_status := status;
                              resp_message := MessageAbsent |} |}.

Definition exampleEnv : Env :=
  {| NOTION_TOKEN := Some `"secret_token";
     INBOX_DB_ID := Some `"db";
     NOTION_VERSION := None;
     ALLOWED_FROM := None;
     SOURCE_AS_RICH_TEXT := None;
     WORKERS_BEARER_TOKEN := Some `"bearer";
     TITLE_PROPERTY := None;
     CREATED_PROPERTY := None;
     SOURCE_PROPERTY := None;
     RAW_PROPERTY := None;
     FINGERPRINT_PROPERTY := None |}.

Definition exampleMail (subject : Js.str) : Mail :=
  {| mail_subject := Some subject;
     mail_text := Some `"See you at noon.";
     mail_html := None;
     mail_from := AddrRecord (Some `"ann@example.com") AddrAbsent;
     mail_to := AddrAbsent;
     mail_date := None |}.

Definition exampleMessage (subject : Js.str) : ForwardableEmailMessage :=
  {| message_decoded := `"";
     message_mail := exampleMail subject;
     message_from := None |}.

(** Ceiling of [n / d] for a positive divisor, the number of chunks of [d]
    code units that cover [n] code units. *)
Definition ceilDiv (n d : Z) : Z := (n + d - 1) / d.

(** ** The language of a pattern

    What a pattern matches, apart from the order in which the matcher
    tries: the texts of the pattern as a regular language. *)

Module Lang.

Inductive Matches : Re.t -> Js.str -> Prop :=
| MEmpty : Matches Re.Empty []
| MChar : forall p c, p c = true -> Matches (Re.Char p) [c]
| MSeq : forall a b u v,
    Matches a u -> Matches b v -> Matches (Re.Seq a b) (u ++ v)
| MAltL : forall a b u, Matches a u -> Matches (Re.Alt a b) u
| MAltR : forall a b u, Matches b u -> Matches (Re.Alt a b) u
| MStarNil : forall a, Matches (Re.Star a) []
| MStarCons : forall a u v,
    Matches a u -> Matches (Re.Star a) v -> Matches (Re.Star a) (u ++ v).

(** [inner] occurs in [outer] as a run of consecutive code units. *)
Definition Infix (inner outer : Js.str) : Prop :=
  exists before rest, outer = before ++ inner ++ rest.

End Lang.

(** ** Shapes of what the patterns find *)

(** The two classes of the address pattern, [[\w.+-]] and [[\w.-]]. *)
Definition isLocalChar (c : Z) : bool :=
  Re.isWord c || existsb (Z.eqb c) [46; 43; 45].
Definition isDomainChar (c : Z) : bool :=
  Re.isWord c || existsb (Z.eqb c) [46; 45].

(** A text of the form local@domain, both parts non-empty. *)
Definition AddressShaped (a : Js.str) : Prop :=
  exists local domain,
    a = local ++ 64 :: domain
    /\ local <> [] /\ domain <> []
    /\ forallb isLocalChar local = true
    /\ forallb isDomainChar domain = true.

(** The four texts [/\r?\n\r?\n/] matches: two line feeds, each with or
    without a carriage return before it. *)
Definition HeaderBreak (b : Js.str) : Prop :=
  In b [ [10; 10]; [13; 10; 10]; [10; 13; 10]; [13; 10; 13; 10] ].

(** ** SHA-256 as the standard words it

    The digest of FIPS 180-4 over a message of whole bytes, section by
    section, and its print in hexadecimal: what the specification calls
    SHA256Hex, to be compared with what the worker computes. *)

Module Fips180.

(** The constants as the standard prints them (4.2.2 and 5.3.3), eight
    hexadecimal digits a word. *)
Definition hexValue (c : Z) : Z := if c <? 58 then c - 48 else c - 87.

Fixpoint hexWords_from (s : Js.str) (word : Z) : list Z :=
  match s with
  | [] => [word]
  | c :: rest =>
      if c =? 32 then word :: hexWords_from rest 0
      else hexWords_from rest (16 * word + hexValue c)
  end.

Definition hexWords (s : string) : list Z := hexWords_from (Js.lit s) 0.

Definition K : list Z :=
  hexWords "428a2f98 71374491 b5c0fbcf e9b5dba5 3956c25b 59f111f1 923f82a4 ab1c5ed5"
  ++ hexWords "d807aa98 12835b01 243185be 550c7dc3 72be5d74 80deb1fe 9bdc06a7 c19bf174"
  ++ hexWords "e49b69c1 efbe4786 0fc19dc6 240ca1cc 2de92c6f 4a7484aa 5cb0a9dc 76f988da"
  ++ hexWords "983e5152 a831c66d b00327c8 bf597fc7 c6e00bf3 d5a79147 06ca6351 14292967"
  ++ hexWords "27b70a85 2e1b2138 4d2c6dfc 53380d13 650a7354 766a0abb 81c2c92e 92722c85"
  ++ hexWords "a2bfe8a1 a81a664b c24b8b70 c76c51a3 d192e819 d6990624 f40e3585 106aa070"
  ++ hexWords "19a4c116 1e376c08 2748774c 34b0bcb5 391c0cb3 4ed8aa4a 5b9cca4f 682e6ff3"
  ++ hexWords "748f82ee 78a5636f 84c87814 8cc70208 90befffa a4506ceb bef9a3f7 c67178f2".

Definition H0 : list Z :=
  hexWords "6a09e667 bb67ae85 3c6ef372 a54ff53a 510e527f 9b05688c 1f83d9ab 5be0cd19".

(** Words of [w] bits (2.2.2, 3.2): right shift, right rotation and the
    complement, each on a word. *)
Definition w : Z := 32.

Definition SHR (n x : Z) : Z := Z.shiftr x n.
Definition ROTR (n x : Z) : Z :=
  Z.lor (Z.shiftr x n) (Z.shiftl x (w - n) mod 2 ^ w).
Definition complement (x : Z) : Z := Z.lxor x (Z.ones w).

(** The six logical functions (4.1.2). *)
Definition Ch (x y z : Z) : Z := Z.lxor (Z.land x y) (Z.land (complement x) z).
Definition Maj (x y z : Z) : Z :=
  Z.lxor (Z.lxor (Z.land x y) (Z.land x z)) (Z.land y z).
Definition Sum0 (x : Z) : Z :=
  Z.lxor (Z.lxor (ROTR 2 x) (ROTR 13 x)) (ROTR 22 x).
Definition Sum1 (x : Z) : Z :=
  Z.lxor (Z.lxor (ROTR 6 x) (ROTR 11 x)) (ROTR 25 x).
Definition sig0 (x : Z) : Z :=
  Z.lxor (Z.lxor (ROTR 7 x) (ROTR 18 x)) (SHR 3 x).
Definition sig1 (x : Z) : Z :=
  Z.lxor (Z.lxor (ROTR 17 x) (ROTR 19 x)) (SHR 10 x).

(** Padding (5.1.1): to a message of [l] bits are appended the bit 1, then
    [k] zero bits, [k] the least number that is not negative with
    [l + 1 + k = 448] modulo 512, then [l] as a number of 64 bits. On
    whole bytes the bit 1 and the first seven zero bits are the byte 128. *)
Definition zeroBits (l : Z) : Z :=
  hd 0 (filter (fun k => (l + 1 + k) mod 512 =? 448)
          (map Z.of_nat (List.seq 0 512))).

Definition bigEndian (n : nat) (x : Z) : list Z :=
  map (fun i => (x / 256 ^ Z.of_nat (n - 1 - i)) mod 256) (List.seq 0 n).

Definition padded (message : list Z) : list Z :=
  let l := 8 * Z.of_nat (length message) in
  message ++ [128] ++ repeat 0 (Z.to_nat ((zeroBits l - 7) / 8))
    ++ bigEndian 8 l.

(** Parsing (5.2.1): block [i] is sixteen words, word [n] of the padded
    message being its bytes [4n .. 4n+3] read as one number. *)
Definition word (bytes : list Z) (n : nat) : Z :=
  fold_left (fun x b => 256 * x + b) (firstn 4 (skipn (4 * n) bytes)) 0.

Definition block (bytes : list Z) (i : nat) : list Z :=
  map (fun j => word bytes (16 * i + j)%nat) (List.seq 0 16).

(** The message schedule (6.2.2, step 1): [W_0 .. W_(t-1)]. *)
Fixpoint schedule (M : list Z) (t : nat) : list Z :=
  match t with
  | O => []
  | S t' =>
      let W := schedule M t' in
      let Wt :=
        if (t' <? 16)%nat then nth t' M 0
        else (sig1 (nth (t' - 2) W 0) + nth (t' - 7) W 0
              + sig0 (nth (t' - 15) W 0) + nth (t' - 16) W 0) mod 2 ^ w in
      W ++ [Wt]
  end.

(** One round on the working variables [a .. h] (6.2.2, step 3). *)
Definition step (v : list Z) (Kt Wt : Z) : list Z :=
  match v with
  | [a; b; c; d; e; f; g; h] =>
      let T1 := (h + Sum1 e + Ch e f g + Kt + Wt) mod 2 ^ w in
      let T2 := (Sum0 a + Maj a b c) mod 2 ^ w in
      [(T1 + T2) mod 2 ^ w; a; b; c; (d + T1) mod 2 ^ w; e; f; g]
  | _ => v
  end.

(** The working variables after [t] rounds. *)
Fixpoint rounds (W : list Z) (t : nat) (v : list Z) : list Z :=
  match t with
  | O => v
  | S t' => step (rounds W t' v) (nth t' K 0) (nth t' W 0)
  end.

(** The next intermediate hash value (6.2.2, step 4). *)
Definition next (H M : list Z) : list Z :=
  map (fun p => (fst p + snd p) mod 2 ^ w)
    (combine (rounds (schedule M 64) 64 H) H).

(** The hash value [H(i)] after [i] blocks. *)
Fixpoint hashValue (bytes : list Z) (i : nat) : list Z :=
  match i with
  | O => H0
  | S i' => next (hashValue bytes i') (block bytes i')
  end.

(** The digest: the words of the last hash value, 32 bytes. *)
Definition sha256 (message : list Z) : list Z :=
  let bytes := padded message in
  flat_map (bigEndian 4) (hashValue bytes (length bytes / 64)).

End Fips180.

(** A byte in two hexadecimal digits, lower case, the high one first. *)
Definition hexPair (byte : Z) : Js.str :=
  [ nth (Z.to_nat (byte / 16)) `"0123456789abcdef" 0;
    nth (Z.to_nat (byte mod 16)) `"0123456789abcdef" 0 ].

(** SHA256Hex of the specification: the SHA-256 digest of the text, in
    UTF-8 as the worker encodes it, printed in hexadecimal. *)
Definition SHA256Hex (value : Js.str) : Js.str :=
  flat_map hexPair (Fips180.sha256 (Utf8.encode value)).

(** ** The order of the keys of an object *)

(** [a] may stand before [b] among the keys of an object: array indices
    stand before all other keys and among themselves in ascending order;
    the other keys are bound by no order of their names. *)
Definition listedBefore (a b : Js.str) : Prop :=
  match arrayIndex a, arrayIndex b with
  | Some i, Some j => i <= j
  | None, Some _ => False
  | _, None => True
  end.

(** * Properties *)

Section StringFacts.

Lemma len_nonneg (s : Js.str) : 0 <= Js.len s.
Proof. unfold Js.len; lia. Qed.

Lemma len_app (a b : Js.str) : Js.len (a ++ b) = Js.len a + Js.len b.
Proof. unfold Js.len; rewrite length_app; lia. Qed.

Lemma slice_prefix (s : Js.str) (n : Z) :
  0 <= n -> Js.slice s 0 n = firstn (Z.to_nat n) s.
Proof.
  intros Hn. unfold Js.slice, Js.relIndex.
  pose proof (len_nonneg s) as Hl.
  replace (0 <? 0) with false by reflexivity.
  destruct (n <? 0) eqn:E; [apply Z.ltb_lt in E; lia|].
  rewrite (Z.min_l 0) by lia. simpl.
  rewrite Z.sub_0_r.
  destruct (Z.min_spec n (Js.len s)) as [[H1 ->]|[H1 ->]]; [reflexivity|].
  unfold Js.len in *. rewrite Nat2Z.id.
  rewrite firstn_all. symmetry. apply firstn_all2. lia.
Qed.

(** *** Trimming *)

(** A string that is empty or starts with a visible character. *)
Local Abbreviation headVisible s :=
  (match s with [] => True | c :: _ => Js.isWhiteSpace c = false end).

Lemma trimStart_headVisible (s : Js.str) : headVisible (Js.trimStart s).
Proof.
  induction s as [|c s IH]; simpl; [exact I|].
  destruct (Js.isWhiteSpace c) eqn:E; [exact IH|exact E].
Qed.

Lemma trimStart_fixed (s : Js.str) : headVisible s -> Js.trimStart s = s.
Proof. destruct s as [|c s]; simpl; [reflexivity|]. now intros ->. Qed.

Lemma trimStart_length (s : Js.str) :
  (length (Js.trimStart s) <= length s)%nat.
Proof.
  induction s as [|c s IH]; simpl; [lia|].
  destruct (Js.isWhiteSpace c); simpl; lia.
Qed.

Lemma trimStart_nil_iff (s : Js.str) :
  Js.trimStart s = [] <-> forallb Js.isWhiteSpace s = true.
Proof.
  induction s as [|c s IH]; simpl; [tauto|].
  destruct (Js.isWhiteSpace c); simpl; [exact IH|].
  split; discriminate.
Qed.

Lemma trimStart_snoc (l : Js.str) (c : Z) :
  Js.isWhiteSpace c = false ->
  exists l', Js.trimStart (l ++ [c]) = l' ++ [c].
Proof.
  intros Hc. induction l as [|x l IH]; simpl.
  - rewrite Hc. now exists [].
  - destruct (Js.isWhiteSpace x); [exact IH|]. now exists (x :: l).
Qed.

Lemma trimEnd_headVisible (s : Js.str) :
  headVisible s -> headVisible (Js.trimEnd s).
Proof.
  destruct s as [|c s]; [intros _; exact I|]. intros Hc.
  unfold Js.trimEnd. simpl rev.
  destruct (trimStart_snoc (rev s) c Hc) as (l' & ->).
  rewrite rev_app_distr. simpl. exact Hc.
Qed.

Lemma trimEnd_idempotent (s : Js.str) :
  Js.trimEnd (Js.trimEnd s) = Js.trimEnd s.
Proof.
  unfold Js.trimEnd. rewrite rev_involutive.
  rewrite (trimStart_fixed (Js.trimStart (rev s))); [reflexivity|].
  apply trimStart_headVisible.
Qed.

Lemma trim_fixed (s : Js.str) : Js.trim (Js.trim s) = Js.trim s.
Proof.
  unfold Js.trim.
  rewrite (trimStart_fixed (Js.trimEnd (Js.trimStart s))).
  - apply trimEnd_idempotent.
  - apply trimEnd_headVisible, trimStart_headVisible.
Qed.

Lemma trim_length (s : Js.str) : (length (Js.trim s) <= length s)%nat.
Proof.
  unfold Js.trim, Js.trimEnd. rewrite length_rev.
  pose proof (trimStart_length (rev (Js.trimStart s))) as H.
  rewrite length_rev in H. pose proof (trimStart_length s). lia.
Qed.

Lemma forallb_rev (p : Z -> bool) (l : list Z) :
  forallb p (rev l) = forallb p l.
Proof.
  destruct (forallb p l) eqn:E.
  - rewrite forallb_forall in *. intros x Hx. apply E. now apply in_rev.
  - destruct (forallb p (rev l)) eqn:E'; [|reflexivity].
    rewrite <- E. symmetry. rewrite forallb_forall in *.
    intros x Hx. apply E'. now apply in_rev in Hx.
Qed.

(** [trim] leaves nothing exactly when every code unit is white space. *)
Lemma trim_nil_iff (s : Js.str) :
  Js.trim s = [] <-> forallb Js.isWhiteSpace s = true.
Proof.
  rewrite <- trimStart_nil_iff. unfold Js.trim, Js.trimEnd.
  split.
  - intros H. apply (f_equal (@rev Z)) in H. rewrite rev_involutive in H.
    simpl in H. apply trimStart_nil_iff in H. rewrite forallb_rev in H.
    pose proof (trimStart_headVisible s) as Hv.
    destruct (Js.trimStart s) as [|c r]; [reflexivity|].
    simpl in H. rewrite Hv in H. discriminate.
  - intros ->. reflexivity.
Qed.

End StringFacts.

(** ** The matcher *)

Section Matching.

Implicit Types (r : Re.t) (s : Js.str) (k : Js.str -> option Js.str).

Lemma iterate_consumes m k :
  (forall s k' x, m s k' = Some x ->
     exists pre s', s = pre ++ s' /\ k' s' = Some x) ->
  forall n s x, Re.iterate m k n s = Some x ->
    exists pre s', s = pre ++ s' /\ k s' = Some x.
Proof.
  intros Hm. induction n as [|n IH]; intros s x H; simpl in H.
  - now exists [], s.
  - destruct (m s _) as [rest|] eqn:E.
    + injection H as ->. apply Hm in E. destruct E as (p1 & s1 & -> & E).
      destruct (length s1 <? length (p1 ++ s1))%nat; [|discriminate].
      apply IH in E. destruct E as (p2 & s2 & -> & E).
      exists (p1 ++ p2), s2. now rewrite <- app_assoc.
    + now exists [], s.
Qed.

(** A successful run ends in a successful continuation, called on what is
    left of the input after a match of at least [minLen r] code units. *)
Lemma run_consumes r :
  forall s k x, Re.run r s k = Some x ->
    exists pre s',
      s = pre ++ s' /\ k s' = Some x /\ (Re.minLen r <= length pre)%nat.
Proof.
  induction r as [|p|a IHa b IHb|a IHa b IHb|a IHa]; intros s k x H; simpl in H.
  - exists [], s. repeat split; [easy|simpl; lia].
  - destruct s as [|c s]; [discriminate|]. destruct (p c); [|discriminate].
    exists [c], s. repeat split; [easy|simpl; lia].
  - apply IHa in H. destruct H as (p1 & s1 & -> & H & L1).
    apply IHb in H. destruct H as (p2 & s2 & -> & H & L2).
    exists (p1 ++ p2), s2. rewrite <- app_assoc, length_app.
    repeat split; [easy|simpl; lia].
  - destruct (Re.run a s k) eqn:E.
    + injection H as ->. apply IHa in E. destruct E as (p1 & s1 & -> & E & L).
      exists p1, s1. repeat split; [easy|simpl; lia].
    + apply IHb in H. destruct H as (p1 & s1 & -> & H & L).
      exists p1, s1. repeat split; [easy|simpl; lia].
  - apply iterate_consumes in H.
    + destruct H as (p1 & s1 & -> & H). exists p1, s1.
      repeat split; [easy|simpl; lia].
    + intros s0 k' x0 H0. apply IHa in H0.
      destruct H0 as (p1 & s1 & -> & H0 & _). now exists p1, s1.
Qed.

Lemma prefix_consumes r s rest :
  Re.prefix r s = Some rest ->
  exists found, s = found ++ rest /\ (Re.minLen r <= length found)%nat.
Proof.
  unfold Re.prefix. intros H. apply run_consumes in H.
  destruct H as (pre & s' & -> & [= ->] & L). now exists pre.
Qed.

Lemma run_fails r s k : (forall s', k s' = None) -> Re.run r s k = None.
Proof.
  intros Hk. destruct (Re.run r s k) eqn:E; [|reflexivity].
  apply run_consumes in E. destruct E as (pre & s' & _ & E & _). congruence.
Qed.

Lemma iterate_ext m k1 k2 :
  (forall s ka kb, (forall s', ka s' = kb s') -> m s ka = m s kb) ->
  (forall s', k1 s' = k2 s') ->
  forall n s, Re.iterate m k1 n s = Re.iterate m k2 n s.
Proof.
  intros Hm Hk. induction n as [|n IH]; intros s; simpl; [apply Hk|].
  rewrite (Hm s _ (fun s' => if (length s' <? length s)%nat
                             then Re.iterate m k2 n s' else None)).
  - now rewrite Hk.
  - intros s'. destruct (length s' <? length s)%nat; [apply IH|reflexivity].
Qed.

Lemma run_ext r :
  forall s k1 k2, (forall s', k1 s' = k2 s') -> Re.run r s k1 = Re.run r s k2.
Proof.
  induction r as [|p|a IHa b IHb|a IHa b IHb|a IHa]; intros s k1 k2 Hk; simpl.
  - apply Hk.
  - destruct s as [|c s]; [reflexivity|]. now rewrite Hk.
  - apply IHa. intros s'. now apply IHb.
  - rewrite (IHa s k1 k2 Hk), (IHb s k1 k2 Hk). reflexivity.
  - apply iterate_ext; [|exact Hk]. intros s0 ka kb. apply IHa.
Qed.

(** The count of iterations never decides a match: any count of at least
    the length of the input gives the same result. *)
Lemma iterate_enough r k :
  forall n s, (length s <= n)%nat ->
    Re.iterate (Re.run r) k (S n) s = Re.iterate (Re.run r) k n s.
Proof.
  induction n as [|n IH]; intros s L.
  - destruct s; [|simpl in L; lia]. simpl.
    now rewrite run_fails.
  - change (Re.iterate (Re.run r) k (S (S n)) s)
      with (match Re.run r s (fun s' =>
                     if (length s' <? length s)%nat
                     then Re.iterate (Re.run r) k (S n) s' else None)
            with Some rest => Some rest | None => k s end).
    change (Re.iterate (Re.run r) k (S n) s)
      with (match Re.run r s (fun s' =>
                     if (length s' <? length s)%nat
                     then Re.iterate (Re.run r) k n s' else None)
            with Some rest => Some rest | None => k s end).
    rewrite (run_ext r s _
               (fun s' => if (length s' <? length s)%nat
                          then Re.iterate (Re.run r) k n s' else None));
      [reflexivity|].
    intros s'. destruct (length s' <? length s)%nat eqn:E; [|reflexivity].
    apply Nat.ltb_lt in E. apply IH. lia.
Qed.

(** The fuel of a global replacement never runs out. *)
Lemma replaceAll_from_enough r rep :
  forall fuel s, (length s < fuel)%nat ->
    Re.replaceAll_from fuel r rep s = Re.replaceAll r rep s.
Proof.
  assert (forall fuel s, (length s < fuel)%nat ->
            Re.replaceAll_from (S fuel) r rep s
            = Re.replaceAll_from fuel r rep s) as Hstep.
  { induction fuel as [|fuel IH]; intros s L; [lia|].
    change (Re.replaceAll_from (S (S fuel)) r rep s)
      with (match Re.prefix r s with
            | Some rest =>
                if (length rest <? length s)%nat
                then rep ++ Re.replaceAll_from (S fuel) r rep rest
                else match s with
                     | [] => rep
                     | c :: s' => rep ++ c :: Re.replaceAll_from (S fuel) r rep s'
                     end
            | None =>
                match s with
                | [] => []
                | c :: s' => c :: Re.replaceAll_from (S fuel) r rep s'
                end
            end).
    change (Re.replaceAll_from (S fuel) r rep s)
      with (match Re.prefix r s with
            | Some rest =>
                if (length rest <? length s)%nat
                then rep ++ Re.replaceAll_from fuel r rep rest
                else match s with
                     | [] => rep
                     | c :: s' => rep ++ c :: Re.replaceAll_from fuel r rep s'
                     end
            | None =>
                match s with
                | [] => []
                | c :: s' => c :: Re.replaceAll_from fuel r rep s'
                end
            end).
    destruct (Re.prefix r s) as [rest|].
    - destruct (length rest <? length s)%nat eqn:E.
      + apply Nat.ltb_lt in E. rewrite IH by lia. reflexivity.
      + destruct s as [|c s']; [reflexivity|].
        simpl in L. rewrite IH by lia. reflexivity.
    - destruct s as [|c s']; [reflexivity|].
      simpl in L. rewrite IH by lia. reflexivity. }
  intros fuel s L. unfold Re.replaceAll.
  induction fuel as [|fuel IH]; [lia|].
  destruct (Nat.eq_dec fuel (length s)) as [->|Hne]; [reflexivity|].
  rewrite Hstep by lia. apply IH. lia.
Qed.

Lemma prefix_split r s rest :
  Re.prefix r s = Some rest ->
  s = firstn (length s - length rest) s ++ rest.
Proof.
  intros H. apply prefix_consumes in H. destruct H as (f & -> & _).
  rewrite length_app, Nat.add_sub, firstn_app, Nat.sub_diag, firstn_all.
  simpl. now rewrite app_nil_r.
Qed.

Lemma search_unfold r s :
  Re.search r s
  = match Re.prefix r s with
    | Some rest => Some ([], firstn (length s - length rest) s, rest)
    | None =>
        match s with
        | [] => None
        | c :: s' =>
            match Re.search r s' with
            | Some (before, found, rest) => Some (c :: before, found, rest)
            | None => None
            end
        end
    end.
Proof. destruct s; reflexivity. Qed.

(** The leftmost match splits the input, and nothing matches further left. *)
Lemma search_found r :
  forall s before found rest,
    Re.search r s = Some (before, found, rest) ->
    s = before ++ found ++ rest /\ Re.prefix r (found ++ rest) = Some rest.
Proof.
  induction s as [|c s IH]; intros before found rest H;
    rewrite search_unfold in H;
    destruct (Re.prefix r _) as [rest'|] eqn:E.
  1, 3: injection H as <- <- <-;
    pose proof (prefix_split _ _ _ E) as Hs;
    split; [exact Hs|];
    refine (eq_ind _ (fun t => Re.prefix r t = Some rest') E _ Hs).
  - discriminate.
  - destruct (Re.search r s) as [[[b f] a]|] eqn:S; [|discriminate].
    injection H as <- <- <-. destruct (IH _ _ _ eq_refl) as (-> & P).
    now split.
Qed.

Lemma search_none r :
  forall s, Re.search r s = None ->
    forall before rest, s = before ++ rest -> Re.prefix r rest = None.
Proof.
  induction s as [|c s IH]; intros H before rest Hs; simpl in H.
  - destruct (Re.prefix r []) eqn:E; [discriminate|].
    symmetry in Hs. apply app_eq_nil in Hs. destruct Hs as (_ & ->). exact E.
  - destruct (Re.prefix r (c :: s)) eqn:E; [discriminate|].
    destruct before as [|x before]; simpl in Hs.
    + now subst rest.
    + injection Hs as _ Hs. apply (IH ltac:(now destruct (Re.search r s) as [[[? ?] ?]|]) before rest Hs).
Qed.

(** A literal under the [i] flag matches the texts that agree with it up
    to case. *)
Lemma run_lit_i (cs : list Z) :
  forall s rest,
    Re.run (Re.seq (map Re.chr_i cs)) s Some = Some rest
    <-> exists found,
          s = found ++ rest
          /\ map Re.canonicalize found = map Re.canonicalize cs.
Proof.
  induction cs as [|c cs IH]; intros s rest; simpl.
  - split.
    + intros [= ->]. now exists [].
    + intros (found & -> & E). apply map_eq_nil in E. now subst found.
  - destruct s as [|x s].
    + split; [discriminate|]. intros ([|y found] & Hs & E); discriminate.
    + destruct (Re.canonicalize x =? Re.canonicalize c) eqn:X.
      * apply Z.eqb_eq in X. rewrite IH. split.
        -- intros (found & -> & E). exists (x :: found). simpl.
           now rewrite X, E.
        -- intros ([|y found] & Hs & E); [discriminate|].
           injection Hs as <- ->. injection E as _ E. now exists found.
      * apply Z.eqb_neq in X. split; [discriminate|].
        intros ([|y found] & Hs & E); [discriminate|].
        injection Hs as <- ->. injection E as E _. contradiction.
Qed.

End Matching.

(** ** Titles *)

Section Titles.

Lemma markerPrefix_minLen : Re.minLen markerPrefix = 5%nat.
Proof. reflexivity. Qed.

(** A marker that is stripped takes at least the five letters with it. *)
Lemma normalizeTitle_strips (s rest : Js.str) :
  Re.prefix markerPrefix s = Some rest ->
  normalizeTitle s = Js.trim rest /\ (length rest + 5 <= length s)%nat.
Proof.
  intros H. split.
  - unfold normalizeTitle, Re.replaceAnchored. now rewrite H.
  - apply prefix_consumes in H. destruct H as (found & -> & L).
    rewrite markerPrefix_minLen in L. rewrite length_app. lia.
Qed.

Lemma normalizeTitle_keeps (s : Js.str) :
  Re.prefix markerPrefix s = None -> normalizeTitle s = Js.trim s.
Proof.
  intros H. unfold normalizeTitle, Re.replaceAnchored. now rewrite H.
Qed.

(** The claim of C3 as it is written fails: a second marker behind the
    first survives one normalisation and is stripped by the next. *)
Lemma normalizeTitle_not_idempotent :
  ~ (forall s : Js.str,
       normalizeTitle (normalizeTitle s) = normalizeTitle s).
Proof.
  intros H. specialize (H `"inbox inbox"). vm_compute in H. discriminate.
Qed.

(** C3, amended. Normalising twice gives the same as normalising once
    exactly when the normalised title does not itself start with a marker:
    the pattern strips one leading marker, not every one. *)
Theorem normalizeTitle_idempotent_iff (s : Js.str) :
  normalizeTitle (normalizeTitle s) = normalizeTitle s
  <-> Re.prefix markerPrefix (normalizeTitle s) = None.
Proof.
  split.
  - intros H. destruct (Re.prefix markerPrefix (normalizeTitle s)) as [rest|] eqn:E;
      [|reflexivity].
    apply normalizeTitle_strips in E. destruct E as (E & L).
    rewrite E in H. pose proof (trim_length rest) as T.
    rewrite H in T. lia.
  - intros H. rewrite (normalizeTitle_keeps _ H).
    unfold normalizeTitle. apply trim_fixed.
Qed.

Lemma normalizeTitle_idempotent_iff_witness :
  Re.prefix markerPrefix (normalizeTitle `"[INBOX] - Buy milk") = None
  /\ normalizeTitle (normalizeTitle `"[INBOX] - Buy milk")
     = normalizeTitle `"[INBOX] - Buy milk".
Proof.
  split; [reflexivity|].
  apply (proj2 (normalizeTitle_idempotent_iff `"[INBOX] - Buy milk")).
  reflexivity.
Defined.

(** The first version has the same pattern and the same behaviour. *)
Example V1_normalizeTitle_twice :
  V1.normalizeTitle `"INBOX: inbox - notes" = `"inbox - notes"
  /\ V1.normalizeTitle (V1.normalizeTitle `"INBOX: inbox - notes") = `"notes".
Proof. split; reflexivity. Qed.

Lemma buildTitle_fallback_nonempty (date : Js.str) : `"Inbox email " ++ date <> [].
Proof. discriminate. Qed.

(** C7. [buildTitle] never returns the empty string: it returns the
    normalised subject when that is not empty, and otherwise "Inbox email "
    followed by the first ten code units of the timestamp; the two examples
    of the unit test evaluate as the test expects. *)
Theorem buildTitle_spec (subject date : Js.str) :
  buildTitle subject date <> `""
  /\ (normalizeTitle subject <> `"" ->
      buildTitle subject date = normalizeTitle subject)
  /\ (normalizeTitle subject = `"" ->
      buildTitle subject date = `"Inbox email " ++ firstn 10 date)
  /\ buildTitle `"" `"2024-02-03T00:00:00.000Z" = `"Inbox email 2024-02-03"
  /\ buildTitle `"INBOX: Hello from unit test" date = `"Hello from unit test".
Proof.
  assert (forall n : Js.str, (Js.len n =? 0) = true <-> n = []) as Hlen.
  { intros [|c n]; unfold Js.len; simpl; split; easy. }
  split; [|split; [|split; [|split]]].
  - unfold buildTitle. destruct (Js.len (normalizeTitle subject) =? 0) eqn:E;
      simpl.
    + discriminate.
    + intros H. change `"" with (@nil Z) in H.
      apply Hlen in H. congruence.
  - intros H. unfold buildTitle.
    destruct (Js.len (normalizeTitle subject) =? 0) eqn:E; [|reflexivity].
    apply Hlen in E. contradiction.
  - intros H. unfold buildTitle. rewrite H. simpl negb. cbv iota.
    now rewrite slice_prefix by lia.
  - reflexivity.
  - reflexivity.
Qed.

Lemma buildTitle_spec_witness :
  normalizeTitle `"inbox - " = `""
  /\ buildTitle `"inbox - " `"2024-01-02T03:04:05.000Z"
     = `"Inbox email 2024-01-02"
  /\ normalizeTitle `"Inbox: call Ann" <> `""
  /\ buildTitle `"Inbox: call Ann" `"2024-01-02T03:04:05.000Z" = `"call Ann".
Proof.
  split; [reflexivity|]. split.
  - now apply (buildTitle_spec `"inbox - " `"2024-01-02T03:04:05.000Z").
  - split; [discriminate|].
    transitivity (normalizeTitle `"Inbox: call Ann"); [|reflexivity].
    apply (buildTitle_spec `"Inbox: call Ann" `"2024-01-02T03:04:05.000Z").
    discriminate.
Defined.

End Titles.

(** ** Body resolution *)

Section Bodies.

Lemma nonBlank_iff (x : option Js.str) : nonBlank x = true <-> NonBlank x.
Proof.
  unfold nonBlank, NonBlank. destruct x as [v|].
  - assert ((Js.len (Js.trim v) =? 0) = true <-> Js.trim v = []) as Hlen.
    { destruct (Js.trim v); unfold Js.len; simpl; split; easy. }
    rewrite andb_true_iff, negb_true_iff. split.
    + intros (_ & H). exists v. split; [reflexivity|].
      apply Exists_exists.
      destruct (forallb Js.isWhiteSpace v) eqn:F.
      * apply trim_nil_iff, Hlen in F. congruence.
      * apply not_true_iff_false in F.
        rewrite forallb_forall in F.
        destruct (Exists_dec (fun c => Js.isWhiteSpace c = false) v) as [E|E].
        { intros c. destruct (Js.isWhiteSpace c); [right|left]; easy. }
        { now apply Exists_exists. }
        { exfalso. apply F. intros c Hc.
          destruct (Js.isWhiteSpace c) eqn:W; [reflexivity|].
          exfalso. apply E. apply Exists_exists. now exists c. }
    + intros (v' & [= <-] & E). apply Exists_exists in E.
      destruct E as (c & Hc & W).
      assert (forallb Js.isWhiteSpace v = false) as F.
      { apply not_true_iff_false. intros F. rewrite forallb_forall in F.
        rewrite (F c Hc) in W. discriminate. }
      split.
      * destruct v; [destruct Hc|reflexivity].
      * apply not_true_iff_false. intros T. apply Hlen, trim_nil_iff in T.
        congruence.
  - split; [discriminate|]. intros (v & [=] & _).
Qed.

(** C4. [resolveMailText] is a total function, and the first of four cases
    that applies decides its result: non-blank plain text, trimmed, from
    "text"; else non-blank HTML, converted and trimmed, from "html"; else a
    non-blank raw fallback, trimmed, from "raw"; else the empty string, from
    "empty". *)
Theorem resolveMailText_policy (text html rawFallback : option Js.str) :
  (NonBlank text ->
     resolveMailText text html rawFallback
     = {| body_text := Js.trim (Js.the text); body_source := SrcText |})
  /\ (~ NonBlank text -> NonBlank html ->
     resolveMailText text html rawFallback
     = {| body_text := Js.trim (htmlToText (Js.the html));
          body_source := SrcHtml |})
  /\ (~ NonBlank text -> ~ NonBlank html -> NonBlank rawFallback ->
     resolveMailText text html rawFallback
     = {| body_text := Js.trim (Js.the rawFallback); body_source := SrcRaw |})
  /\ (~ NonBlank text -> ~ NonBlank html -> ~ NonBlank rawFallback ->
     resolveMailText text html rawFallback
     = {| body_text := `""; body_source := SrcEmpty |}).
Proof.
  unfold resolveMailText.
  pose proof (nonBlank_iff text) as Ht.
  pose proof (nonBlank_iff html) as Hh.
  pose proof (nonBlank_iff rawFallback) as Hr.
  destruct (nonBlank text), (nonBlank html), (nonBlank rawFallback);
    repeat split; intros; try reflexivity;
    repeat match goal with
           | H : ~ NonBlank ?x, I : true = true <-> NonBlank ?x |- _ =>
               exfalso; apply H, I; reflexivity
           | H : NonBlank ?x, I : false = true <-> NonBlank ?x |- _ =>
               apply I in H; discriminate
           end.
Qed.

Lemma resolveMailText_policy_witness :
  NonBlank (Some `"<p>html</p>")
  /\ ~ NonBlank (Some `"  ")
  /\ resolveMailText (Some `"  ") (Some `"<p>html</p>") (Some `"raw")
     = {| body_text := `"html"; body_source := SrcHtml |}.
Proof.
  assert (NonBlank (Some `"<p>html</p>")) as Hh.
  { apply nonBlank_iff. reflexivity. }
  assert (~ NonBlank (Some `"  ")) as Ht.
  { intros H. apply nonBlank_iff in H. discriminate. }
  split; [exact Hh|]. split; [exact Ht|].
  transitivity {| body_text := Js.trim (htmlToText (Js.the (Some `"<p>html</p>")));
                  body_source := SrcHtml |}; [|reflexivity].
  now apply (resolveMailText_policy (Some `"  ") (Some `"<p>html</p>")
               (Some `"raw")).
Defined.

(** The four calls of the unit test. *)
Example resolveMailText_examples :
  resolveMailText (Some `"plain") (Some `"<p>html</p>") (Some `"raw")
  = {| body_text := `"plain"; body_source := SrcText |}
  /\ resolveMailText (Some `"") (Some `"<p>html</p>") (Some `"raw")
     = {| body_text := `"html"; body_source := SrcHtml |}
  /\ resolveMailText (Some `"") (Some `"") (Some `"raw fallback")
     = {| body_text := `"raw fallback"; body_source := SrcRaw |}
  /\ resolveMailText (Some `"") (Some `"") (Some `"")
     = {| body_text := `""; body_source := SrcEmpty |}
  /\ resolveMailText None None None
     = {| body_text := `""; body_source := SrcEmpty |}.
Proof. repeat split; reflexivity. Qed.

End Bodies.

(** ** Truncation *)

Section Truncation.

Lemma truncateText_short (value : Js.str) (limit : Z) :
  Js.len value <= limit -> truncateText value limit = value.
Proof.
  intros H. unfold truncateText.
  destruct value as [|c v]; [reflexivity|]. simpl Js.truthy. simpl negb.
  destruct (Js.len (c :: v) >? limit) eqn:E; [|reflexivity].
  apply Z.gtb_lt in E. lia.
Qed.

Lemma truncateText_long (value : Js.str) (limit : Z) :
  0 <= limit -> limit < Js.len value ->
  truncateText value limit = firstn (Z.to_nat limit) value.
Proof.
  intros H0 H. unfold truncateText.
  destruct value as [|c v]; [unfold Js.len in H; simpl in H; lia|].
  simpl Js.truthy. simpl negb.
  destruct (Js.len (c :: v) >? limit) eqn:E.
  - now apply slice_prefix.
  - rewrite Z.gtb_ltb in E. apply Z.ltb_ge in E. lia.
Qed.

(** The claim of C8 as it is written, for every limit, fails: a negative
    limit is handed to [slice], which counts it from the end of the string,
    and what comes back is longer than the limit. *)
Lemma truncateText_exceeds_negative_limit :
  ~ (forall (value : Js.str) (limit : Z),
       Js.len (truncateText value limit) <= limit).
Proof.
  intros H. specialize (H `"abc" (-1)). vm_compute in H. apply H. reflexivity.
Qed.

(** C8, amended. For a limit that is not negative, [truncateText] never
    returns more than [limit] code units, returns its input unchanged when
    that already fits, and otherwise returns the first [limit] code
    units. *)
Theorem truncateText_spec (value : Js.str) (limit : Z) :
  0 <= limit ->
  Js.len (truncateText value limit) <= limit
  /\ (Js.len value <= limit -> truncateText value limit = value)
  /\ (limit < Js.len value ->
      truncateText value limit = firstn (Z.to_nat limit) value).
Proof.
  intros H0. split; [|split].
  - destruct (Z_le_gt_dec (Js.len value) limit) as [Hle|Hgt].
    + now rewrite truncateText_short.
    + rewrite truncateText_long by lia.
      unfold Js.len in *. rewrite length_firstn. lia.
  - apply truncateText_short.
  - now apply truncateText_long.
Qed.

Lemma truncateText_spec_witness :
  0 <= 3
  /\ truncateText `"hello" 3 = `"hel"
  /\ Js.len (truncateText `"hello" 3) <= 3.
Proof.
  split; [lia|]. split; [reflexivity|].
  apply (truncateText_spec `"hello" 3). lia.
Defined.

(** A negative limit is handed to [slice], which then counts from the
    end of the string. *)
Example truncateText_negative_limit : truncateText `"abc" (-1) = `"ab".
Proof. reflexivity. Qed.

End Truncation.

(** ** Chunking *)

Section Chunking.

(** Number of chunks still to be produced when the loop index is [i]. *)
Local Abbreviation remaining text limit i :=
  (Z.max 0 (ceilDiv (Js.len text - i) limit)).

Lemma remaining_done (text : Js.str) (limit i : Z) :
  1 <= limit -> Js.len text <= i -> remaining text limit i = 0.
Proof.
  intros Hl Hi. unfold ceilDiv.
  assert ((Js.len text - i + limit - 1) / limit < 1)
    by (apply Z.div_lt_upper_bound; lia).
  lia.
Qed.

Lemma remaining_step (text : Js.str) (limit i : Z) :
  1 <= limit -> i < Js.len text ->
  remaining text limit i = 1 + remaining text limit (i + limit).
Proof.
  intros Hl Hi. unfold ceilDiv.
  replace (Js.len text - i + limit - 1)
    with ((Js.len text - i - 1) + 1 * limit) by ring.
  rewrite Z.div_add by lia.
  replace (Js.len text - (i + limit) + limit - 1)
    with (Js.len text - i - 1) by ring.
  assert (0 <= (Js.len text - i - 1) / limit)
    by (apply Z.div_pos; lia).
  lia.
Qed.

Lemma slice_window (text : Js.str) (limit i : Z) :
  1 <= limit -> 0 <= i -> i <= Js.len text ->
  Js.slice text i (i + limit)
  = firstn (Z.to_nat limit) (skipn (Z.to_nat i) text).
Proof.
  intros Hl H0 Hi. unfold Js.slice, Js.relIndex.
  destruct (i <? 0) eqn:E1; [apply Z.ltb_lt in E1; lia|].
  destruct (i + limit <? 0) eqn:E2; [apply Z.ltb_lt in E2; lia|].
  rewrite (Z.min_l i) by lia.
  destruct (Z.min_spec (i + limit) (Js.len text)) as [[H1 ->]|[H1 ->]].
  - f_equal. f_equal. lia.
  - rewrite firstn_all2.
    + symmetry. apply firstn_all2. rewrite length_skipn.
      unfold Js.len in *. lia.
    + rewrite length_skipn. unfold Js.len in *. lia.
Qed.

Lemma slice_window_full (text : Js.str) (limit i : Z) :
  1 <= limit -> 0 <= i -> i + limit <= Js.len text ->
  Js.len (Js.slice text i (i + limit)) = limit.
Proof.
  intros Hl H0 Hi. rewrite slice_window by lia.
  unfold Js.len in *. rewrite length_firstn, length_skipn. lia.
Qed.

Lemma splitIntoChunks_loop_spec (fuel : nat) :
  forall (text : Js.str) (limit i : Z) (chunks : list Js.str),
    1 <= limit -> 0 <= i ->
    (Z.to_nat (remaining text limit i) < fuel)%nat ->
    exists rest,
      splitIntoChunks_loop fuel text limit i chunks = Some (chunks ++ rest)
      /\ Js.join rest = skipn (Z.to_nat i) text
      /\ Z.of_nat (length rest) = remaining text limit i
      /\ (forall k, (k < length rest)%nat ->
            nth k rest [] =
            Js.slice text (i + Z.of_nat k * limit)
                          (i + (Z.of_nat k + 1) * limit))
      /\ (forall k, (S k < length rest)%nat -> Js.len (nth k rest []) = limit).
Proof.
  induction fuel as [|fuel IH]; intros text limit i chunks Hl H0 Hf; [lia|].
  simpl. destruct (i <? Js.len text) eqn:E.
  - apply Z.ltb_lt in E.
    pose proof (remaining_step text limit i Hl E) as Hstep.
    assert (0 <= remaining text limit (i + limit)) as Hpos
      by lia.
    destruct (IH text limit (i + limit)
                (chunks ++ [Js.slice text i (i + limit)]) Hl)
      as (rest & Hrun & Hcat & Hlen & Hnth & Hfull); [lia|lia|].
    exists (Js.slice text i (i + limit) :: rest).
    split; [|split; [|split; [|split]]].
    + rewrite Hrun, <- app_assoc. reflexivity.
    + unfold Js.join in *. simpl. rewrite Hcat, slice_window by lia.
      replace (Z.to_nat (i + limit)) with (Z.to_nat limit + Z.to_nat i)%nat
        by lia.
      rewrite <- skipn_skipn. apply firstn_skipn.
    + cbn [length]. lia.
    + intros [|k] Hk.
      * cbn [nth]. f_equal; lia.
      * cbn [nth length] in *. rewrite Hnth by lia. f_equal; lia.
    + intros [|k] Hk.
      * cbn [nth length] in *. apply slice_window_full; try lia.
        destruct (Z_le_gt_dec (Js.len text) (i + limit)) as [Hge|Hlt]; [|lia].
        rewrite (remaining_done text limit (i + limit)) in Hlen by lia. lia.
      * cbn [nth length] in *. apply Hfull. lia.
  - apply Z.ltb_ge in E. exists []. rewrite app_nil_r.
    rewrite (remaining_done text limit i) by lia.
    split; [reflexivity|]. split; [|split; [reflexivity|split]].
    + unfold Js.join. simpl. symmetry. apply skipn_all2.
      unfold Js.len in E. lia.
    + intros k Hk. simpl in Hk. lia.
    + intros k Hk. simpl in Hk. lia.
Qed.

(** Fuel beyond the exit test changes nothing. *)
Lemma splitIntoChunks_loop_mono (fuel : nat) :
  forall text limit i chunks r,
    splitIntoChunks_loop fuel text limit i chunks = Some r ->
    forall fuel', (fuel <= fuel')%nat ->
      splitIntoChunks_loop fuel' text limit i chunks = Some r.
Proof.
  induction fuel as [|fuel IH]; intros text limit i chunks r H fuel' Hle;
    [discriminate|].
  destruct fuel' as [|fuel']; [lia|]. simpl in *.
  destruct (i <? Js.len text); [|exact H].
  apply (IH _ _ _ _ _ H). lia.
Qed.

(** With a limit that is not positive the index never reaches the end of
    a non-empty text: no amount of fuel lets the loop return. *)
Lemma splitIntoChunks_loop_diverges (fuel : nat) :
  forall text limit i chunks,
    limit <= 0 -> i < Js.len text ->
    splitIntoChunks_loop fuel text limit i chunks = None.
Proof.
  induction fuel as [|fuel IH]; intros text limit i chunks Hl Hi;
    [reflexivity|].
  simpl. destruct (i <? Js.len text) eqn:E.
  - apply IH; lia.
  - apply Z.ltb_ge in E. lia.
Qed.

Lemma splitIntoChunks_loop_det (f1 f2 : nat) text limit i chunks r1 r2 :
  splitIntoChunks_loop f1 text limit i chunks = Some r1 ->
  splitIntoChunks_loop f2 text limit i chunks = Some r2 ->
  r1 = r2.
Proof.
  intros H1 H2.
  pose proof (splitIntoChunks_loop_mono _ _ _ _ _ _ H1 (Nat.max f1 f2)
                (Nat.le_max_l f1 f2)) as M1.
  pose proof (splitIntoChunks_loop_mono _ _ _ _ _ _ H2 (Nat.max f1 f2)
                (Nat.le_max_r f1 f2)) as M2.
  congruence.
Qed.

Lemma remaining_le_length (text : Js.str) (limit : Z) :
  1 <= limit -> (Z.to_nat (remaining text limit 0) <= length text)%nat.
Proof.
  intros Hl. unfold ceilDiv. rewrite Z.sub_0_r.
  assert ((Js.len text + limit - 1) / limit < Js.len text + 1).
  { apply Z.div_lt_upper_bound; [lia|]. pose proof (len_nonneg text). nia. }
  unfold Js.len in *. lia.
Qed.

Lemma slice_window_length (text : Js.str) (limit i : Z) :
  1 <= limit -> 0 <= i -> Js.len (Js.slice text i (i + limit)) <= limit.
Proof.
  intros Hl H0. unfold Js.slice, Js.relIndex.
  destruct (i <? 0) eqn:E1; [apply Z.ltb_lt in E1; lia|].
  destruct (i + limit <? 0) eqn:E2; [apply Z.ltb_lt in E2; lia|].
  unfold Js.len at 1. rewrite length_firstn. lia.
Qed.

(** What [buildChildrenBlocks] needs of the chunker: with the fuel it
    gives, the loop ends, and no chunk is longer than the limit. *)
Lemma splitIntoChunks_bounded (text : Js.str) (limit : Z) :
  1 <= limit ->
  exists chunks,
    splitIntoChunks (S (length text)) text limit = Some chunks
    /\ Forall (fun chunk => Js.len chunk <= limit) chunks.
Proof.
  intros Hl. unfold splitIntoChunks.
  destruct text as [|c text]; [exists []; now split|]. simpl negb. cbv iota.
  set (t := c :: text).
  pose proof (remaining_le_length t limit Hl) as Hfuel.
  destruct (splitIntoChunks_loop_spec (S (length t)) t limit 0 [] Hl)
    as (chunks & Hrun & _ & _ & Hnth & _); [lia|lia|].
  exists chunks. split; [exact Hrun|].
  apply Forall_forall. intros chunk Hin.
  apply (In_nth _ _ []) in Hin. destruct Hin as (k & Hk & Hc).
  assert (chunk = Js.slice t (0 + Z.of_nat k * limit)
                    ((0 + Z.of_nat k * limit) + limit)) as ->.
  { rewrite <- Hc. etransitivity; [apply (Hnth k Hk)|]. f_equal. ring. }
  apply slice_window_length; nia.
Qed.

(** C5. For a positive limit the empty text gives no chunk, and the chunks
    of any text, joined, give the text back; chunk [k] is exactly the
    window [k*limit .. (k+1)*limit) of the text, so the chunks are
    consecutive, in order and do not overlap; every chunk but possibly the
    last has exactly [limit] code units. *)
Theorem splitIntoChunks_partition (text : Js.str) (limit : Z) :
  1 <= limit ->
  (forall fuel, splitIntoChunks fuel `"" limit = Some [])
  /\ exists chunks,
      (forall fuel, (length text < fuel)%nat ->
         splitIntoChunks fuel text limit = Some chunks)
      /\ (forall fuel r, splitIntoChunks fuel text limit = Some r -> r = chunks)
      /\ Js.join chunks = text
      /\ (forall k, (k < length chunks)%nat ->
            nth k chunks [] =
            Js.slice text (Z.of_nat k * limit) ((Z.of_nat k + 1) * limit))
      /\ (forall k, (S k < length chunks)%nat ->
            Js.len (nth k chunks []) = limit).
Proof.
  intros Hl. split; [reflexivity|].
  destruct text as [|c text].
  { exists []. repeat split; simpl; intros; try lia.
    unfold splitIntoChunks in H. simpl in H. congruence. }
  set (t := c :: text).
  pose proof (remaining_le_length t limit Hl) as Hfuel.
  destruct (splitIntoChunks_loop_spec (S (length t)) t limit 0 [] Hl)
    as (chunks & Hrun & Hcat & _ & Hnth & Hfull); [lia|lia|].
  simpl app in Hrun. exists chunks.
  split; [|split; [|split; [|split]]].
  - intros fuel Hf. unfold splitIntoChunks. simpl.
    destruct (splitIntoChunks_loop_spec fuel t limit 0 [] Hl)
      as (chunks' & Hrun' & _); [lia|lia|].
    rewrite Hrun'. f_equal. simpl.
    exact (splitIntoChunks_loop_det _ _ _ _ _ _ _ _ Hrun' Hrun).
  - intros fuel r Hr. unfold splitIntoChunks in Hr. simpl in Hr.
    exact (splitIntoChunks_loop_det _ _ _ _ _ _ _ _ Hr Hrun).
  - exact Hcat.
  - intros k Hk. rewrite (Hnth k Hk). f_equal; lia.
  - exact Hfull.
Qed.

Lemma splitIntoChunks_partition_witness :
  1 <= 2
  /\ splitIntoChunks 6 `"abcde" 2 = Some [`"ab"; `"cd"; `"e"]
  /\ exists chunks,
      (forall fuel, (length `"abcde" < fuel)%nat ->
         splitIntoChunks fuel `"abcde" 2 = Some chunks)
      /\ Js.join chunks = `"abcde".
Proof.
  split; [lia|]. split; [reflexivity|].
  destruct (splitIntoChunks_partition `"abcde" 2) as (_ & chunks & H & _ & J & _);
    [lia|].
  exists chunks. split; assumption.
Defined.

(** [ceilDiv] is the ceiling of the quotient: the least count of chunks of
    [d] code units that cover [n]. *)
Lemma ceilDiv_ceiling (n d : Z) :
  1 <= d -> 0 <= n -> n <= ceilDiv n d * d < n + d.
Proof.
  intros Hd Hn. unfold ceilDiv.
  pose proof (Z.div_mod (n + d - 1) d ltac:(lia)) as E.
  pose proof (Z.mod_pos_bound (n + d - 1) d ltac:(lia)) as B.
  nia.
Qed.

(** C10. For a limit of at least one the loop reaches its exit test: any
    fuel above the number of chunks lets [splitIntoChunks] return, and the
    list it returns has [ceil (length text / limit)] chunks, the least
    count whose chunks cover the text, none for the empty text. *)
Theorem splitIntoChunks_terminates (text : Js.str) (limit : Z) :
  1 <= limit ->
  exists chunks,
    (forall fuel, (Z.to_nat (ceilDiv (Js.len text) limit) < fuel)%nat ->
       splitIntoChunks fuel text limit = Some chunks)
    /\ Z.of_nat (length chunks) = ceilDiv (Js.len text) limit
    /\ Js.len text <= Z.of_nat (length chunks) * limit < Js.len text + limit
    /\ (text = [] -> chunks = []).
Proof.
  intros Hl.
  assert (forall chunks : list Js.str,
            Z.of_nat (length chunks) = ceilDiv (Js.len text) limit ->
            Js.len text <= Z.of_nat (length chunks) * limit
                        < Js.len text + limit) as Hceil.
  { intros chunks ->. apply ceilDiv_ceiling; [lia|apply len_nonneg]. }
  destruct text as [|c text].
  { exists []. assert (ceilDiv (Js.len []) limit = 0) as Z0.
    { unfold ceilDiv. simpl. apply Z.div_small. lia. }
    split; [reflexivity|]. split; [now rewrite Z0|].
    split; [apply Hceil; now rewrite Z0|reflexivity]. }
  set (t := c :: text) in *.
  assert (0 <= ceilDiv (Js.len t) limit) as Hpos.
  { unfold ceilDiv. apply Z.div_pos; [|lia]. pose proof (len_nonneg t). lia. }
  assert (remaining t limit 0 = ceilDiv (Js.len t) limit) as Hrem
    by (rewrite Z.sub_0_r; lia).
  destruct (splitIntoChunks_loop_spec
              (S (Z.to_nat (ceilDiv (Js.len t) limit))) t limit 0 [] Hl)
    as (chunks & Hrun & _ & Hlen & _); [lia|lia|].
  simpl app in Hrun. exists chunks. split; [|split; [|split]].
  - intros fuel Hf. unfold splitIntoChunks. simpl.
    apply (splitIntoChunks_loop_mono _ _ _ _ _ _ Hrun). lia.
  - lia.
  - apply Hceil. lia.
  - discriminate.
Qed.

Lemma splitIntoChunks_terminates_witness :
  1 <= 1500
  /\ exists chunks,
      splitIntoChunks 3 (repeat 97 1501) 1500 = Some chunks
      /\ length chunks = 2%nat.
Proof.
  split; [lia|].
  destruct (splitIntoChunks_terminates (repeat 97 1501) 1500)
    as (chunks & H & L & _);
    [lia|].
  exists chunks. split.
  - apply H. vm_compute. lia.
  - apply Nat2Z.inj. rewrite L. vm_compute. reflexivity.
Defined.

(** The precondition is needed: with limit 0 the loop of the source never
    leaves a non-empty text. *)
Lemma splitIntoChunks_zero_limit_diverges (fuel : nat) :
  splitIntoChunks fuel `"a" 0 = None.
Proof.
  unfold splitIntoChunks. simpl negb. cbv iota.
  apply splitIntoChunks_loop_diverges; [lia|reflexivity].
Qed.

End Chunking.

(** ** Fingerprints *)

Section Fingerprints.

Local Abbreviation isByte b := (0 <= b < 256).

Lemma be_bytes (width : nat) (x : Z) : Forall (fun b => isByte b) (Sha256.be width x).
Proof.
  unfold Sha256.be. apply Forall_forall. intros b Hb.
  apply in_map_iff in Hb. destruct Hb as (i & <- & _).
  apply Z.mod_pos_bound. lia.
Qed.

Lemma digest_bytes (msg : list Z) :
  length (Sha256.digest msg) = 32%nat
  /\ Forall (fun b => isByte b) (Sha256.digest msg).
Proof.
  unfold Sha256.digest. generalize (Sha256.hash msg). intros s. split.
  - reflexivity.
  - apply Forall_forall. intros b Hb. apply in_flat_map in Hb.
    destruct Hb as (w & _ & Hb).
    pose proof (be_bytes 4 w) as F. rewrite Forall_forall in F. now apply F.
Qed.

Lemma hexDigit_lower (d : Z) : 0 <= d < 16 -> isLowerHex (hexDigit d) = true.
Proof.
  intros H. unfold isLowerHex, hexDigit.
  destruct (d <? 10) eqn:E; [apply Z.ltb_lt in E|apply Z.ltb_ge in E].
  - apply orb_true_iff. left. apply andb_true_iff. split; apply Z.leb_le; lia.
  - apply orb_true_iff. right. apply andb_true_iff. split; apply Z.leb_le; lia.
Qed.

(** A byte prints as exactly two lower-case hexadecimal digits. *)
Lemma byte_hex (b : Z) :
  isByte b ->
  length (padStart0 (toString16 b) 2) = 2%nat
  /\ forallb isLowerHex (padStart0 (toString16 b) 2) = true.
Proof.
  intros H. unfold toString16, padStart0.
  destruct (b <? 16) eqn:E; [apply Z.ltb_lt in E|apply Z.ltb_ge in E].
  - split; [reflexivity|]. cbn [length Nat.sub repeat app forallb].
    rewrite hexDigit_lower by lia. reflexivity.
  - split; [reflexivity|]. cbn [length Nat.sub repeat app forallb].
    rewrite !hexDigit_lower; [reflexivity| |].
    + apply Z.mod_pos_bound. lia.
    + split; [apply Z.div_pos; lia|apply Z.div_lt_upper_bound; lia].
Qed.

Lemma hex_of_bytes (bytes : list Z) :
  Forall (fun b => isByte b) bytes ->
  length (Js.join (map (fun byte => padStart0 (toString16 byte) 2) bytes))
  = (2 * length bytes)%nat
  /\ forallb isLowerHex
       (Js.join (map (fun byte => padStart0 (toString16 byte) 2) bytes))
     = true.
Proof.
  unfold Js.join. induction 1 as [|b bytes Hb _ [IHl IHh]]; [now split|].
  destruct (byte_hex b Hb) as [L H]. cbn [map concat length].
  rewrite length_app, forallb_app, L, H, IHl, IHh. split; [lia|reflexivity].
Qed.

(** [sha256Hex] always gives 64 lower-case hexadecimal digits. *)
Lemma sha256Hex_shape (value : Js.str) :
  Js.len (sha256Hex value) = 64
  /\ forallb isLowerHex (sha256Hex value) = true.
Proof.
  unfold sha256Hex.
  destruct (digest_bytes (Utf8.encode value)) as [L B].
  destruct (hex_of_bytes _ B) as [L' H']. split; [|exact H'].
  unfold Js.len. rewrite L', L. reflexivity.
Qed.

Example sha256_constants :
  length Sha256.K = 64%nat
  /\ nth 0 Sha256.K 0 = 0x428a2f98 /\ nth 63 Sha256.K 0 = 0xc67178f2
  /\ Sha256.va Sha256.initial = 0x6a09e667
  /\ Sha256.vh Sha256.initial = 0x5be0cd19.
Proof. repeat split. Qed.

(** The digests FIPS 180-4 gives for the empty message and for "abc". *)
Example sha256Hex_vectors :
  sha256Hex `""
  = `"e3b0c44298fc1c149afbf4c8996fb92427ae41e4649b934ca495991b7852b855"
  /\ sha256Hex `"abc"
     = `"ba7816bf8f01cfea414140de5dae2223b00361a396177a9cb410ff61f20015ad".
Proof. split; vm_compute; reflexivity. Qed.

(** *** The digest of the standard *)

Local Abbreviation variables s :=
  [Sha256.va s; Sha256.vb s; Sha256.vc s; Sha256.vd s;
   Sha256.ve s; Sha256.vf s; Sha256.vg s; Sha256.vh s].

Lemma constants_standard : Sha256.K = Fips180.K /\ Sha256.H0 = Fips180.H0.
Proof. split; vm_compute; reflexivity. Qed.

(** Sums of words: the additions modulo 2^32, one after the other, are
    the sum modulo 2^32. *)
Lemma add_sum4 (a b c d : Z) :
  Sha256.add (Sha256.add (Sha256.add a b) c) d
  = (a + b + c + d) mod 2 ^ Fips180.w.
Proof.
  change (2 ^ Fips180.w) with Sha256.modulus. unfold Sha256.add.
  rewrite (Z.add_mod_idemp_l (a + b) c) by discriminate.
  now rewrite (Z.add_mod_idemp_l (a + b + c) d) by discriminate.
Qed.

Lemma add_sum5 (a b c d e : Z) :
  Sha256.add (Sha256.add (Sha256.add (Sha256.add a b) c) d) e
  = (a + b + c + d + e) mod 2 ^ Fips180.w.
Proof.
  rewrite (add_sum4 a b c d). change (2 ^ Fips180.w) with Sha256.modulus.
  unfold Sha256.add.
  now rewrite (Z.add_mod_idemp_l (a + b + c + d) e) by discriminate.
Qed.

(** Padding. *)
Lemma zeroBits_bytes (n : Z) :
  (Fips180.zeroBits (8 * n) - 7) / 8 = (55 - n) mod 64.
Proof.
  pose proof (Z.mod_pos_bound n 64 ltac:(lia)) as B.
  assert (Fips180.zeroBits (8 * n) = Fips180.zeroBits (8 * (n mod 64))) as ->.
  { unfold Fips180.zeroBits. f_equal. apply filter_ext. intros k. f_equal.
    rewrite (Z.div_mod n 64) at 1 by lia.
    replace (8 * (64 * (n / 64) + n mod 64) + 1 + k)
      with (8 * (n mod 64) + 1 + k + (n / 64) * 512) by ring.
    apply Z.mod_add. discriminate. }
  rewrite <- (Zminus_mod_idemp_r 55 n).
  assert (forallb (fun r => (Fips180.zeroBits (8 * r) - 7) / 8 =? (55 - r) mod 64)
            (map Z.of_nat (List.seq 0 64)) = true) as T
    by (vm_compute; reflexivity).
  rewrite forallb_forall in T. apply Z.eqb_eq. apply T.
  apply in_map_iff. exists (Z.to_nat (n mod 64)). split; [lia|].
  apply in_seq. lia.
Qed.

Lemma be_bigEndian (x : Z) :
  Sha256.be 4 x = Fips180.bigEndian 4 x /\ Sha256.be 8 x = Fips180.bigEndian 8 x.
Proof.
  unfold Sha256.be, Fips180.bigEndian. cbn [List.seq rev app map Nat.sub].
  split; repeat (f_equal; try (rewrite Z.shiftr_div_pow2 by lia; reflexivity)).
Qed.

Lemma pad_standard (message : list Z) :
  Sha256.pad message = Fips180.padded message.
Proof.
  unfold Sha256.pad, Fips180.padded. cbv zeta.
  now rewrite zeroBits_bytes, (proj2 (be_bigEndian _)).
Qed.

Lemma pad_length (message : list Z) :
  exists N, length (Sha256.pad message) = (64 * N)%nat.
Proof.
  unfold Sha256.pad. cbv zeta. rewrite !length_app, repeat_length.
  cbn [length]. unfold Sha256.be. rewrite length_map, length_rev, length_seq.
  set (n := Z.of_nat (length message)).
  pose proof (Z.mod_pos_bound (55 - n) 64 ltac:(lia)) as B.
  exists (Z.to_nat ((n + 1 + (55 - n) mod 64 + 8) / 64)).
  assert ((n + 1 + (55 - n) mod 64 + 8) mod 64 = 0) as D.
  { rewrite <- Z.add_assoc, (Z.add_comm _ 8), Z.add_assoc.
    rewrite Z.add_mod, Z.mod_mod by lia. rewrite <- Z.add_mod by lia.
    replace (n + 1 + 8 + (55 - n)) with (1 * 64) by ring.
    apply Z.mod_mul. lia. }
  pose proof (Z.div_mod (n + 1 + (55 - n) mod 64 + 8) 64 ltac:(lia)) as E.
  assert (0 <= (n + 1 + (55 - n) mod 64 + 8) / 64) by (apply Z.div_pos; lia).
  lia.
Qed.

(** Parsing. *)
Lemma words_nth (n : nat) :
  forall bytes, (4 * n + 4 <= length bytes)%nat ->
    nth n (Sha256.words bytes) 0 = Fips180.word bytes n.
Proof.
  induction n as [|n IH]; intros bytes H;
    destruct bytes as [|b0 [|b1 [|b2 [|b3 rest]]]]; simpl in H; try lia.
  - unfold Fips180.word.
    cbn [Nat.mul Nat.add skipn firstn fold_left Sha256.words nth]. ring.
  - cbn [Sha256.words nth]. rewrite IH by lia. unfold Fips180.word.
    replace (4 * S n)%nat with (S (S (S (S (4 * n))))) by lia. reflexivity.
Qed.

Lemma words_length (n : nat) :
  forall bytes, (length bytes <= n)%nat ->
    length (Sha256.words bytes) = (length bytes / 4)%nat.
Proof.
  induction n as [|n IH]; intros bytes H;
    destruct bytes as [|b0 [|b1 [|b2 [|b3 rest]]]]; try reflexivity;
    simpl in H; try lia.
  cbn [Sha256.words length]. rewrite IH by lia.
  change (S (S (S (S (length rest))))) with (1 * 4 + length rest)%nat.
  now rewrite Nat.div_add_l.
Qed.

Lemma window_nth (m k : nat) (l : list Z) :
  (k + m <= length l)%nat ->
  firstn m (skipn k l) = map (fun j => nth (k + j) l 0) (List.seq 0 m).
Proof.
  intros H. apply (nth_ext _ _ 0 0).
  - rewrite length_firstn, length_skipn, length_map, length_seq. lia.
  - intros j Hj. rewrite length_firstn, length_skipn in Hj.
    rewrite nth_firstn, nth_skipn.
    destruct (j <? m)%nat eqn:E; [|apply Nat.ltb_ge in E; lia].
    rewrite (nth_indep (map (fun j => nth (k + j) l 0) (List.seq 0 m)) 0
               ((fun j => nth (k + j) l 0) 0%nat))
      by (rewrite length_map, length_seq; lia).
    rewrite (map_nth (fun j => nth (k + j) l 0)), seq_nth by lia. reflexivity.
Qed.

Lemma blocks_windows (N : nat) :
  forall (ws : list Z) (fuel : nat),
    length ws = (16 * N)%nat -> (N <= fuel)%nat ->
    Sha256.blocks fuel ws
    = map (fun i => firstn 16 (skipn (16 * i) ws)) (List.seq 0 N).
Proof.
  induction N as [|N IH]; intros ws fuel L F.
  - destruct ws; [|discriminate]. now destruct fuel.
  - destruct fuel as [|fuel]; [lia|].
    destruct ws as [|x ws']; [discriminate|].
    cbn [Sha256.blocks].
    rewrite (IH (skipn 16 (x :: ws')) fuel) by (rewrite ?length_skipn; lia).
    cbn [List.seq map]. rewrite <- seq_shift, map_map. f_equal.
    apply map_ext. intros i. rewrite skipn_skipn. do 2 f_equal. lia.
Qed.

Lemma blocks_standard (bytes : list Z) (N : nat) :
  length bytes = (64 * N)%nat ->
  Sha256.blocks (length (Sha256.words bytes)) (Sha256.words bytes)
  = map (Fips180.block bytes) (List.seq 0 N).
Proof.
  intros L.
  assert (length (Sha256.words bytes) = (16 * N)%nat) as Lw.
  { rewrite (words_length (length bytes)) by lia. rewrite L.
    replace (64 * N)%nat with ((16 * N) * 4)%nat by lia.
    now rewrite Nat.div_mul. }
  rewrite (blocks_windows N) by lia.
  apply map_ext_in. intros i Hi. apply in_seq in Hi.
  rewrite window_nth by lia. unfold Fips180.block.
  apply map_ext_in. intros j Hj. apply in_seq in Hj.
  apply words_nth. lia.
Qed.

(** The message schedule. *)
Lemma schedule_length (M : list Z) (t : nat) :
  length (Fips180.schedule M t) = t.
Proof.
  induction t as [|t IH]; [reflexivity|].
  cbn [Fips180.schedule]. cbv zeta. rewrite length_app, IH. simpl. lia.
Qed.

Lemma schedule_start (M : list Z) (t : nat) :
  (t <= 16)%nat -> (t <= length M)%nat -> Fips180.schedule M t = firstn t M.
Proof.
  induction t as [|t IH]; intros H L; [reflexivity|].
  cbn [Fips180.schedule]. cbv zeta. rewrite IH by lia.
  destruct (t <? 16)%nat eqn:E; [|apply Nat.ltb_ge in E; lia].
  apply (nth_ext _ _ 0 0).
  - rewrite length_app, !length_firstn. cbn [length]. lia.
  - intros j Hj. rewrite length_app, length_firstn in Hj. cbn [length] in Hj.
    rewrite nth_firstn.
    destruct (j <? S t)%nat eqn:J; [|apply Nat.ltb_ge in J; lia].
    destruct (Nat.eq_dec j t) as [->|Nj].
    + rewrite app_nth2 by (rewrite length_firstn; lia).
      rewrite length_firstn.
      replace (t - Nat.min t (length M))%nat with 0%nat by lia. reflexivity.
    + rewrite app_nth1 by (rewrite length_firstn; lia).
      rewrite nth_firstn.
      destruct (j <? t)%nat eqn:J'; [reflexivity|apply Nat.ltb_ge in J'; lia].
Qed.

Lemma extend_standard (M : list Z) (n : nat) :
  forall t, (16 <= t)%nat ->
    Sha256.extend n (Fips180.schedule M t) = Fips180.schedule M (t + n).
Proof.
  induction n as [|n IH]; intros t H.
  - now rewrite Nat.add_0_r.
  - cbn [Sha256.extend]. cbv zeta. rewrite schedule_length.
    replace (t + S n)%nat with (S t + n)%nat by lia.
    rewrite <- (IH (S t)) by lia. f_equal.
    cbn [Fips180.schedule]. cbv zeta.
    destruct (t <? 16)%nat eqn:E; [apply Nat.ltb_lt in E; lia|].
    now rewrite add_sum4.
Qed.

Lemma schedule_standard (M : list Z) :
  length M = 16%nat -> Sha256.schedule M = Fips180.schedule M 64.
Proof.
  intros L. unfold Sha256.schedule.
  assert (M = Fips180.schedule M 16) as E.
  { rewrite schedule_start by lia. rewrite <- L. symmetry. apply firstn_all. }
  transitivity (Sha256.extend 48 (Fips180.schedule M 16));
    [f_equal; exact E|].
  apply (extend_standard M 48 16). lia.
Qed.

(** The rounds. *)
Lemma round_standard (s : Sha256.state) (Kt Wt : Z) :
  variables (Sha256.round s (Kt, Wt)) = Fips180.step (variables s) Kt Wt.
Proof.
  destruct s as [a b c d e f g h]. unfold Sha256.round, Fips180.step.
  cbn [Sha256.va Sha256.vb Sha256.vc Sha256.vd Sha256.ve Sha256.vf Sha256.vg
       Sha256.vh fst snd].
  rewrite (add_sum5 h (Sha256.Sigma1 e) (Sha256.Ch e f g) Kt Wt).
  reflexivity.
Qed.

Lemma rounds_standard (W : list Z) (s : Sha256.state) (t : nat) :
  length W = 64%nat -> (t <= 64)%nat ->
  variables (fold_left Sha256.round (firstn t (combine Sha256.K W)) s)
  = Fips180.rounds W t (variables s).
Proof.
  intros L. induction t as [|t IH]; intros H; [reflexivity|].
  assert (length (combine Sha256.K W) = 64%nat) as Lc
    by (rewrite length_combine, L; reflexivity).
  assert (firstn (S t) (combine Sha256.K W)
          = firstn t (combine Sha256.K W)
            ++ [(nth t Fips180.K 0, nth t W 0)]) as ->.
  { rewrite <- (proj1 constants_standard).
    rewrite <- (combine_nth Sha256.K W t 0 0) by (rewrite L; reflexivity).
    rewrite <- (firstn_skipn t (combine Sha256.K W)) at 1.
    rewrite firstn_app, firstn_firstn, length_firstn.
    replace (Nat.min (S t) t) with t by lia.
    replace (S t - Nat.min t (length (combine Sha256.K W)))%nat with 1%nat
      by lia.
    f_equal.
    destruct (skipn t (combine Sha256.K W)) as [|x rest] eqn:E.
    - pose proof (length_skipn t (combine Sha256.K W)) as Ls.
      rewrite E, Lc in Ls. cbn [length] in Ls. lia.
    - cbn [firstn]. f_equal.
      rewrite <- (Nat.add_0_r t), <- nth_skipn, E. reflexivity. }
  rewrite fold_left_app. cbn [fold_left Fips180.rounds].
  rewrite round_standard, IH by lia. reflexivity.
Qed.

Lemma compress_standard (H : Sha256.state) (M : list Z) :
  length M = 16%nat ->
  variables (Sha256.compress H M) = Fips180.next (variables H) M.
Proof.
  intros L. unfold Sha256.compress, Fips180.next. cbv zeta.
  rewrite schedule_standard by exact L.
  rewrite <- (rounds_standard _ H 64) by (rewrite ?schedule_length; lia).
  rewrite firstn_all2
    by (rewrite length_combine, schedule_length; vm_compute; lia).
  set (s := fold_left Sha256.round _ H).
  cbn [combine map fst snd Sha256.va Sha256.vb Sha256.vc Sha256.vd Sha256.ve
       Sha256.vf Sha256.vg Sha256.vh].
  change (2 ^ Fips180.w) with Sha256.modulus. unfold Sha256.add.
  now rewrite (Z.add_comm (Sha256.va H)), (Z.add_comm (Sha256.vb H)),
    (Z.add_comm (Sha256.vc H)), (Z.add_comm (Sha256.vd H)),
    (Z.add_comm (Sha256.ve H)), (Z.add_comm (Sha256.vf H)),
    (Z.add_comm (Sha256.vg H)), (Z.add_comm (Sha256.vh H)).
Qed.

Lemma hash_standard (bytes : list Z) (n : nat) :
  variables (fold_left Sha256.compress
               (map (Fips180.block bytes) (List.seq 0 n)) Sha256.initial)
  = Fips180.hashValue bytes n.
Proof.
  induction n as [|n IH]; [vm_compute; reflexivity|].
  rewrite seq_S, map_app, fold_left_app. cbn [map fold_left Fips180.hashValue].
  rewrite compress_standard, IH; [reflexivity|].
  unfold Fips180.block. now rewrite length_map, length_seq.
Qed.

(** The digest the worker computes is the digest of the standard. *)
Lemma digest_standard (message : list Z) :
  Sha256.digest message = Fips180.sha256 message.
Proof.
  unfold Sha256.digest, Sha256.hash, Fips180.sha256. cbv zeta.
  destruct (pad_length message) as (N & L).
  rewrite (blocks_standard _ N L), <- pad_standard, L.
  replace (64 * N / 64)%nat with N
    by (rewrite Nat.mul_comm, Nat.div_mul; [reflexivity|discriminate]).
  rewrite <- hash_standard.
  set (s := fold_left Sha256.compress _ _).
  cbn [flat_map]. now rewrite !(proj1 (be_bigEndian _)).
Qed.

Lemma hexDigit_standard (d : Z) :
  0 <= d < 16 -> hexDigit d = nth (Z.to_nat d) `"0123456789abcdef" 0.
Proof.
  intros H.
  assert (exists n, (n < 16)%nat /\ d = Z.of_nat n) as (n & Hn & ->)
    by (exists (Z.to_nat d); lia).
  rewrite Nat2Z.id. do 16 (destruct n as [|n]; [reflexivity|]). lia.
Qed.

Lemma hexPair_standard (b : Z) :
  isByte b -> padStart0 (toString16 b) 2 = hexPair b.
Proof.
  intros H. unfold toString16, padStart0, hexPair.
  destruct (b <? 16) eqn:E; [apply Z.ltb_lt in E|apply Z.ltb_ge in E];
    cbn [length Nat.sub repeat app].
  - rewrite Z.div_small, Z.mod_small by lia.
    now rewrite hexDigit_standard by lia.
  - rewrite !hexDigit_standard; [reflexivity| |].
    + apply Z.mod_pos_bound. lia.
    + split; [apply Z.div_pos; lia|apply Z.div_lt_upper_bound; lia].
Qed.

(** What [sha256Hex] computes is SHA256Hex: the digest of the standard,
    two lower-case hexadecimal digits a byte. *)
Lemma sha256Hex_standard (value : Js.str) : sha256Hex value = SHA256Hex value.
Proof.
  unfold sha256Hex, SHA256Hex. cbv zeta.
  rewrite <- digest_standard, flat_map_concat_map. unfold Js.join. f_equal.
  destruct (digest_bytes (Utf8.encode value)) as [_ B].
  rewrite Forall_forall in B. apply map_ext_in. intros b Hb.
  apply hexPair_standard. now apply B.
Qed.

(** C6. The fingerprint is SHA256Hex, the SHA-256 digest of FIPS 180-4 in
    lower-case hexadecimal, of
    "<from or empty>|<subject>|<date>|<SHA256Hex of the body>",
    and it is always 64 lower-case hexadecimal digits, whatever is empty.
    The hash the worker computes gives the digests that are known: of the
    empty text, of "abc" and of the message of two blocks of the
    standard, of a text of four blocks, and of texts outside ASCII, with
    a surrogate pair, with surrogates that stand alone, and with the
    first and last code points of each length in UTF-8; so does the
    fingerprint, with everything empty and with nothing empty. *)
Theorem buildFingerprint_spec (input : FingerprintInput) :
  buildFingerprint input
  = SHA256Hex
      (Js.orElse (fp_from input) `"" ++ `"|" ++ fp_subject input ++ `"|"
         ++ fp_date input ++ `"|" ++ SHA256Hex (fp_body input))
  /\ Js.len (buildFingerprint input) = 64
  /\ forallb isLowerHex (buildFingerprint input) = true
  /\ sha256Hex `""
     = `"e3b0c44298fc1c149afbf4c8996fb92427ae41e4649b934ca495991b7852b855"
  /\ sha256Hex `"abc"
     = `"ba7816bf8f01cfea414140de5dae2223b00361a396177a9cb410ff61f20015ad"
  /\ sha256Hex `"abcdbcdecdefdefgefghfghighijhijkijkljklmklmnlmnomnopnopq"
     = `"248d6a61d20638b8e5c026930c3e6039a33ce45964ff2167f6ecedd419db06c1"
  /\ sha256Hex (repeat 97 200)
     = `"c2a908d98f5df987ade41b5fce213067efbcc21ef2240212a41e54b5e7c28ae5"
  /\ sha256Hex [233; 8364; 55357; 56832]
     = `"df9226927fd572c1ee66eec85de1bb139497614899f36e4e90474cb71f6ef9d0"
  /\ sha256Hex [120; 55296; 121]
     = `"0b37743370331e33808c0dd0167563798a3c324504cf0055d2b0ac81578d2c58"
  /\ sha256Hex [56832; 55357]
     = `"52793f8dc1d85e409f8c88be99d8b31d58f676246340150f406289e04a11151e"
  /\ sha256Hex [127; 128; 2047; 2048; 65535; 55296; 56320; 56319; 57343]
     = `"ebb743f6088e6033eedda08cd0c0e3827169bcd8d01124b943d43ee33685966b"
  /\ buildFingerprint
       {| fp_from := None; fp_subject := `"";
          fp_date := `"2024-01-02T00:00:00.000Z"; fp_body := `"" |}
     = `"86dd31866fd94aa2fefb56166c921f11b96763c8bc1a7c331f3eb9075a52422f"
  /\ buildFingerprint
       {| fp_from := Some `"ann@example.com"; fp_subject := `"Hello";
          fp_date := `"2024-01-02T00:00:00.000Z";
          fp_body := `"See you at noon." |}
     = `"97b40fba0e8d7335734695854997af2a656cdfa59203df11d7834a57b983a5ff".
Proof.
  split; [|split; [|split]].
  - unfold buildFingerprint, fingerprintMaterial. cbv zeta.
    now rewrite !sha256Hex_standard.
  - apply sha256Hex_shape.
  - apply sha256Hex_shape.
  - repeat (split; [vm_compute; reflexivity|]). vm_compute. reflexivity.
Qed.

Example buildFingerprint_all_empty :
  buildFingerprint
    {| fp_from := None; fp_subject := `"";
       fp_date := `"2024-01-02T00:00:00.000Z"; fp_body := `"" |}
  = `"86dd31866fd94aa2fefb56166c921f11b96763c8bc1a7c331f3eb9075a52422f".
Proof. vm_compute. reflexivity. Qed.

End Fingerprints.

(** ** Content blocks and the raw preview *)

Section Blocks.

Lemma blockText_buildParagraph (content : Js.str) :
  blockText (buildParagraph content) = content.
Proof. unfold blockText, buildParagraph, Js.join. simpl. apply app_nil_r. Qed.

(** The loop over the chunks appends one paragraph for each chunk that is
    not blank, in order. *)
Lemma fold_pushChunk (chunks : list Js.str) :
  forall blocks,
    fold_left pushChunk chunks blocks
    = blocks
      ++ map buildParagraph
           (filter (fun chunk => negb (Js.len (Js.trim chunk) =? 0)) chunks).
Proof.
  induction chunks as [|chunk chunks IH]; intros blocks; simpl.
  - now rewrite app_nil_r.
  - rewrite IH. unfold pushChunk.
    destruct (Js.len (Js.trim chunk) =? 0); simpl; [reflexivity|].
    now rewrite <- app_assoc.
Qed.

(** [buildChildrenBlocks] always returns: the sender blocks, then blocks
    of at most [CHILD_BLOCK_LIMIT] code units. *)
Lemma buildChildrenBlocks_returns (text : Js.str) (fromAddress : option Js.str) :
  exists body,
    buildChildrenBlocks text fromAddress
    = Some (senderBlocks fromAddress ++ body)
    /\ Forall (fun b => Js.len (blockText b) <= CHILD_BLOCK_LIMIT) body.
Proof.
  unfold buildChildrenBlocks.
  destruct (splitIntoChunks_bounded text CHILD_BLOCK_LIMIT) as (chunks & -> & B);
    [unfold CHILD_BLOCK_LIMIT; lia|].
  rewrite fold_pushChunk. eexists. split; [reflexivity|].
  apply Forall_forall. intros b Hb. apply in_map_iff in Hb.
  destruct Hb as (chunk & <- & Hc). apply filter_In in Hc.
  rewrite blockText_buildParagraph. rewrite Forall_forall in B.
  now apply B.
Qed.

(** The claim of C2 as it is written fails: the block that names the
    sender is not cut, and an address of 1495 code units makes a block of
    1501. *)
Lemma buildChildrenBlocks_sender_block_unbounded :
  ~ (forall (text : Js.str) (fromAddress : option Js.str) blocks,
       buildChildrenBlocks text fromAddress = Some blocks ->
       Forall (fun b => Js.len (blockText b) <= 1500) blocks).
Proof.
  intros H.
  specialize (H `"hello" (Some (repeat 97 1495)) _ eq_refl).
  apply Forall_inv in H. vm_compute in H. apply H. reflexivity.
Qed.

(** C2, amended. Every block made from the body text has at most 1500 code
    units; the block that names the sender, present when there is a
    non-empty address, holds "From: " and the whole address, six code units
    more than the address has, so that with an address of at most 1494 code
    units every block has at most 1500; the raw preview has at most 1800
    code units. *)
Theorem buildChildrenBlocks_bounds (text : Js.str) (fromAddress : option Js.str) :
  (exists body,
     buildChildrenBlocks text fromAddress
     = Some (senderBlocks fromAddress ++ body)
     /\ Forall (fun b => Js.len (blockText b) <= 1500) body)
  /\ Forall (fun b => blockText b = `"From: " ++ Js.the fromAddress
                      /\ Js.len (blockText b) = 6 + Js.len (Js.the fromAddress))
       (senderBlocks fromAddress)
  /\ (Js.len (Js.the fromAddress) <= 1494 ->
      exists blocks,
        buildChildrenBlocks text fromAddress = Some blocks
        /\ Forall (fun b => Js.len (blockText b) <= 1500) blocks)
  /\ Js.len (truncateText text RAW_PREVIEW_LIMIT) <= 1800.
Proof.
  assert (Forall (fun b => blockText b = `"From: " ++ Js.the fromAddress
                          /\ Js.len (blockText b)
                             = 6 + Js.len (Js.the fromAddress))
            (senderBlocks fromAddress)) as Hsender.
  { unfold senderBlocks.
    destruct (Js.present fromAddress); constructor; [|constructor].
    rewrite blockText_buildParagraph. split; [reflexivity|].
    rewrite len_app. reflexivity. }
  destruct (buildChildrenBlocks_returns text fromAddress) as (body & Hrun & Hbody).
  split; [now exists body|]. split; [exact Hsender|]. split.
  - intros Hshort. exists (senderBlocks fromAddress ++ body).
    split; [exact Hrun|]. apply Forall_app. split; [|exact Hbody].
    revert Hsender. apply Forall_impl. intros b (_ & L). lia.
  - destruct (Z_le_gt_dec (Js.len text) RAW_PREVIEW_LIMIT) as [Hle|Hgt].
    + rewrite truncateText_short by exact Hle. exact Hle.
    + rewrite truncateText_long by (unfold RAW_PREVIEW_LIMIT in *; lia).
      unfold Js.len. rewrite length_firstn. unfold RAW_PREVIEW_LIMIT. lia.
Qed.

Lemma buildChildrenBlocks_bounds_witness :
  Js.len (Js.the (Some `"ann@example.com")) <= 1494
  /\ exists blocks,
      buildChildrenBlocks (repeat 120 3001) (Some `"ann@example.com")
      = Some blocks
      /\ Forall (fun b => Js.len (blockText b) <= 1500) blocks.
Proof.
  assert (Js.len (Js.the (Some `"ann@example.com")) <= 1494) as Hshort
    by (vm_compute; discriminate).
  split; [exact Hshort|].
  destruct (buildChildrenBlocks_bounds (repeat 120 3001)
              (Some `"ann@example.com")) as (_ & _ & H & _).
  exact (H Hshort).
Defined.

(** Three thousand and one code units make three blocks after the sender
    block: 1500, 1500 and 1. *)
Example buildChildrenBlocks_example :
  option_map (map (fun b => Js.len (blockText b)))
    (buildChildrenBlocks (repeat 120 3001) (Some `"ann@example.com"))
  = Some [21; 1500; 1500; 1].
Proof. vm_compute. reflexivity. Qed.

End Blocks.

(** ** The handlers *)

Section Gate.

Lemma eqb_eq (a : Js.str) : forall b, Js.eqb a b = true <-> a = b.
Proof.
  induction a as [|x a IH]; intros [|y b]; simpl; try easy.
  rewrite andb_true_iff, Z.eqb_eq, IH. split.
  - now intros [-> ->].
  - now intros [= -> ->].
Qed.

Lemma eqb_neq (a b : Js.str) : Js.eqb a b = false <-> a <> b.
Proof.
  rewrite <- eqb_eq. destruct (Js.eqb a b); split; congruence.
Qed.

(** The test of the first version on the subject is the containment the
    specification words: the marker in any letter case, anywhere. *)
Lemma test_marker_iff (subject : Js.str) :
  Re.test (Re.lit_i "inbox") subject = true <-> containsMarker subject.
Proof.
  unfold Re.test, containsMarker. split.
  - destruct (Re.search _ subject) as [[[before found] rest]|] eqn:S;
      [intros _|discriminate].
    apply search_found in S. destruct S as (-> & P).
    apply run_lit_i in P. destruct P as (found' & E & C).
    apply app_inv_tail in E. subst found'.
    now exists before, found, rest.
  - intros (before & found & rest & -> & C).
    destruct (Re.search _ (before ++ found ++ rest)) eqn:S; [reflexivity|].
    pose proof (search_none _ _ S before (found ++ rest) eq_refl) as N.
    assert (Re.prefix (Re.lit_i "inbox") (found ++ rest) = Some rest) as P.
    { apply run_lit_i. now exists found. }
    congruence.
Qed.

Variables (world : World) (env : Env).

Lemma bind_ret {A B : Type} (a : A) (f : A -> M B) : bind (ret a) f = f a.
Proof. unfold bind, ret. destruct (f a). reflexivity. Qed.

Lemma validateEnv_ok : missingEnv env = [] -> validateEnv env = ret tt.
Proof. unfold validateEnv. now intros ->. Qed.

(** The first version asks for the marker before anything else: it calls
    Notion only for a subject that contains it, and a subject without it
    ends the handler at once, with no call and no error. *)
Lemma V1_email_gate (message : ForwardableEmailMessage) :
  (calls (V1.email world message env) <> [] ->
     containsMarker (Js.orElse (mail_subject (message_mail message)) `""))
  /\ (~ containsMarker (Js.orElse (mail_subject (message_mail message)) `"") ->
     V1.email world message env = ([], Returned tt)).
Proof.
  unfold V1.email.
  destruct (Re.test _ (Js.orElse (mail_subject (message_mail message)) `""))
    eqn:T; simpl negb; cbv iota.
  - apply test_marker_iff in T. split; [intros _; exact T|contradiction].
  - split; [intros H; now elim H|reflexivity].
Qed.

(** The steps of [handleNotionCreate] after the date is known. *)
Ltac deliver Hb :=
  rewrite bind_ret, Hb, bind_ret;
  unfold post, bind, calls;
  repeat match goal with
         | |- context [resp_ok ?r] =>
             destruct (resp_ok r); simpl negb; cbv iota
         | |- context [resp_message ?r] =>
             destruct (resp_message r); simpl
         | |- context [Js.present (extractMissingProperty ?message)] =>
             destruct (Js.present (extractMissingProperty message))
         end;
  simpl.

(** What [handleNotionCreate] sends, when it sends: one request, whose raw
    preview is the truncated body and whose children are the blocks of
    [buildChildrenBlocks]. *)
Lemma handleNotionCreate_request (receivedAt : Js.str) (mail : Mail)
    (resolved : ResolvedBody) (messageFrom : option Js.str) :
  forall request,
    In request
      (calls (handleNotionCreate world env receivedAt mail resolved messageFrom)) ->
    calls (handleNotionCreate world env receivedAt mail resolved messageFrom)
    = [request]
    /\ exists title createdAt fingerprint fromAddress children,
        req_properties request
        = buildProperties (toLowerCase world) env title createdAt
            (truncateText (body_text resolved) RAW_PREVIEW_LIMIT) fingerprint
        /\ buildChildrenBlocks (body_text resolved) fromAddress = Some children
        /\ req_children request = childrenField children.
Proof.
  intros request. unfold handleNotionCreate.
  destruct (rejectedByAllowlist _ _ _); [intros []|].
  set (fromAddress := match extractFromAddress (mail_from mail) with
                      | Some a => Some a
                      | None => messageFrom
                      end).
  destruct (buildChildrenBlocks_returns (body_text resolved) fromAddress)
    as (body & Hb & _).
  destruct (Js.present (mail_date mail));
    [destruct (dateToISOString world _) as [iso|]; [|intros []]|];
    deliver Hb; intros [<-|[]]; (split; [reflexivity|]);
    repeat eexists; try reflexivity; exact Hb.
Qed.

(** Without an allowlist and without a date to convert, the handler of the
    second version sends a record for every message, whatever its
    subject. *)
Lemma email_posts_any_subject (message : ForwardableEmailMessage) :
  missingEnv env = [] ->
  ALLOWED_FROM env = None ->
  mail_date (message_mail message) = None ->
  exists request, calls (email world message env) = [request].
Proof.
  intros Henv Hallow Hdate. unfold email.
  rewrite (validateEnv_ok Henv), bind_ret. unfold handleNotionCreate.
  rewrite Hallow, Hdate. simpl parseAllowlist. simpl rejectedByAllowlist.
  cbv iota.
  match goal with
  | |- context [buildChildrenBlocks ?text ?from] =>
      destruct (buildChildrenBlocks_returns text from) as (body & Hb & _)
  end.
  simpl Js.present. cbv iota.
  deliver Hb; eexists; reflexivity.
Qed.

End Gate.

(** C1, on the code. The handler of the second version has no test on the
    subject: for a subject without the marker it sends the record to Notion
    all the same, where the handler of the first version sends nothing. *)
Theorem email_posts_without_marker :
  ~ containsMarker `"Weekly report"
  /\ (exists request,
        email (exampleWorld 200) (exampleMessage `"Weekly report") exampleEnv
        = ([request], Returned tt)
        /\ getProperty `"Name" (req_properties request)
           = Some (PTitle `"Weekly report"))
  /\ V1.email (exampleWorld 200) (exampleMessage `"Weekly report") exampleEnv
     = ([], Returned tt).
Proof.
  split; [|split].
  - intros H. apply test_marker_iff in H. discriminate.
  - eexists. split; [vm_compute; reflexivity|reflexivity].
  - reflexivity.
Qed.

(** ** The debug endpoint *)

Section Debug.

Variables (world : World) (env : Env).
Hypothesis configured : missingEnv env = [].

Local Abbreviation token := (Js.orElse (WORKERS_BEARER_TOKEN env) `"").

(** The credential test. *)
Lemma requireBearerAuth_iff (request : Request) (secret : Js.str) :
  secret <> [] ->
  requireBearerAuth request secret = None <-> bearerMatches request secret.
Proof.
  intros Ht. unfold requireBearerAuth, bearerMatches.
  destruct secret as [|t0 secret]; [contradiction|]. simpl Js.truthy.
  simpl negb. cbv iota.
  destruct (request_authorization request) as [header|].
  - destruct header as [|h0 header].
    + simpl. split; [discriminate|]. intros (h & rest & [= <-] & S).
      discriminate.
    + simpl Js.truthy. simpl negb. cbv iota.
      destruct (Js.split 32 (h0 :: header)) as [|scheme [|value rest]] eqn:S.
      * simpl. split; [discriminate|].
        intros (h & rest & [= <-] & S'). congruence.
      * simpl. rewrite orb_true_r. split; [discriminate|].
        intros (h & rest & [= <-] & S'). congruence.
      * cbn [nth nth_error].
        destruct (Js.eqb scheme `"Bearer") eqn:E1;
          destruct (Js.eqb value (t0 :: secret)) eqn:E2; simpl.
        -- apply eqb_eq in E1, E2. subst. split; [intros _|reflexivity].
           now exists (h0 :: header), rest.
        -- apply eqb_neq in E2. split; [discriminate|].
           intros (h & rest' & [= <-] & S'). congruence.
        -- apply eqb_neq in E1. split; [discriminate|].
           intros (h & rest' & [= <-] & S'). congruence.
        -- apply eqb_neq in E1. split; [discriminate|].
           intros (h & rest' & [= <-] & S'). congruence.
  - split; [discriminate|]. intros (h & rest & [=] & _).
Qed.

Lemma payloadMail_none_iff (body : option Payload) :
  payloadMail body = None <-> unusableBody body.
Proof. destruct body as [[]|]; simpl; split; easy. Qed.

Lemma token_present : token <> [].
Proof.
  pose proof configured as H. unfold missingEnv in H.
  apply app_eq_nil in H. destruct H as (_ & H).
  apply app_eq_nil in H. destruct H as (_ & H).
  destruct (WORKERS_BEARER_TOKEN env) as [[|c t]|]; simpl in *; easy.
Qed.

Lemma routed_dec (request : Request) :
  negb (Js.eqb (request_method request) `"POST")
  || negb (Js.eqb (request_pathname request) `"/debug/email") = false
  <-> routed request.
Proof.
  unfold routed. rewrite orb_false_iff, !negb_false_iff, !eqb_eq. tauto.
Qed.


End Debug.



(** The answers of the endpoint, each on a request. *)
Example fetch_examples :
  let post auth body :=
    {| request_method := `"POST"; request_pathname := `"/debug/email";
       request_authorization := auth; request_json := body |} in
  let object :=
    JsonObject {| debug_subject := Some `"INBOX: Hello from unit test";
                  debug_text := Some `"plain"; debug_html := None;
                  debug_from := Some `"Ann <ann@example.com>";
                  debug_to := None; debug_date := None; debug_raw := None |} in
  outcome (fetch (exampleWorld 200) (post None (Some object)) exampleEnv)
  = Returned {| response_body := `"Unauthorized"; response_status := 401 |}
  /\ outcome (fetch (exampleWorld 200)
                (post (Some `"Bearer wrong") (Some object)) exampleEnv)
     = Returned {| response_body := `"Unauthorized"; response_status := 401 |}
  /\ outcome (fetch (exampleWorld 200)
                (post (Some `"Bearer bearer") None) exampleEnv)
     = Returned {| response_body := `"Invalid payload";
                   response_status := 400 |}
  /\ outcome (fetch (exampleWorld 200)
                (post (Some `"Bearer bearer") (Some (JsonString `"mail")))
                exampleEnv)
     = Returned {| response_body := `"Invalid payload";
                   response_status := 400 |}
  /\ outcome (fetch (exampleWorld 200)
                (post (Some `"Bearer bearer") (Some object)) exampleEnv)
     = Returned {| response_body := `"OK"; response_status := 200 |}
  /\ outcome (fetch (exampleWorld 200)
                (post (Some `"Bearer bearer") (Some JsonArray)) exampleEnv)
     = Returned {| response_body := `"OK"; response_status := 200 |}
  /\ outcome (fetch (exampleWorld 500)
                (post (Some `"Bearer bearer") (Some object)) exampleEnv)
     = Raised (NotionApiError 500).
Proof. repeat split; vm_compute; reflexivity. Qed.

(** ** Patterns as languages *)

Section Languages.

Import Lang.

Implicit Types (r : Re.t) (s u : Js.str) (k : Js.str -> option Js.str).

Lemma iterate_sound m k a :
  (forall s k' x, m s k' = Some x ->
     exists u s', s = u ++ s' /\ Matches a u /\ k' s' = Some x) ->
  forall n s x, Re.iterate m k n s = Some x ->
    exists u s', s = u ++ s' /\ Matches (Re.Star a) u /\ k s' = Some x.
Proof.
  intros Hm. induction n as [|n IH]; intros s x H; simpl in H.
  - exists [], s. repeat split; [constructor|exact H].
  - destruct (m s _) as [rest|] eqn:E.
    + injection H as ->. apply Hm in E. destruct E as (u1 & s1 & -> & M1 & E).
      destruct (length s1 <? length (u1 ++ s1))%nat; [|discriminate].
      apply IH in E. destruct E as (u2 & s2 & -> & M2 & E).
      exists (u1 ++ u2), s2. rewrite <- app_assoc.
      repeat split; [now constructor|exact E].
    + exists [], s. repeat split; [constructor|exact H].
Qed.

(** Soundness of the matcher: what a successful run consumed is a text of
    the pattern. *)
Lemma run_sound r :
  forall s k x, Re.run r s k = Some x ->
    exists u s', s = u ++ s' /\ Matches r u /\ k s' = Some x.
Proof.
  induction r as [|p|a IHa b IHb|a IHa b IHb|a IHa]; intros s k x H; simpl in H.
  - exists [], s. repeat split; [constructor|exact H].
  - destruct s as [|c s]; [discriminate|]. destruct (p c) eqn:P; [|discriminate].
    exists [c], s. repeat split; [now constructor|exact H].
  - apply IHa in H. destruct H as (u1 & s1 & -> & M1 & H).
    apply IHb in H. destruct H as (u2 & s2 & -> & M2 & H).
    exists (u1 ++ u2), s2. rewrite <- app_assoc.
    repeat split; [now constructor|exact H].
  - destruct (Re.run a s k) eqn:E.
    + injection H as ->. apply IHa in E. destruct E as (u & s1 & -> & M & E).
      exists u, s1. repeat split; [now apply MAltL|exact E].
    + apply IHb in H. destruct H as (u & s1 & -> & M & H).
      exists u, s1. repeat split; [now apply MAltR|exact H].
  - apply (iterate_sound _ _ a) in H; [exact H|].
    intros s0 k' x0. apply IHa.
Qed.

Lemma iterate_S m k (n : nat) s :
  Re.iterate m k (S n) s
  = match m s (fun s' => if (length s' <? length s)%nat
                         then Re.iterate m k n s' else None)
    with Some rest => Some rest | None => k s end.
Proof. reflexivity. Qed.

Lemma iterate_fuel r k :
  forall n s, (length s <= n)%nat ->
    Re.iterate (Re.run r) k n s = Re.iterate (Re.run r) k (length s) s.
Proof.
  induction n as [|n IH]; intros s L.
  - destruct s; [reflexivity|simpl in L; lia].
  - destruct (Nat.eq_dec (length s) (S n)) as [->|Hne]; [reflexivity|].
    rewrite iterate_enough by lia. apply IH. lia.
Qed.

(** Completeness of the matcher: where a text of the pattern is followed by
    something the continuation accepts, the run succeeds (on that path or
    on one it tries before). *)
Lemma run_complete r u :
  Matches r u ->
  forall s' k, k s' <> None -> Re.run r (u ++ s') k <> None.
Proof.
  induction 1 as [|p c P|a b u v Ma IHa Mb IHb|a b u Ma IHa|a b u Mb IHb
                 |a|a u v Ma IHa Ms IHs]; intros s' k Hk.
  - exact Hk.
  - simpl. now rewrite P.
  - simpl. rewrite <- app_assoc. apply IHa. now apply IHb.
  - simpl. specialize (IHa s' k Hk). now destruct (Re.run a (u ++ s') k).
  - simpl. specialize (IHb s' k Hk). now destruct (Re.run a (u ++ s') k).
  - simpl. destruct (length s'); simpl; [exact Hk|].
    now destruct (Re.run a s' _).
  - destruct u as [|c u]; [now apply IHs|].
    rewrite <- app_assoc.
    change (Re.run (Re.Star a) ((c :: u) ++ v ++ s') k)
      with (Re.iterate (Re.run a) k (S (length (u ++ v ++ s')))
              ((c :: u) ++ v ++ s')).
    rewrite iterate_S.
    match goal with
    | |- match ?e with _ => _ end <> None =>
        assert (e <> None) as Hrun; [|now destruct e]
    end.
    apply IHa.
    assert (length (v ++ s') < length ((c :: u) ++ v ++ s'))%nat as L
      by (rewrite !length_app; simpl; lia).
    apply Nat.ltb_lt in L. rewrite L.
    rewrite iterate_fuel by (rewrite !length_app; lia).
    exact (IHs s' k Hk).
Qed.

(** A pattern matches at the start of [s] exactly when a text of its
    language starts [s]. *)
Lemma prefix_iff r s :
  Re.prefix r s <> None <-> exists u s', s = u ++ s' /\ Matches r u.
Proof.
  unfold Re.prefix. split.
  - destruct (Re.run r s Some) eqn:E; [intros _|congruence].
    apply run_sound in E. destruct E as (u & s' & -> & M & _). now exists u, s'.
  - intros (u & s' & -> & M). now apply run_complete.
Qed.

(** A search finds something exactly when a text of the language occurs,
    and what it finds is such a text, where it says. *)
Lemma search_iff r s :
  Re.search r s <> None <-> exists u, Matches r u /\ Infix u s.
Proof.
  split.
  - destruct (Re.search r s) as [[[before found] rest]|] eqn:E;
      [intros _|congruence].
    apply search_found in E. destruct E as (-> & P).
    unfold Re.prefix in P. apply run_sound in P.
    destruct P as (u & s' & E & M & [= ->]).
    apply app_inv_tail in E. subst u. exists found. split; [exact M|].
    now exists before, rest.
  - intros (u & M & before & rest & ->) E.
    pose proof (search_none _ _ E before (u ++ rest) eq_refl) as N.
    assert (Re.prefix r (u ++ rest) <> None) as P
      by (apply prefix_iff; now exists u, rest).
    contradiction.
Qed.

Lemma search_sound r s before found rest :
  Re.search r s = Some (before, found, rest) ->
  s = before ++ found ++ rest /\ Matches r found.
Proof.
  intros E. apply search_found in E. destruct E as (-> & P).
  split; [reflexivity|].
  unfold Re.prefix in P. apply run_sound in P.
  destruct P as (u & s' & E & M & [= ->]).
  apply app_inv_tail in E. now subst u.
Qed.

(** The language of a class repeated at least once. *)
Lemma matches_star_char p u :
  Matches (Re.Star (Re.Char p)) u <-> forallb p u = true.
Proof.
  split.
  - intros M. remember (Re.Star (Re.Char p)) as r eqn:R.
    induction M as [| | | | | |a u v Ma _ Ms IHs]; try discriminate;
      [reflexivity|].
    injection R as ->. inversion Ma; subst. simpl.
    rewrite H0. now apply IHs.
  - induction u as [|c u IH]; simpl; intros H; [constructor|].
    apply andb_true_iff in H. destruct H as (Hc & Hu).
    change (c :: u) with ([c] ++ u). constructor; [now constructor|now apply IH].
Qed.

Lemma matches_plus_char p u :
  Matches (Re.Plus (Re.Char p)) u <-> u <> [] /\ forallb p u = true.
Proof.
  unfold Re.Plus. split.
  - intros M. inversion M as [| |a b u1 u2 M1 M2| | | |]; subst.
    inversion M1; subst. apply matches_star_char in M2. simpl.
    rewrite H0, M2. split; [discriminate|reflexivity].
  - intros (N & F). destruct u as [|c u]; [contradiction|]. simpl in F.
    apply andb_true_iff in F. destruct F as (Hc & Hu).
    change (c :: u) with ([c] ++ u).
    constructor; [now constructor|now apply matches_star_char].
Qed.

End Languages.

(** ** What the patterns of the source find *)

Section Findings.

Import Lang.

(** Inversion of a derivation over a pattern of known shape. *)
Ltac invert_matches :=
  repeat match goal with
         | H : Matches (Re.Plus (Re.Char _)) _ |- _ =>
             apply matches_plus_char in H; destruct H
         | H : Matches (Re.Star (Re.Char _)) _ |- _ =>
             apply matches_star_char in H
         | H : Matches Re.Empty _ |- _ => inversion H; subst; clear H
         | H : Matches (Re.Char _) _ |- _ => inversion H; subst; clear H
         | H : Matches (Re.Seq _ _) _ |- _ => inversion H; subst; clear H
         | H : Matches (Re.Alt _ _) _ |- _ => inversion H; subst; clear H
         end.

Lemma matches_emailPattern (a : Js.str) :
  Matches emailPattern a <-> AddressShaped a.
Proof.
  unfold AddressShaped. split.
  - intros M. unfold emailPattern, Re.seq, Re.chr in M. cbn [fold_right] in M.
    invert_matches.
    match goal with H : (64 =? ?c) = true |- _ => apply Z.eqb_eq in H; subst c end.
    rewrite app_nil_r. eexists _, _. repeat split; try eassumption.
  - intros (local & domain & -> & Nl & Nd & Fl & Fd).
    unfold emailPattern, Re.seq, Re.chr. cbn [fold_right].
    constructor; [now apply matches_plus_char|].
    change (64 :: domain) with ([64] ++ domain). constructor; [now constructor|].
    rewrite <- (app_nil_r domain). constructor; [|constructor].
    now apply matches_plus_char.
Qed.

(** X1. [extractEmailFromString] returns an address found in the value
    whenever the value holds one, and the trimmed value otherwise. *)
Theorem extractEmailFromString_spec (value : Js.str) :
  ((exists a, AddressShaped a /\ Infix a value) ->
     AddressShaped (extractEmailFromString value)
     /\ Infix (extractEmailFromString value) value)
  /\ (~ (exists a, AddressShaped a /\ Infix a value) ->
      extractEmailFromString value = Js.trim value).
Proof.
  unfold extractEmailFromString, Re.match0.
  destruct (Re.search emailPattern value) as [[[before found] rest]|] eqn:E.
  - apply search_sound in E. destruct E as (-> & M).
    apply matches_emailPattern in M.
    assert (Infix found (before ++ found ++ rest)) as I by now exists before, rest.
    split; [now intros _|]. intros N. exfalso. apply N. now exists found.
  - assert (~ (exists a, AddressShaped a /\ Infix a value)) as N.
    { intros (a & S & I). apply matches_emailPattern in S.
      assert (Re.search emailPattern value <> None) as F
        by (apply search_iff; now exists a).
      contradiction. }
    split; [intros H; contradiction|reflexivity].
Qed.

Lemma extractEmailFromString_spec_witness :
  (exists a, AddressShaped a /\ Infix a `"Ann <ann@example.com>")
  /\ extractEmailFromString `"Ann <ann@example.com>" = `"ann@example.com"
  /\ AddressShaped (extractEmailFromString `"Ann <ann@example.com>").
Proof.
  assert (exists a, AddressShaped a /\ Infix a `"Ann <ann@example.com>") as H.
  { exists `"ann@example.com". split.
    - exists `"ann", `"example.com". repeat split; discriminate.
    - exists `"Ann <", `">". reflexivity. }
  split; [exact H|]. split; [reflexivity|].
  apply (proj1 (extractEmailFromString_spec `"Ann <ann@example.com>") H).
Defined.

(** The whole pattern of [extractMissingProperty], without the group. *)
Local Abbreviation missingPropertyPattern :=
  (Re.Seq missingPropertyHead (Re.Seq missingPropertyGroup missingPropertyTail)).

Lemma missingPropertyAt_sound (s name : Js.str) :
  missingPropertyAt s = Some name ->
  exists u1 u3 rest,
    s = u1 ++ name ++ u3 ++ rest
    /\ Matches missingPropertyHead u1
    /\ Matches missingPropertyGroup name
    /\ Matches missingPropertyTail u3.
Proof.
  unfold missingPropertyAt. intros H.
  apply run_sound in H. destruct H as (u1 & s1 & -> & M1 & H).
  apply run_sound in H. destruct H as (u2 & s2 & -> & M2 & H).
  destruct (Re.run missingPropertyTail s2 Some) as [rest|] eqn:T; [|discriminate].
  apply run_sound in T. destruct T as (u3 & s3 & -> & M3 & [= ->]).
  injection H as <-.
  rewrite length_app, Nat.add_sub, firstn_app, Nat.sub_diag, firstn_all.
  simpl. rewrite app_nil_r. now exists u1, u3, rest.
Qed.

Lemma missingPropertyAt_complete (u rest : Js.str) :
  Matches missingPropertyPattern u -> missingPropertyAt (u ++ rest) <> None.
Proof.
  intros M. inversion M as [| |a b u1 v1 M1 M23| | | |]; subst.
  inversion M23 as [| |a b u2 u3 M2 M3| | | |]; subst.
  unfold missingPropertyAt. rewrite <- !app_assoc.
  apply run_complete; [exact M1|]. apply run_complete; [exact M2|].
  destruct (Re.run missingPropertyTail (u3 ++ rest) Some) eqn:T; [discriminate|].
  exfalso. revert T. now apply run_complete.
Qed.

(** The name [extractMissingProperty] returns is never the empty string,
    so the test [if (missingProperty)] of the handler lets every name
    through. *)
Lemma extractMissingProperty_present (message : Js.str) :
  Js.present (extractMissingProperty message)
  = match extractMissingProperty message with
    | Some _ => true
    | None => false
    end.
Proof.
  assert (forall s name, missingPropertyAt s = Some name ->
                         Js.truthy name = true) as T.
  { intros s name A. apply missingPropertyAt_sound in A.
    destruct A as (u1 & u3 & rest & _ & _ & M2 & _).
    apply matches_plus_char in M2. destruct M2 as (N & _).
    now destruct name. }
  induction message as [|c message IH]; cbn [extractMissingProperty].
  - destruct (missingPropertyAt []) as [name|] eqn:A; [|reflexivity].
    simpl. exact (T _ _ A).
  - destruct (missingPropertyAt (c :: message)) as [name|] eqn:A;
      [simpl; exact (T _ _ A)|exact IH].
Qed.

(** X2. A property name that [extractMissingProperty] returns is not empty,
    is made of letters, digits, spaces, underscores and hyphens, and stands
    in the message between a text of the head and a text of the tail of the
    pattern; and a name is returned exactly when a text of the whole pattern
    occurs in the message. *)
Theorem extractMissingProperty_spec (message : Js.str) :
  (forall name,
     extractMissingProperty message = Some name ->
     name <> []
     /\ forallb isPropertyNameChar name = true
     /\ exists before u1 u3 rest,
         message = before ++ u1 ++ name ++ u3 ++ rest
         /\ Matches missingPropertyHead u1
         /\ Matches missingPropertyTail u3)
  /\ (extractMissingProperty message <> None
      <-> exists u, Matches missingPropertyPattern u /\ Infix u message).
Proof.
  split.
  - induction message as [|c message IH]; intros name H;
      cbn [extractMissingProperty] in H.
    + destruct (missingPropertyAt []) eqn:A; [|discriminate].
      injection H as ->. apply missingPropertyAt_sound in A.
      destruct A as (u1 & u3 & rest & E & M1 & M2 & M3).
      apply matches_plus_char in M2. destruct M2 as (N & F).
      repeat split; try assumption. now exists [], u1, u3, rest.
    + destruct (missingPropertyAt (c :: message)) eqn:A.
      * injection H as ->. apply missingPropertyAt_sound in A.
        destruct A as (u1 & u3 & rest & E & M1 & M2 & M3).
        apply matches_plus_char in M2. destruct M2 as (N & F).
        repeat split; try assumption. now exists [], u1, u3, rest.
      * destruct (IH name H) as (N & F & before & u1 & u3 & rest & -> & M1 & M3).
        repeat split; try assumption. now exists (c :: before), u1, u3, rest.
  - split.
    + induction message as [|c message IH]; cbn [extractMissingProperty].
      * destruct (missingPropertyAt []) as [j|] eqn:A; [intros _|congruence].
        apply missingPropertyAt_sound in A.
        destruct A as (u1 & u3 & rest & E & M1 & M2 & M3).
        exists (u1 ++ j ++ u3). split; [repeat constructor; assumption|].
        exists [], rest. simpl. now rewrite <- !app_assoc.
      * destruct (missingPropertyAt (c :: message)) as [j|] eqn:A.
        -- intros _. apply missingPropertyAt_sound in A.
           destruct A as (u1 & u3 & rest & E & M1 & M2 & M3).
           exists (u1 ++ j ++ u3). split; [repeat constructor; assumption|].
           exists [], rest. simpl. now rewrite <- !app_assoc.
        -- intros H. destruct (IH H) as (u & M & before & rest & ->).
           exists u. split; [exact M|]. now exists (c :: before), rest.
    + intros (u & M & before & rest & ->).
      induction before as [|c before IH].
      * pose proof (missingPropertyAt_complete u rest M) as C. simpl app.
        destruct (u ++ rest); cbn [extractMissingProperty];
          destruct (missingPropertyAt _); congruence.
      * simpl app. cbn [extractMissingProperty].
        destruct (missingPropertyAt (c :: before ++ u ++ rest));
          [discriminate|exact IH].
Qed.

Lemma extractMissingProperty_spec_witness :
  extractMissingProperty
    (`"Property " ++ [34] ++ `"Raw" ++ [34] ++ `" does not exist")
  = Some `"Raw"
  /\ `"Raw" <> [] /\ forallb isPropertyNameChar `"Raw" = true.
Proof.
  assert (extractMissingProperty
            (`"Property " ++ [34] ++ `"Raw" ++ [34] ++ `" does not exist")
          = Some `"Raw") as E by (vm_compute; reflexivity).
  split; [exact E|].
  destruct (proj1 (extractMissingProperty_spec _) `"Raw" E) as (N & F & _).
  now split.
Defined.

Example extractMissingProperty_examples :
  extractMissingProperty (`"Property " ++ [34] ++ `"Raw" ++ [34] ++ `" does not exist")
  = Some `"Raw"
  /\ extractMissingProperty `"Could not find property name Fingerprint does not exist."
     = Some `"Fingerprint"
  /\ extractMissingProperty `"property a  does not exist" = Some `"a "
  /\ extractMissingProperty `"Name is not a property that exists." = None.
Proof. repeat split; vm_compute; reflexivity. Qed.

End Findings.

(** ** The text normaliser *)

Section Normaliser.

Import Lang.

(** A global replacement by something no longer than the shortest match
    never makes the text longer. *)
Lemma replaceAll_from_length (r : Re.t) (rep : Js.str) :
  (length rep <= Re.minLen r)%nat ->
  forall fuel s, (length (Re.replaceAll_from fuel r rep s) <= length s)%nat.
Proof.
  intros Hrep. induction fuel as [|fuel IH]; intros s; simpl; [lia|].
  destruct (Re.prefix r s) as [rest|] eqn:P.
  - apply prefix_consumes in P. destruct P as (found & -> & L).
    destruct (length rest <? length (found ++ rest))%nat eqn:T.
    + rewrite !length_app. specialize (IH rest). lia.
    + apply Nat.ltb_ge in T. rewrite length_app in T.
      assert (rep = []) as -> by (destruct rep; [reflexivity|simpl in *; lia]).
      destruct (found ++ rest) as [|c s'] eqn:E; [simpl; lia|].
      simpl. specialize (IH s'). lia.
  - destruct s as [|c s']; [simpl; lia|]. simpl. specialize (IH s'). lia.
Qed.

Lemma replaceAll_length (r : Re.t) (rep s : Js.str) :
  (length rep <= Re.minLen r)%nat ->
  (length (Re.replaceAll r rep s) <= length s)%nat.
Proof. intros H. now apply replaceAll_from_length. Qed.

(** Where the pattern matches at no position, a global replacement changes
    nothing. *)
Lemma replaceAll_from_none (r : Re.t) (rep : Js.str) :
  forall fuel s,
    (forall before t, s = before ++ t -> Re.prefix r t = None) ->
    Re.replaceAll_from fuel r rep s = s.
Proof.
  induction fuel as [|fuel IH]; intros s H; simpl; [reflexivity|].
  rewrite (H [] s eq_refl). destruct s as [|c s']; [reflexivity|].
  f_equal. apply IH. intros before t ->. apply (H (c :: before) t). reflexivity.
Qed.

(** A pattern whose every text starts with [c0] leaves a text without [c0]
    alone. *)
Lemma replaceAll_absent (r : Re.t) (rep s : Js.str) (c0 : Z) :
  (forall u, Matches r u -> exists u', u = c0 :: u') ->
  ~ In c0 s -> Re.replaceAll r rep s = s.
Proof.
  intros Hfirst Hs. apply replaceAll_from_none. intros before t ->.
  destruct (Re.prefix r t) as [rest|] eqn:P; [|reflexivity].
  unfold Re.prefix in P. apply run_sound in P.
  destruct P as (u & s' & -> & M & _).
  destruct (Hfirst u M) as (u' & ->).
  exfalso. apply Hs. apply in_or_app. right. now left.
Qed.

Lemma canonicalize_fixed (c x : Z) :
  Re.canonicalize c = c -> (c < 65 \/ 90 < c) ->
  (Re.canonicalize x =? Re.canonicalize c) = true -> x = c.
Proof.
  intros Hc Hrange H. apply Z.eqb_eq in H. rewrite Hc in H.
  unfold Re.canonicalize in H.
  destruct ((97 <=? x) && (x <=? 122)) eqn:E; [|exact H].
  apply andb_true_iff in E. destruct E as (E1 & E2).
  apply Z.leb_le in E1, E2. lia.
Qed.

Ltac first_char :=
  let M := fresh "M" in
  intros ? M;
  repeat match type of M with
         | Matches (?f _) _ => unfold f in M
         | Matches ?f _ => unfold f in M
         end;
  cbn in M;
  inversion M as [| |? ? ? ? M1 M2| | | |]; subst;
  inversion M1 as [|? ? P| | | | |]; subst;
  first [ apply canonicalize_fixed in P; [subst|reflexivity|lia]
        | apply Z.eqb_eq in P; subst ];
  eexists; reflexivity.

Lemma brTag_first : forall u, Matches brTag u -> exists u', u = 60 :: u'.
Proof. first_char. Qed.

Lemma closingTag_first (name : string) :
  forall u, Matches (closingTag name) u -> exists u', u = 60 :: u'.
Proof. first_char. Qed.

Lemma anyTag_first : forall u, Matches anyTag u -> exists u', u = 60 :: u'.
Proof. first_char. Qed.

Lemma entity_first (entity : string) :
  In entity ["&nbsp;"; "&lt;"; "&gt;"; "&amp;"; "&quot;"; "&#39;"]%string ->
  forall u, Matches (Re.lit_i entity) u -> exists u', u = 38 :: u'.
Proof.
  intros H. repeat (destruct H as [<-|H]; [first_char|]). destruct H.
Qed.

(** X3. A text with no [<] and no [&] in it passes through [htmlToText]
    unchanged. *)
Theorem htmlToText_plain (html : Js.str) :
  ~ In 60 html -> ~ In 38 html -> htmlToText html = html.
Proof.
  intros Hlt Hamp. unfold htmlToText, decodeHtmlEntities.
  rewrite (replaceAll_absent brTag _ html 60 brTag_first Hlt).
  rewrite (replaceAll_absent _ _ html 60 (closingTag_first "p") Hlt).
  rewrite (replaceAll_absent _ _ html 60 (closingTag_first "div") Hlt).
  rewrite (replaceAll_absent anyTag _ html 60 anyTag_first Hlt).
  repeat (rewrite (replaceAll_absent (Re.lit_i _) _ html 38);
          [|apply entity_first; simpl; tauto|exact Hamp]).
  reflexivity.
Qed.

Lemma htmlToText_plain_witness :
  ~ In 60 `"2 > 1, said Ann" /\ ~ In 38 `"2 > 1, said Ann"
  /\ htmlToText `"2 > 1, said Ann" = `"2 > 1, said Ann".
Proof.
  assert (~ In 60 `"2 > 1, said Ann") as H1
    by (simpl; intuition discriminate).
  assert (~ In 38 `"2 > 1, said Ann") as H2
    by (simpl; intuition discriminate).
  split; [exact H1|]. split; [exact H2|].
  exact (htmlToText_plain `"2 > 1, said Ann" H1 H2).
Defined.

(** X4. [htmlToText] never returns more code units than it was given: a
    break tag becomes one line feed, any other tag nothing, an entity one
    character. *)
Theorem htmlToText_length (html : Js.str) :
  Js.len (htmlToText html) <= Js.len html.
Proof.
  unfold htmlToText, decodeHtmlEntities, Js.len. apply inj_le.
  repeat (etransitivity;
          [apply replaceAll_length; vm_compute; repeat constructor|]).
  reflexivity.
Qed.

End Normaliser.

(** ** More on titles *)

Section TitleFacts.

Import Lang.

Lemma trimStart_split (s : Js.str) :
  exists a, s = a ++ Js.trimStart s /\ forallb Js.isWhiteSpace a = true.
Proof.
  induction s as [|c s (a & E & F)]; [now exists []|]. simpl.
  destruct (Js.isWhiteSpace c) eqn:W.
  - exists (c :: a). simpl. rewrite W, F. split; [now f_equal|reflexivity].
  - now exists [].
Qed.

Lemma trimEnd_split (s : Js.str) :
  exists b, s = Js.trimEnd s ++ b /\ forallb Js.isWhiteSpace b = true.
Proof.
  unfold Js.trimEnd. destruct (trimStart_split (rev s)) as (a & E & F).
  exists (rev a). split.
  - rewrite <- rev_app_distr, <- E. now rewrite rev_involutive.
  - now rewrite forallb_rev.
Qed.

(** [trim] takes white space off both ends and nothing else. *)
Lemma trim_split (s : Js.str) :
  exists a b,
    s = a ++ Js.trim s ++ b
    /\ forallb Js.isWhiteSpace a = true /\ forallb Js.isWhiteSpace b = true.
Proof.
  destruct (trimStart_split s) as (a & E & Fa).
  destruct (trimEnd_split (Js.trimStart s)) as (b & E' & Fb).
  exists a, b. split; [|now split]. unfold Js.trim. now rewrite <- E'.
Qed.

Lemma trim_ends_visible (s : Js.str) :
  (forall c rest, Js.trim s = c :: rest -> Js.isWhiteSpace c = false)
  /\ (forall c front, Js.trim s = front ++ [c] -> Js.isWhiteSpace c = false).
Proof.
  split.
  - intros c rest E.
    pose proof (trimEnd_headVisible (Js.trimStart s) (trimStart_headVisible s)) as H.
    unfold Js.trim in E. now rewrite E in H.
  - intros c front E. unfold Js.trim, Js.trimEnd in E.
    apply (f_equal (@rev Z)) in E. rewrite rev_involutive, rev_app_distr in E.
    simpl in E. pose proof (trimStart_headVisible (rev (Js.trimStart s))) as H.
    now rewrite E in H.
Qed.

Lemma trimStart_app_space (w t : Js.str) :
  forallb Js.isWhiteSpace w = true -> Js.trimStart (w ++ t) = Js.trimStart t.
Proof.
  induction w as [|c w IH]; simpl; [reflexivity|]. intros H.
  apply andb_true_iff in H. destruct H as (-> & H). now apply IH.
Qed.

(** Every text of the marker pattern has, after white space, a bracket or
    the letter i in one of its cases. *)
Lemma markerPrefix_first (u : Js.str) :
  Matches markerPrefix u ->
  exists w x u',
    u = w ++ x :: u' /\ forallb Js.isWhiteSpace w = true
    /\ (x = 91 \/ x = 73 \/ x = 105).
Proof.
  intros M. unfold markerPrefix in M. cbn in M.
  inversion M as [| |? ? w v Mw Mrest| | | |]; subst.
  apply matches_star_char in Mw.
  inversion Mrest as [| |? ? v1 v2 Malt _| | | |]; subst.
  assert (exists x v', v1 = x :: v' /\ (x = 91 \/ x = 73 \/ x = 105))
    as (x & v' & -> & Hx).
  { inversion Malt as [| | |? ? ? Ml|? ? ? Mr| |]; subst.
    - inversion Ml as [| |? ? ? ? M1 _| | | |]; subst.
      inversion M1 as [|? ? P| | | | |]; subst.
      apply Z.eqb_eq in P. subst. eexists _, _. split; [reflexivity|tauto].
    - inversion Mr as [| |? ? ? ? M1 _| | | |]; subst.
      inversion M1 as [|? c P| | | | |]; subst.
      apply Z.eqb_eq in P. change (Re.canonicalize 105) with 73 in P.
      exists c. eexists. split; [reflexivity|].
      unfold Re.canonicalize in P.
      destruct ((97 <=? c) && (c <=? 122)); lia. }
  exists w, x, (v' ++ v2). split; [reflexivity|now split].
Qed.

(** X5. The normalised title is a part of the subject, in place, with no
    white space at either end; and a subject whose first visible character
    is neither a bracket nor the letter i is only trimmed. *)
Theorem normalizeTitle_spec (subject : Js.str) :
  Infix (normalizeTitle subject) subject
  /\ (forall c rest,
        normalizeTitle subject = c :: rest -> Js.isWhiteSpace c = false)
  /\ (forall c front,
        normalizeTitle subject = front ++ [c] -> Js.isWhiteSpace c = false)
  /\ (forall c rest,
        Js.trimStart subject = c :: rest ->
        c <> 91 -> c <> 73 -> c <> 105 ->
        normalizeTitle subject = Js.trim subject).
Proof.
  split; [|split; [|split]].
  - unfold normalizeTitle, Re.replaceAnchored.
    destruct (Re.prefix markerPrefix subject) as [rest|] eqn:P.
    + apply prefix_consumes in P. destruct P as (found & -> & _).
      destruct (trim_split rest) as (a & b & E & _).
      change (`"" ++ rest) with rest.
      exists (found ++ a), b. rewrite <- app_assoc. f_equal. exact E.
    + destruct (trim_split subject) as (a & b & E & _). now exists a, b.
  - apply trim_ends_visible.
  - apply trim_ends_visible.
  - intros c rest E N1 N2 N3. apply normalizeTitle_keeps.
    destruct (Re.prefix markerPrefix subject) as [r|] eqn:P; [|reflexivity].
    unfold Re.prefix in P. apply run_sound in P.
    destruct P as (u & s' & -> & M & _).
    apply markerPrefix_first in M. destruct M as (w & x & u' & -> & W & Hx).
    rewrite <- app_assoc, trimStart_app_space in E by exact W.
    simpl in E. assert (Js.isWhiteSpace x = false) as V
      by (destruct Hx as [->|[->| ->]]; reflexivity).
    rewrite V in E. injection E as <- _. lia.
Qed.

Lemma normalizeTitle_spec_witness :
  Js.trimStart `"  Re: INBOX groceries " = `"Re: INBOX groceries "
  /\ normalizeTitle `"  Re: INBOX groceries " = `"Re: INBOX groceries".
Proof.
  split; [reflexivity|].
  transitivity (Js.trim `"  Re: INBOX groceries "); [|reflexivity].
  apply (normalizeTitle_spec `"  Re: INBOX groceries ") with (c := 82) (rest := `"e: INBOX groceries ");
    [reflexivity|discriminate..].
Defined.

(** X6. The title [handleNotionCreate] sends is never empty, has at most 200
    code units and is the start of what [buildTitle] built. *)
Theorem sentTitle_bounds (subject receivedAt : Js.str) :
  truncateText (buildTitle subject receivedAt) TITLE_LIMIT <> []
  /\ Js.len (truncateText (buildTitle subject receivedAt) TITLE_LIMIT) <= 200
  /\ exists cut,
      buildTitle subject receivedAt
      = truncateText (buildTitle subject receivedAt) TITLE_LIMIT ++ cut.
Proof.
  assert (buildTitle subject receivedAt <> []) as N.
  { unfold buildTitle. destruct (normalizeTitle subject) as [|c t];
      simpl; discriminate. }
  destruct (Z_le_gt_dec (Js.len (buildTitle subject receivedAt)) TITLE_LIMIT)
    as [Hle|Hgt].
  - rewrite truncateText_short by exact Hle. split; [exact N|].
    split; [exact Hle|]. exists []. now rewrite app_nil_r.
  - rewrite truncateText_long by (unfold TITLE_LIMIT in *; lia).
    split; [|split].
    + destruct (buildTitle subject receivedAt); [contradiction|discriminate].
    + unfold Js.len. rewrite length_firstn. unfold TITLE_LIMIT. lia.
    + eexists. symmetry. apply firstn_skipn.
Qed.

End TitleFacts.

(** ** Configuration, allowlist and delivery *)

Section Delivery.

Variables (world : World) (env : Env).

(** X7. A handler that finds a required setting missing raises at once
    and calls nothing; the debug endpoint does so whatever the request,
    before it looks at the route. The error lists the settings that are
    absent or empty, each once, in the order NOTION_TOKEN, INBOX_DB_ID,
    WORKERS_BEARER_TOKEN, and no other. *)
Theorem handlers_need_configuration :
  missingEnv env <> [] ->
  let missing :=
    map fst
      (filter (fun setting => negb (Js.present (snd setting)))
         [ (`"NOTION_TOKEN", NOTION_TOKEN env);
           (`"INBOX_DB_ID", INBOX_DB_ID env);
           (`"WORKERS_BEARER_TOKEN", WORKERS_BEARER_TOKEN env) ]) in
  (forall message,
     email world message env = ([], Raised (MissingEnv missing)))
  /\ (forall request,
        fetch world request env = ([], Raised (MissingEnv missing)))
  /\ (forall name,
        In name missing
        <-> (name = `"NOTION_TOKEN" /\ Js.present (NOTION_TOKEN env) = false)
            \/ (name = `"INBOX_DB_ID" /\ Js.present (INBOX_DB_ID env) = false)
            \/ (name = `"WORKERS_BEARER_TOKEN"
                /\ Js.present (WORKERS_BEARER_TOKEN env) = false)).
Proof.
  intros H missing.
  assert (missingEnv env = missing) as E.
  { unfold missing, missingEnv. cbn [filter snd].
    now destruct (Js.present (NOTION_TOKEN env)),
                 (Js.present (INBOX_DB_ID env)),
                 (Js.present (WORKERS_BEARER_TOKEN env)). }
  assert (validateEnv env = raise (MissingEnv missing)) as V.
  { unfold validateEnv. rewrite <- E.
    destruct (missingEnv env); [contradiction|reflexivity]. }
  split; [|split].
  - intros message. unfold email. now rewrite V.
  - intros request. unfold fetch. now rewrite V.
  - intros name. unfold missing. cbn [filter snd].
    destruct (Js.present (NOTION_TOKEN env)),
             (Js.present (INBOX_DB_ID env)),
             (Js.present (WORKERS_BEARER_TOKEN env)); simpl;
      intuition (try discriminate; try congruence; auto).
Qed.

End Delivery.

Lemma handlers_need_configuration_witness :
  let env :=
    {| NOTION_TOKEN := Some `"secret"; INBOX_DB_ID := Some `"";
       NOTION_VERSION := None; ALLOWED_FROM := None;
       SOURCE_AS_RICH_TEXT := None; WORKERS_BEARER_TOKEN := None;
       TITLE_PROPERTY := None; CREATED_PROPERTY := None;
       SOURCE_PROPERTY := None; RAW_PROPERTY := None;
       FINGERPRINT_PROPERTY := None |} in
  missingEnv env = [`"INBOX_DB_ID"; `"WORKERS_BEARER_TOKEN"]
  /\ email (exampleWorld 200) (exampleMessage `"INBOX x") env
     = ([], Raised (MissingEnv [`"INBOX_DB_ID"; `"WORKERS_BEARER_TOKEN"])).
Proof.
  intros env. split; [reflexivity|].
  apply (handlers_need_configuration (exampleWorld 200) env). discriminate.
Defined.

(** ** Fields, credentials and the allowlist *)

Section Fields.

Lemma split_from_fields (sep : Z) (s : Js.str) :
  forall cur, ~ In sep cur ->
    forall field, In field (Js.split_from sep s cur) -> ~ In sep field.
Proof.
  induction s as [|c s IH]; intros cur Hcur field Hin; simpl in Hin.
  - destruct Hin as [<-|[]]. now rewrite <- in_rev.
  - destruct (c =? sep) eqn:E.
    + destruct Hin as [<-|Hin]; [now rewrite <- in_rev|].
      now apply (IH [] (fun H => H) field).
    + apply Z.eqb_neq in E. apply (IH (c :: cur)); [|exact Hin].
      intros [H|H]; [congruence|contradiction].
Qed.

(** No field of a split holds the separator. *)
Lemma split_fields (sep : Z) (s field : Js.str) :
  In field (Js.split sep s) -> ~ In sep field.
Proof. apply split_from_fields. intros []. Qed.

Lemma split_from_app (sep : Z) (a b : Js.str) :
  ~ In sep a ->
  forall cur,
    Js.split_from sep (a ++ sep :: b) cur = (rev cur ++ a) :: Js.split sep b.
Proof.
  induction a as [|c a IH]; intros Ha cur; simpl.
  - rewrite Z.eqb_refl, app_nil_r. reflexivity.
  - destruct (c =? sep) eqn:E.
    + apply Z.eqb_eq in E. exfalso. apply Ha. now left.
    + rewrite IH by (intros H; apply Ha; now right).
      simpl. now rewrite <- app_assoc.
Qed.

Lemma split_app (sep : Z) (a b : Js.str) :
  ~ In sep a -> Js.split sep (a ++ sep :: b) = a :: Js.split sep b.
Proof. intros Ha. unfold Js.split at 1. now rewrite split_from_app. Qed.

Lemma split_whole (sep : Z) (a : Js.str) :
  ~ In sep a -> Js.split sep a = [a].
Proof.
  intros Ha. unfold Js.split.
  assert (forall cur, Js.split_from sep a cur = [rev cur ++ a]) as H.
  { induction a as [|c a IH]; intros cur; simpl; [now rewrite app_nil_r|].
    destruct (c =? sep) eqn:E.
    - apply Z.eqb_eq in E. exfalso. apply Ha. now left.
    - rewrite IH by (intros H; apply Ha; now right).
      simpl. now rewrite <- app_assoc. }
  apply H.
Qed.

(** X8. The credential test reads the header field by field: a configured
    token that holds a space can never be presented, since no field holds
    one; a token without a space is accepted behind "Bearer ", also when
    further fields follow it; and an empty token refuses every request. *)
Theorem requireBearerAuth_fields (request : Request) (token : Js.str) :
  (In 32 token -> requireBearerAuth request token <> None)
  /\ (token <> [] -> ~ In 32 token ->
      forall tail,
        request_authorization request = Some (`"Bearer " ++ token)
        \/ request_authorization request
           = Some (`"Bearer " ++ token ++ 32 :: tail) ->
        requireBearerAuth request token = None)
  /\ requireBearerAuth request [] = Some `"missing_token".
Proof.
  split; [|split; [|reflexivity]].
  - intros Hsp Hnone.
    assert (token <> []) as Hne by (destruct token; [destruct Hsp|discriminate]).
    apply (requireBearerAuth_iff request token Hne) in Hnone.
    destruct Hnone as (header & rest & _ & S).
    assert (In token (Js.split 32 header)) as Hin
      by (rewrite S; right; now left).
    now apply split_fields in Hin.
  - intros Hne Hsp tail Hheader.
    apply (requireBearerAuth_iff request token Hne).
    assert (~ In 32 `"Bearer") as Hb by (simpl; intuition discriminate).
    unfold bearerMatches. destruct Hheader as [H|H]; rewrite H.
    + exists (`"Bearer " ++ token), []. split; [reflexivity|].
      change (`"Bearer " ++ token) with (`"Bearer" ++ 32 :: token).
      rewrite (split_app 32 _ _ Hb). now rewrite split_whole.
    + exists (`"Bearer " ++ token ++ 32 :: tail), (Js.split 32 tail).
      split; [reflexivity|].
      change (`"Bearer " ++ token ++ 32 :: tail)
        with (`"Bearer" ++ 32 :: (token ++ 32 :: tail)).
      rewrite (split_app 32 _ _ Hb). now rewrite split_app.
Qed.

Lemma requireBearerAuth_fields_witness :
  let request :=
    {| request_method := `"POST"; request_pathname := `"/debug/email";
       request_authorization := Some `"Bearer s3cret and more";
       request_json := None |} in
  `"s3cret" <> [] /\ ~ In 32 `"s3cret"
  /\ requireBearerAuth request `"s3cret" = None
  /\ In 32 `"two words"
  /\ requireBearerAuth
       {| request_method := `"POST"; request_pathname := `"/debug/email";
          request_authorization := Some `"Bearer two words";
          request_json := None |} `"two words" <> None.
Proof.
  intros request.
  assert (`"s3cret" <> []) as H1 by discriminate.
  assert (~ In 32 `"s3cret") as H2 by (simpl; intuition discriminate).
  assert (In 32 `"two words") as H3 by (simpl; tauto).
  split; [exact H1|]. split; [exact H2|]. split; [|split; [exact H3|]].
  - apply (proj1 (proj2 (requireBearerAuth_fields request `"s3cret")) H1 H2
             `"and more").
    right. reflexivity.
  - now apply (proj1 (requireBearerAuth_fields _ `"two words")).
Defined.

Lemma setHas_iff (set : list Js.str) (x : Js.str) :
  setHas set x = true <-> In x set.
Proof.
  unfold setHas. rewrite existsb_exists. split.
  - intros (y & Hin & E). apply eqb_eq in E. now subst.
  - intros Hin. exists x. split; [exact Hin|now apply eqb_eq].
Qed.

Lemma truthy_iff (s : Js.str) : Js.truthy s = true <-> s <> [].
Proof. destruct s; simpl; split; easy. Qed.

(** X9. The allowlist is what is left of the comma-separated setting once
    each field is trimmed and lower-cased and the empty ones are dropped. A
    setting that is absent or empty, or whose fields are all blank, gives no
    allowlist at all. *)
Theorem parseAllowlist_entries (lower : Js.str -> Js.str)
    (allowedFrom : option Js.str) :
  (Js.present allowedFrom = false -> parseAllowlist lower allowedFrom = None)
  /\ (forall entries,
        parseAllowlist lower allowedFrom = Some entries ->
        entries <> []
        /\ forall x,
            In x entries
            <-> x <> []
                /\ exists field,
                    In field (Js.split 44 (Js.the allowedFrom))
                    /\ x = lower (Js.trim field))
  /\ (parseAllowlist lower allowedFrom = None ->
      Js.present allowedFrom = true ->
      forall field,
        In field (Js.split 44 (Js.the allowedFrom)) ->
        lower (Js.trim field) = []).
Proof.
  unfold parseAllowlist.
  destruct (Js.present allowedFrom); simpl negb; cbv iota.
  2: { split; [reflexivity|]. split; [discriminate|]. intros _ [=]. }
  split; [discriminate|].
  set (fields := Js.split 44 (Js.the allowedFrom)).
  assert (forall x,
            In x (filter Js.truthy
                    (map (fun entry => lower (Js.trim entry)) fields))
            <-> x <> [] /\ exists field, In field fields
                                         /\ x = lower (Js.trim field)) as Hin.
  { intros x. rewrite filter_In, in_map_iff, truthy_iff. split.
    - intros ((field & <- & Hf) & Hx). split; [exact Hx|]. now exists field.
    - intros (Hx & field & Hf & ->). split; [now exists field|exact Hx]. }
  destruct (filter Js.truthy _) as [|e entries] eqn:F.
  - split; [discriminate|]. intros _ _ field Hf.
    destruct (lower (Js.trim field)) as [|c x] eqn:L; [reflexivity|].
    exfalso. apply (proj2 (Hin (c :: x))).
    split; [discriminate|]. exists field. now split.
  - split; [|discriminate]. intros entries' [= <-]. split; [discriminate|].
    exact Hin.
Qed.

Lemma parseAllowlist_entries_witness :
  parseAllowlist asciiLower (Some `" , ") = None
  /\ Js.present (Some `" , ") = true
  /\ forall field, In field (Js.split 44 `" , ") ->
       asciiLower (Js.trim field) = [].
Proof.
  split; [reflexivity|]. split; [reflexivity|].
  apply (proj2 (proj2 (parseAllowlist_entries asciiLower (Some `" , ")))
           eq_refl eq_refl).
Defined.

End Fields.

Section Outcomes.

Variables (world : World) (env : Env).
Variables (receivedAt : Js.str) (mail : Mail) (resolved : ResolvedBody).
Variable messageFrom : option Js.str.

(** The sender [handleNotionCreate] works with. *)
Local Abbreviation sender :=
  (match extractFromAddress (mail_from mail) with
   | Some a => Some a
   | None => messageFrom
   end).

Local Abbreviation run :=
  (handleNotionCreate world env receivedAt mail resolved messageFrom).

(** X10. With an allowlist configured, a record is sent only for a message
    whose sender is known and whose lower-cased address is an entry of the
    list; every other message ends the handler with no call and no error. *)
Theorem handleNotionCreate_allowlist (entries : list Js.str) :
  parseAllowlist (toLowerCase world) (ALLOWED_FROM env) = Some entries ->
  (calls run <> [] ->
     exists a, sender = Some a /\ a <> []
               /\ In (toLowerCase world a) entries)
  /\ ((forall a, sender = Some a -> a <> [] ->
         ~ In (toLowerCase world a) entries) ->
      run = ([], Returned tt)).
Proof.
  intros Hallow. unfold handleNotionCreate. rewrite Hallow.
  unfold rejectedByAllowlist.
  destruct sender as [a|] eqn:S; simpl Js.present; simpl Js.the.
  - destruct a as [|c a]; simpl Js.truthy; simpl negb; simpl orb.
    + split; [intros H; now elim H|reflexivity].
    + cbv iota. destruct (setHas entries (toLowerCase world (c :: a))) eqn:H;
        simpl negb; cbv iota.
      * apply setHas_iff in H. split.
        -- intros _. exists (c :: a). repeat split; [discriminate|exact H].
        -- intros N. exfalso. apply (N (c :: a) eq_refl); [discriminate|exact H].
      * split; [intros N; now elim N|reflexivity].
  - split; [intros H; now elim H|reflexivity].
Qed.

(** X11. [handleNotionCreate] calls Notion at most once. When the call is
    answered, the handler returns exactly when the status of the response
    is between 200 and 299. For any other status it raises: a [TypeError]
    when the body of the response has a message that is not a string,
    otherwise the error that names the missing property when the message
    tells one, and the error that names the status when it does not.
    Without a call it either ended on the allowlist or raised on a date it
    could not convert. *)
Theorem handleNotionCreate_outcome :
  (calls run = []
   /\ (outcome run = Returned tt \/ outcome run = Raised InvalidTime))
  \/ (exists request,
        calls run = [request]
        /\ let response := notionApi world request in
           let diagnosis text :=
             match extractMissingProperty text with
             | Some name => Raised (NotionPropertyMissing name)
             | None => Raised (NotionApiError (resp_status response))
             end in
           outcome run
           = if (200 <=? resp_status response) && (resp_status response <=? 299)
             then Returned tt
             else match resp_message response with
                  | MessageAbsent => Raised (NotionApiError (resp_status response))
                  | MessageString text => diagnosis text
                  | MessageOther => Raised TypeError
                  end).
Proof.
  unfold handleNotionCreate.
  destruct (rejectedByAllowlist _ _ _); [left; split; [reflexivity|now left]|].
  destruct (buildChildrenBlocks_returns (body_text resolved) sender)
    as (body & Hb & _).
  destruct (Js.present (mail_date mail));
    [destruct (dateToISOString world _) as [iso|];
     [|left; split; [reflexivity|now right]]|];
    right; rewrite bind_ret, Hb, bind_ret; unfold post, bind, calls, outcome;
    match goal with
    | |- context [notionApi world ?request] =>
        exists request; destruct (notionApi world request) as [status message]
    end;
    unfold resp_ok; cbn [resp_status resp_message];
    destruct ((200 <=? status) && (status <=? 299)); simpl negb; cbv iota;
    try (split; reflexivity);
    destruct message as [|text|]; try (split; reflexivity);
    cbn [ret fst snd app]; rewrite extractMissingProperty_present;
    destruct (extractMissingProperty text); split; reflexivity.
Qed.

End Outcomes.

Lemma handleNotionCreate_allowlist_witness :
  let env :=
    {| NOTION_TOKEN := Some `"secret"; INBOX_DB_ID := Some `"db";
       NOTION_VERSION := None;
       ALLOWED_FROM := Some `"Ann@Example.com, bob@example.org";
       SOURCE_AS_RICH_TEXT := None; WORKERS_BEARER_TOKEN := Some `"bearer";
       TITLE_PROPERTY := None; CREATED_PROPERTY := None;
       SOURCE_PROPERTY := None; RAW_PROPERTY := None;
       FINGERPRINT_PROPERTY := None |} in
  let mail from :=
    {| mail_subject := Some `"INBOX: hello"; mail_text := Some `"hi";
       mail_html := None; mail_from := AddrString from;
       mail_to := AddrAbsent; mail_date := None |} in
  let resolved := {| body_text := `"hi"; body_source := SrcText |} in
  parseAllowlist asciiLower (ALLOWED_FROM env)
  = Some [`"ann@example.com"; `"bob@example.org"]
  /\ handleNotionCreate (exampleWorld 200) env `"2024-02-03T10:00:00.000Z"
       (mail `"Eve <eve@example.com>") resolved None
     = ([], Returned tt)
  /\ length (calls (handleNotionCreate (exampleWorld 200) env
                      `"2024-02-03T10:00:00.000Z"
                      (mail `"ANN <Ann@Example.COM>") resolved None))
     = 1%nat.
Proof.
  intros env mail resolved. split; [reflexivity|]. split; [|reflexivity].
  apply (handleNotionCreate_allowlist (exampleWorld 200) env
           `"2024-02-03T10:00:00.000Z" (mail `"Eve <eve@example.com>")
           resolved None [`"ann@example.com"; `"bob@example.org"] eq_refl).
  intros a [= <-] _ [H|[H|[]]]; discriminate.
Defined.

(** ** When the first version sends *)

Section FirstGate.

Variables (world : World) (env : Env) (message : ForwardableEmailMessage).

(** X12. The handler of the first version calls Notion exactly when the
    subject contains the marker, in any letter case and at any position,
    and the allowlist does not reject the sender; when it makes no call it
    returns without an error. *)
Theorem V1_email_calls :
  (calls (V1.email world message env) <> []
   <-> containsMarker (Js.orElse (mail_subject (message_mail message)) `"")
       /\ rejectedByAllowlist (toLowerCase world)
            (parseAllowlist (toLowerCase world) (ALLOWED_FROM env))
            (extractFromAddress (mail_from (message_mail message)))
          = false)
  /\ (calls (V1.email world message env) = [] ->
      V1.email world message env = ([], Returned tt)).
Proof.
  unfold V1.email.
  destruct (Re.test _ (Js.orElse (mail_subject (message_mail message)) `""))
    eqn:T; simpl negb; cbv iota.
  2: { split; [|reflexivity]. split; [intros H; now elim H|].
       intros (C & _). apply test_marker_iff in C. congruence. }
  apply test_marker_iff in T.
  destruct (rejectedByAllowlist _ _ _).
  { split; [|reflexivity]. split; [intros H; now elim H|]. intros (_ & [=]). }
  match goal with
  | |- context [buildChildrenBlocks ?text ?from] =>
      destruct (buildChildrenBlocks_returns text from) as (body & Hb & _)
  end.
  rewrite Hb, bind_ret. unfold post, bind, calls.
  match goal with
  | |- context [resp_ok ?r] => destruct (resp_ok r); simpl negb; cbv iota
  end; simpl; (split; [split; [now intros _|discriminate]|discriminate]).
Qed.

End FirstGate.

Lemma V1_email_calls_witness :
  calls (V1.email (exampleWorld 200) (exampleMessage `"Weekly report")
           exampleEnv) = []
  /\ V1.email (exampleWorld 200) (exampleMessage `"Weekly report") exampleEnv
     = ([], Returned tt).
Proof.
  split; [reflexivity|].
  apply (proj2 (V1_email_calls (exampleWorld 200) exampleEnv
                  (exampleMessage `"Weekly report"))).
  reflexivity.
Defined.

(** ** The answers of the debug endpoint *)

Section Answers.

Variables (world : World) (env : Env) (request : Request).

(** X13. When the debug endpoint answers, the status is 200, 400, 401 or 404;
    an answer other than 200 was given without a call to Notion, and 200
    only to a routed request with the credential and a usable body. A
    delivery that fails is not answered: the handler raises. *)
Theorem fetch_answers (response : Response) :
  outcome (fetch world request env) = Returned response ->
  In (response_status response) [200; 400; 401; 404]
  /\ (response_status response <> 200 -> calls (fetch world request env) = [])
  /\ (response_status response = 200 ->
      routed request
      /\ bearerMatches request (Js.orElse (WORKERS_BEARER_TOKEN env) `"")
      /\ ~ unusableBody (request_json request)).
Proof.
  unfold fetch, validateEnv.
  destruct (missingEnv env) as [|m ms] eqn:Henv; [|discriminate].
  rewrite bind_ret.
  pose proof (routed_dec request) as R.
  pose proof (requireBearerAuth_iff request _ (token_present env Henv)) as A.
  pose proof (payloadMail_none_iff (request_json request)) as B.
  destruct (negb (Js.eqb (request_method request) `"POST")
            || negb (Js.eqb (request_pathname request) `"/debug/email")).
  { intros [= <-]. simpl. repeat split; try tauto; discriminate. }
  destruct (requireBearerAuth request _) as [reason|].
  { intros [= <-]. simpl. repeat split; try tauto; discriminate. }
  destruct (payloadMail (request_json request)) as [mail|].
  - unfold bind, outcome, calls.
    destruct (handleNotionCreate _ _ _ _ _ _) as [cs [[]|e]]; simpl;
      [|discriminate].
    intros [= <-]. simpl. split; [tauto|]. split; [intros N; now elim N|].
    intros _. split; [now apply R|]. split; [now apply A|].
    intros U. apply B in U. discriminate.
  - intros [= <-]. simpl. repeat split; try tauto; discriminate.
Qed.

End Answers.

Lemma fetch_answers_witness :
  let request :=
    {| request_method := `"POST"; request_pathname := `"/debug/email";
       request_authorization := Some `"Bearer bearer";
       request_json := Some (JsonString `"mail") |} in
  outcome (fetch (exampleWorld 200) request exampleEnv)
  = Returned {| response_body := `"Invalid payload"; response_status := 400 |}
  /\ calls (fetch (exampleWorld 200) request exampleEnv) = [].
Proof.
  intros request. split; [reflexivity|].
  apply (fetch_answers (exampleWorld 200) exampleEnv request
           {| response_body := `"Invalid payload"; response_status := 400 |}
           eq_refl).
  discriminate.
Defined.

(** ** More on truncation and chunking *)

Section Cuts.

Lemma truncateText_firstn (value : Js.str) (limit : Z) :
  0 <= limit -> truncateText value limit = firstn (Z.to_nat limit) value.
Proof.
  intros H. destruct (Z_le_gt_dec (Js.len value) limit) as [Hle|Hgt].
  - rewrite truncateText_short by exact Hle. symmetry. apply firstn_all2.
    unfold Js.len in Hle. lia.
  - apply truncateText_long; lia.
Qed.

(** X14. Truncating twice is truncating once at the smaller limit; in
    particular truncating again at the same limit changes nothing. *)
Theorem truncateText_twice (value : Js.str) (a b : Z) :
  0 <= a -> 0 <= b ->
  truncateText (truncateText value a) b = truncateText value (Z.min a b).
Proof.
  intros Ha Hb. rewrite !truncateText_firstn by lia.
  rewrite firstn_firstn. f_equal. lia.
Qed.

Lemma truncateText_twice_witness :
  0 <= 1800 /\ 0 <= 200
  /\ truncateText (truncateText (repeat 97 2000) 1800) 200
     = truncateText (repeat 97 2000) 200.
Proof.
  split; [lia|]. split; [lia|].
  apply (truncateText_twice (repeat 97 2000) 1800 200); lia.
Defined.

(** X15. A negative limit does not bound the result: it takes that many code
    units off the end of the value. *)
Theorem truncateText_below_zero (value : Js.str) (limit : Z) :
  limit < 0 ->
  truncateText value limit = firstn (length value - Z.to_nat (- limit)) value.
Proof.
  intros H. unfold truncateText.
  destruct value as [|c v]; [now rewrite firstn_nil|].
  simpl Js.truthy. simpl negb. cbv iota.
  pose proof (len_nonneg (c :: v)) as L.
  destruct (Js.len (c :: v) >? limit) eqn:E;
    [|rewrite Z.gtb_ltb in E; apply Z.ltb_ge in E; lia].
  unfold Js.slice, Js.relIndex.
  replace (0 <? 0) with false by reflexivity.
  destruct (limit <? 0) eqn:E'; [|apply Z.ltb_ge in E'; lia].
  rewrite (Z.min_l 0) by lia. simpl skipn. f_equal.
  unfold Js.len in *. lia.
Qed.

Lemma truncateText_below_zero_witness :
  -2 < 0 /\ truncateText `"abcde" (-2) = `"abc".
Proof.
  split; [lia|].
  transitivity (firstn (length `"abcde" - Z.to_nat (- -2)) `"abcde");
    [|reflexivity].
  apply (truncateText_below_zero `"abcde" (-2)). lia.
Defined.

(** X16. With a limit that is not positive, [splitIntoChunks] still returns
    the empty list for the empty text, and for every other text its loop
    never ends. *)
Theorem splitIntoChunks_nonpositive_limit (text : Js.str) (limit : Z) :
  limit <= 0 ->
  (text = [] -> forall fuel, splitIntoChunks fuel text limit = Some [])
  /\ (text <> [] -> forall fuel, splitIntoChunks fuel text limit = None).
Proof.
  intros H. split.
  - intros -> fuel. reflexivity.
  - intros N fuel. unfold splitIntoChunks.
    destruct text as [|c t]; [contradiction|]. simpl negb. cbv iota.
    apply splitIntoChunks_loop_diverges; [exact H|].
    unfold Js.len. simpl length. lia.
Qed.

Lemma splitIntoChunks_nonpositive_limit_witness :
  -3 <= 0 /\ `"abc" <> [] /\ splitIntoChunks 1000 `"abc" (-3) = None.
Proof.
  assert (`"abc" <> []) as N by discriminate.
  split; [lia|]. split; [exact N|].
  apply (splitIntoChunks_nonpositive_limit `"abc" (-3)); [lia|exact N].
Defined.

End Cuts.

(** ** More on blocks, bodies and properties *)

Section Records.

Lemma splitIntoChunks_covers (text : Js.str) :
  exists chunks,
    splitIntoChunks (S (length text)) text CHILD_BLOCK_LIMIT = Some chunks
    /\ Js.join chunks = text.
Proof.
  unfold splitIntoChunks.
  destruct text as [|c text]; [now exists []|]. simpl negb. cbv iota.
  assert (1 <= CHILD_BLOCK_LIMIT) as Hl by (unfold CHILD_BLOCK_LIMIT; lia).
  pose proof (remaining_le_length (c :: text) CHILD_BLOCK_LIMIT Hl) as Hfuel.
  destruct (splitIntoChunks_loop_spec (S (length (c :: text))) (c :: text)
              CHILD_BLOCK_LIMIT 0 [] Hl)
    as (chunks & Hrun & Hcat & _); [lia|lia|].
  exists chunks. split; [exact Hrun|exact Hcat].
Qed.

Lemma blank_iff (chunk : Js.str) :
  (Js.len (Js.trim chunk) =? 0) = forallb Js.isWhiteSpace chunk.
Proof.
  destruct (forallb Js.isWhiteSpace chunk) eqn:F.
  - apply trim_nil_iff in F. now rewrite F.
  - destruct (Js.trim chunk) eqn:T; [|reflexivity].
    apply trim_nil_iff in T. congruence.
Qed.

Lemma forallb_concat (p : Z -> bool) (parts : list Js.str) :
  forallb p (concat parts) = forallb (forallb p) parts.
Proof.
  induction parts as [|x parts IH]; [reflexivity|].
  simpl. now rewrite forallb_app, IH.
Qed.

(** The chunks [buildChildrenBlocks] works on: what [splitIntoChunks]
    returns for the text at 1500, the windows of 1500 code units of the
    text, one behind the other. *)
Lemma splitIntoChunks_windows (text : Js.str) :
  exists chunks,
    (forall fuel, (length text < fuel)%nat ->
       splitIntoChunks fuel text CHILD_BLOCK_LIMIT = Some chunks)
    /\ Z.of_nat (length chunks) = ceilDiv (Js.len text) 1500
    /\ (forall k, (k < length chunks)%nat ->
          nth k chunks [] = firstn 1500 (skipn (1500 * k) text)).
Proof.
  assert (1 <= CHILD_BLOCK_LIMIT) as Hl by (unfold CHILD_BLOCK_LIMIT; lia).
  destruct text as [|c text].
  { exists []. split; [reflexivity|]. split; [reflexivity|].
    intros k Hk. simpl in Hk. lia. }
  set (t := c :: text).
  pose proof (remaining_le_length t CHILD_BLOCK_LIMIT Hl) as Hfuel.
  destruct (splitIntoChunks_loop_spec (S (length t)) t CHILD_BLOCK_LIMIT 0 []
              Hl)
    as (chunks & Hrun & _ & Hlen & Hnth & _); [lia|lia|].
  simpl app in Hrun. rewrite Z.sub_0_r in Hlen.
  assert (0 <= ceilDiv (Js.len t) CHILD_BLOCK_LIMIT) as Hpos.
  { unfold ceilDiv. apply Z.div_pos; [|lia]. pose proof (len_nonneg t). lia. }
  rewrite Z.max_r in Hlen by exact Hpos.
  exists chunks. split; [|split; [exact Hlen|]].
  - intros fuel Hf. unfold splitIntoChunks. simpl.
    destruct (splitIntoChunks_loop_spec fuel t CHILD_BLOCK_LIMIT 0 [] Hl)
      as (chunks' & Hrun' & _); [lia|lia|].
    rewrite Hrun'. f_equal. simpl.
    exact (splitIntoChunks_loop_det _ _ _ _ _ _ _ _ Hrun' Hrun).
  - intros k Hk. rewrite (Hnth k Hk).
    pose proof (ceilDiv_ceiling (Js.len t) CHILD_BLOCK_LIMIT Hl (len_nonneg t))
      as Hc.
    replace (0 + (Z.of_nat k + 1) * CHILD_BLOCK_LIMIT)
      with ((0 + Z.of_nat k * CHILD_BLOCK_LIMIT) + CHILD_BLOCK_LIMIT) by ring.
    rewrite slice_window by (unfold CHILD_BLOCK_LIMIT in *; nia).
    unfold CHILD_BLOCK_LIMIT. f_equal. f_equal. lia.
Qed.

(** X17. The blocks made from the body are the chunks that
    [splitIntoChunks] returns for the body at 1500, chunk [k] being the
    1500 code units of the body from position [1500 * k] on (fewer at the
    end): one paragraph for each chunk that is not blank, in order, behind
    the sender block; a chunk of white space only is dropped. *)
Theorem buildChildrenBlocks_content (text : Js.str) (fromAddress : option Js.str) :
  exists chunks,
    (forall fuel, (length text < fuel)%nat ->
       splitIntoChunks fuel text 1500 = Some chunks)
    /\ Z.of_nat (length chunks) = ceilDiv (Js.len text) 1500
    /\ (forall k, (k < length chunks)%nat ->
          nth k chunks [] = firstn 1500 (skipn (1500 * k) text))
    /\ buildChildrenBlocks text fromAddress
       = Some (senderBlocks fromAddress
               ++ map buildParagraph
                    (filter (fun chunk => negb (forallb Js.isWhiteSpace chunk))
                       chunks)).
Proof.
  destruct (splitIntoChunks_windows text) as (chunks & Hrun & Hlen & Hnth).
  exists chunks. split; [exact Hrun|]. split; [exact Hlen|].
  split; [exact Hnth|].
  unfold buildChildrenBlocks. rewrite (Hrun (S (length text))) by lia.
  rewrite fold_pushChunk.
  do 3 f_equal. apply filter_ext. intros chunk. now rewrite blank_iff.
Qed.

(** X18. The request carries no children exactly when there is no sender
    address and the body holds nothing but white space. *)
Theorem children_absent_iff (text : Js.str) (fromAddress : option Js.str) :
  exists blocks,
    buildChildrenBlocks text fromAddress = Some blocks
    /\ (childrenField blocks = None
        <-> Js.present fromAddress = false
            /\ forallb Js.isWhiteSpace text = true).
Proof.
  destruct (buildChildrenBlocks_returns text fromAddress) as (body & Hrun & _).
  destruct (splitIntoChunks_covers text) as (chunks & Hsplit & Hcat).
  eexists. split; [exact Hrun|].
  assert (body = map buildParagraph
                   (filter (fun chunk => negb (Js.len (Js.trim chunk) =? 0))
                      chunks)) as ->.
  { unfold buildChildrenBlocks in Hrun.
    rewrite Hsplit, fold_pushChunk in Hrun. injection Hrun as Hrun.
    now apply app_inv_head in Hrun. }
  rewrite <- Hcat. unfold Js.join. rewrite forallb_concat.
  clear Hrun Hsplit Hcat. unfold senderBlocks. destruct (Js.present fromAddress); simpl.
  - split; [discriminate|]. intros [[=] _].
  - induction chunks as [|chunk chunks IH]; simpl; [tauto|].
    rewrite blank_iff. destruct (forallb Js.isWhiteSpace chunk); simpl.
    + rewrite IH. tauto.
    + split; [discriminate|]. intros [_ [=]].
Qed.

(** X19. The resolved text never starts or ends with white space; it is not
    empty when it comes from the plain text or from the raw fallback, and
    it is empty when the source is "empty". *)
Theorem resolveMailText_invariants (text html rawFallback : option Js.str) :
  let r := resolveMailText text html rawFallback in
  (forall c rest, body_text r = c :: rest -> Js.isWhiteSpace c = false)
  /\ (forall c front, body_text r = front ++ [c] -> Js.isWhiteSpace c = false)
  /\ (body_source r = SrcText \/ body_source r = SrcRaw -> body_text r <> [])
  /\ (body_source r = SrcEmpty -> body_text r = []).
Proof.
  assert (forall x, nonBlank x = true -> Js.trim (Js.the x) <> []) as Hnb.
  { intros [v|]; [|discriminate]. unfold nonBlank. simpl Js.the.
    intros H. apply andb_true_iff in H. destruct H as (_ & H).
    destruct (Js.trim v); [discriminate|discriminate]. }
  unfold resolveMailText.
  destruct (nonBlank text) eqn:T; [|destruct (nonBlank html) eqn:H;
    [|destruct (nonBlank rawFallback) eqn:R]]; cbn [body_text body_source];
    (split; [apply trim_ends_visible || (intros c rest [=])|]);
    (split; [apply trim_ends_visible
             || (intros c [|x front] E; discriminate E)|]);
    (split; [intros [E|E]; try discriminate E; now apply Hnb
            |intros E; try discriminate E; reflexivity]).
Qed.

Lemma resolveMailText_invariants_witness :
  body_source (resolveMailText None None (Some `"  raw text  ")) = SrcRaw
  /\ body_text (resolveMailText None None (Some `"  raw text  ")) <> [].
Proof.
  split; [reflexivity|].
  apply (resolveMailText_invariants None None (Some `"  raw text  ")).
  right. reflexivity.
Defined.

Lemma hasProperty_iff (name : Js.str) object :
  hasProperty name object = true <-> In name (map fst object).
Proof.
  unfold hasProperty. rewrite existsb_exists, in_map_iff. split.
  - intros (entry & Hin & E). apply eqb_eq in E. now exists entry.
  - intros (entry & E & Hin). exists entry. split; [exact Hin|].
    now apply eqb_eq.
Qed.

Lemma replaceProperty_keys (name : Js.str) (value : PropertyValue) object :
  map fst (replaceProperty name value object) = map fst object.
Proof.
  unfold replaceProperty. rewrite map_map. apply map_ext.
  intros [n v]. simpl. now destruct (Js.eqb n name).
Qed.

Lemma insertProperty_in (name : Js.str) (value : PropertyValue) (k : Js.str) :
  forall object,
    In k (map fst (insertProperty name value object))
    <-> k = name \/ In k (map fst object).
Proof.
  induction object as [|[n v] object IH]; simpl.
  - intuition congruence.
  - destruct (precedes name n); simpl; [intuition congruence|].
    rewrite IH. intuition congruence.
Qed.

Lemma setProperty_in (name : Js.str) (value : PropertyValue) (k : Js.str) object :
  In k (map fst (setProperty name value object))
  <-> k = name \/ In k (map fst object).
Proof.
  unfold setProperty. destruct (hasProperty name object) eqn:H.
  - rewrite replaceProperty_keys. apply hasProperty_iff in H.
    intuition congruence.
  - apply insertProperty_in.
Qed.

Lemma setProperty_nodup (name : Js.str) (value : PropertyValue) object :
  NoDup (map fst object) -> NoDup (map fst (setProperty name value object)).
Proof.
  unfold setProperty. destruct (hasProperty name object) eqn:H.
  - now rewrite replaceProperty_keys.
  - assert (~ In name (map fst object)) as N.
    { intros C. apply hasProperty_iff in C. congruence. }
    clear H. induction object as [|[n v] object IH]; simpl; intros D.
    + repeat constructor. intros [].
    + simpl in N. apply NoDup_cons_iff in D. destruct D as (D1 & D2).
      destruct (precedes name n); simpl.
      * constructor; [simpl; tauto|]. now constructor.
      * constructor; [|apply IH; tauto].
        rewrite insertProperty_in. intros [->|C]; tauto.
Qed.

Lemma getProperty_set_same (name : Js.str) (value : PropertyValue) :
  forall object, getProperty name (setProperty name value object) = Some value.
Proof.
  intros object. unfold setProperty.
  destruct (hasProperty name object) eqn:H.
  - unfold hasProperty in H.
    induction object as [|[n v] object IH]; [discriminate|].
    simpl in *. destruct (Js.eqb n name) eqn:E; simpl; rewrite E;
      [reflexivity|now apply IH].
  - unfold hasProperty in H.
    induction object as [|[n v] object IH]; simpl in *.
    + now rewrite (proj2 (eqb_eq name name) eq_refl).
    + apply orb_false_iff in H. destruct H as (E & H).
      destruct (precedes name n); simpl.
      * now rewrite (proj2 (eqb_eq name name) eq_refl).
      * rewrite E. now apply IH.
Qed.

(** A name that is no array index goes behind every key that is there. *)
Lemma insertProperty_last (name : Js.str) (value : PropertyValue) :
  arrayIndex name = None ->
  forall object, insertProperty name value object = object ++ [(name, value)].
Proof.
  intros A. induction object as [|[n v] object IH]; simpl; [reflexivity|].
  unfold precedes. rewrite A. now rewrite IH.
Qed.

Lemma insertProperty_sorted (name : Js.str) (value : PropertyValue) :
  forall object,
    StronglySorted listedBefore (map fst object) ->
    StronglySorted listedBefore (map fst (insertProperty name value object)).
Proof.
  induction object as [|[n v] object IH]; simpl; intros S.
  - repeat constructor.
  - apply StronglySorted_inv in S. destruct S as (S & F).
    destruct (precedes name n) eqn:P; simpl.
    + constructor; [now constructor|].
      assert (listedBefore name n) as L0.
      { unfold precedes in P. unfold listedBefore.
        destruct (arrayIndex name), (arrayIndex n); try discriminate; try exact I.
        apply Z.ltb_lt in P. lia. }
      constructor; [exact L0|].
      rewrite Forall_forall in *. intros x Hx. specialize (F x Hx).
      unfold precedes in P. unfold listedBefore in *.
      destruct (arrayIndex name), (arrayIndex n), (arrayIndex x);
        try discriminate; try exact I; try contradiction.
      apply Z.ltb_lt in P. lia.
    + constructor; [now apply IH|].
      rewrite Forall_forall in *. intros x Hx.
      apply insertProperty_in in Hx. destruct Hx as [->|Hx]; [|now apply F].
      unfold precedes in P. unfold listedBefore.
      destruct (arrayIndex name), (arrayIndex n); try discriminate; try exact I.
      apply Z.ltb_ge in P. exact P.
Qed.

Lemma setProperty_sorted (name : Js.str) (value : PropertyValue) object :
  StronglySorted listedBefore (map fst object) ->
  StronglySorted listedBefore (map fst (setProperty name value object)).
Proof.
  unfold setProperty. destruct (hasProperty name object).
  - now rewrite replaceProperty_keys.
  - apply insertProperty_sorted.
Qed.

(** X20. In the properties of a record no key occurs twice, whatever names
    are configured; the keys are the configured names, the fingerprint is
    always there under its name, and the keys that are array indices come
    first, in ascending order, before all other keys. When the five
    configured names differ from each other and none of them is an array
    index, the record holds the five properties in the order title,
    created, source, raw, fingerprint. *)
Theorem buildProperties_keys (lower : Js.str -> Js.str) (env : Env)
    (title createdAt rawPreview fingerprint : Js.str) :
  let names := resolvePropertyNames env in
  let properties :=
    buildProperties lower env title createdAt rawPreview fingerprint in
  NoDup (map fst properties)
  /\ (forall key,
        In key (map fst properties)
        <-> In key [name_title names; name_created names; name_source names;
                    name_raw names; name_fingerprint names])
  /\ getProperty (name_fingerprint names) properties
     = Some (PRichText fingerprint)
  /\ StronglySorted listedBefore (map fst properties)
  /\ (NoDup [name_title names; name_created names; name_source names;
             name_raw names; name_fingerprint names] ->
      Forall (fun name => arrayIndex name = None)
        [name_title names; name_created names; name_source names;
         name_raw names; name_fingerprint names] ->
      properties
      = [ (name_title names, PTitle title);
          (name_created names, PDate createdAt);
          (name_source names,
            buildSourceProperty lower (SOURCE_AS_RICH_TEXT env));
          (name_raw names, PRichText rawPreview);
          (name_fingerprint names, PRichText fingerprint) ]).
Proof.
  intros names properties. unfold properties, buildProperties. fold names.
  split; [|split; [|split; [|split]]].
  - repeat apply setProperty_nodup. constructor.
  - intros key. rewrite !setProperty_in. simpl. intuition congruence.
  - apply getProperty_set_same.
  - repeat apply setProperty_sorted. constructor.
  - intros D A.
    repeat match goal with
           | H : NoDup (_ :: _) |- _ =>
               let N := fresh "N" in
               apply NoDup_cons_iff in H; destruct H as (N & H);
               simpl in N
           end.
    repeat match goal with
           | H : Forall _ (_ :: _) |- _ =>
               let I := fresh "I" in
               apply Forall_cons_iff in H; destruct H as (I & H)
           end.
    unfold setProperty.
    repeat match goal with
           | |- context [hasProperty ?a ?b] =>
               let E := fresh "E" in
               destruct (hasProperty a b) eqn:E;
               [apply hasProperty_iff in E; simpl in E;
                exfalso; intuition congruence|];
               clear E; rewrite insertProperty_last by assumption; simpl app
           end.
    reflexivity.
Qed.

Lemma buildProperties_keys_witness :
  NoDup [name_title (resolvePropertyNames exampleEnv);
         name_created (resolvePropertyNames exampleEnv);
         name_source (resolvePropertyNames exampleEnv);
         name_raw (resolvePropertyNames exampleEnv);
         name_fingerprint (resolvePropertyNames exampleEnv)]
  /\ map fst (buildProperties asciiLower exampleEnv `"t" `"c" `"r" `"f")
     = [`"Name"; `"Created"; `"Source"; `"Raw"; `"Fingerprint"].
Proof.
  assert (NoDup [name_title (resolvePropertyNames exampleEnv);
                 name_created (resolvePropertyNames exampleEnv);
                 name_source (resolvePropertyNames exampleEnv);
                 name_raw (resolvePropertyNames exampleEnv);
                 name_fingerprint (resolvePropertyNames exampleEnv)]) as D.
  { repeat constructor; simpl; intuition discriminate. }
  split; [exact D|].
  rewrite (proj2 (proj2 (proj2 (proj2
             (buildProperties_keys asciiLower exampleEnv
                `"t" `"c" `"r" `"f")))) D).
  - reflexivity.
  - repeat constructor.
Defined.

(** With one name configured for two properties the later one takes the
    place of the earlier. *)
Example buildProperties_collision :
  let env :=
    {| NOTION_TOKEN := Some `"secret"; INBOX_DB_ID := Some `"db";
       NOTION_VERSION := None; ALLOWED_FROM := None;
       SOURCE_AS_RICH_TEXT := None; WORKERS_BEARER_TOKEN := Some `"bearer";
       TITLE_PROPERTY := None; CREATED_PROPERTY := None;
       SOURCE_PROPERTY := None; RAW_PROPERTY := Some `"Fingerprint";
       FINGERPRINT_PROPERTY := None |} in
  buildProperties asciiLower env `"t" `"c" `"r" `"f"
  = [ (`"Name", PTitle `"t"); (`"Created", PDate `"c");
      (`"Source", PSelect `"Email"); (`"Fingerprint", PRichText `"f") ].
Proof. reflexivity. Qed.

(** Names that are array indices are listed first and by their value,
    wherever the literal writes them; "007" and "4294967295" are no array
    indices and keep their place. *)
Example buildProperties_index_names :
  let env :=
    {| NOTION_TOKEN := Some `"secret"; INBOX_DB_ID := Some `"db";
       NOTION_VERSION := None; ALLOWED_FROM := None;
       SOURCE_AS_RICH_TEXT := None; WORKERS_BEARER_TOKEN := Some `"bearer";
       TITLE_PROPERTY := Some `"007"; CREATED_PROPERTY := Some `"10";
       SOURCE_PROPERTY := Some `"4294967295"; RAW_PROPERTY := Some `"9";
       FINGERPRINT_PROPERTY := None |} in
  map fst (buildProperties asciiLower env `"t" `"c" `"r" `"f")
  = [`"9"; `"10"; `"007"; `"4294967295"; `"Fingerprint"].
Proof. reflexivity. Qed.

End Records.

(** ** The raw fallback *)

Section RawText.

Import Lang.

Lemma matches_headerBreak (u : Js.str) : Matches headerBreak u <-> HeaderBreak u.
Proof.
  unfold HeaderBreak. split.
  - intros M. unfold headerBreak, Re.Opt in M. cbn in M.
    repeat match goal with
           | H : Matches (Re.chr _) _ |- _ => unfold Re.chr in H
           | H : Matches Re.Empty _ |- _ => inversion H; subst; clear H
           | H : Matches (Re.Char _) _ |- _ => inversion H; subst; clear H
           | H : Matches (Re.Seq _ _) _ |- _ => inversion H; subst; clear H
           | H : Matches (Re.Alt _ _) _ |- _ => inversion H; subst; clear H
           | H : (_ =? _) = true |- _ => apply Z.eqb_eq in H; subst
           end; simpl; auto 6.
  - intros H.
    assert (Re.prefix headerBreak u = Some []) as P
      by (destruct H as [<-|[<-|[<-|[<-|[]]]]]; reflexivity).
    unfold Re.prefix in P. apply run_sound in P.
    destruct P as (u' & s' & -> & M & [= ->]). now rewrite app_nil_r.
Qed.

Lemma headerBreak_prefix_free (a b ta tb : Js.str) :
  HeaderBreak a -> HeaderBreak b -> a ++ ta = b ++ tb -> a = b.
Proof.
  unfold HeaderBreak. intros Ha Hb E.
  destruct Ha as [<-|[<-|[<-|[<-|[]]]]];
    destruct Hb as [<-|[<-|[<-|[<-|[]]]]];
    simpl in E; try discriminate E; reflexivity.
Qed.

(** A search returns the leftmost position at which the pattern matches. *)
Lemma search_leftmost (r : Re.t) :
  forall s before found rest,
    Re.search r s = Some (before, found, rest) ->
    forall b t, s = b ++ t -> Re.prefix r t <> None ->
      (length before <= length b)%nat.
Proof.
  induction s as [|c s IH]; intros before found rest H b t E P;
    rewrite search_unfold in H;
    destruct (Re.prefix r _) as [rest'|] eqn:Q.
  - injection H as <- _ _. simpl. lia.
  - discriminate.
  - injection H as <- _ _. simpl. lia.
  - destruct (Re.search r s) as [[[b0 f0] r0]|] eqn:S; [|discriminate].
    injection H as <- <- <-.
    destruct b as [|x b]; simpl in E.
    + subst t. congruence.
    + injection E as _ E. simpl. specialize (IH _ _ _ eq_refl b t E P). lia.
Qed.

Lemma startsWith_iff (s needle : Js.str) :
  Js.startsWith s needle = true <-> exists t, s = needle ++ t.
Proof.
  revert s. induction needle as [|p needle IH]; intros s; simpl.
  - destruct s; split; try easy; intros _; eexists; reflexivity.
  - destruct s as [|c s].
    + split; [discriminate|]. intros (t & [=]).
    + simpl. rewrite andb_true_iff, Z.eqb_eq, IH. split.
      * intros (-> & t & ->). now exists t.
      * intros (t & [= -> ->]). split; [reflexivity|now exists t].
Qed.

(** [indexOf] gives the first place at which the needle stands. *)
Lemma indexOf_from_first (needle : Js.str) :
  forall s b t i,
    s = b ++ needle ++ t ->
    exists b' t',
      s = b' ++ needle ++ t'
      /\ Js.indexOf_from s needle i = i + Js.len b'
      /\ (length b' <= length b)%nat.
Proof.
  induction s as [|c s IH]; intros b t i E.
  - exists [], []. symmetry in E. apply app_eq_nil in E. destruct E as (-> & E).
    apply app_eq_nil in E. destruct E as (-> & ->).
    split; [reflexivity|]. split; [unfold Js.len; simpl; lia|simpl; lia].
  - unfold Js.indexOf_from. fold Js.indexOf_from.
    destruct (Js.startsWith (c :: s) needle) eqn:S.
    + apply startsWith_iff in S. destruct S as (t' & S).
      exists [], t'. split; [exact S|]. split; [unfold Js.len; simpl; lia|].
      simpl. lia.
    + destruct b as [|x b].
      * exfalso. simpl in E.
        assert (Js.startsWith (c :: s) needle = true) as C
          by (apply startsWith_iff; now exists t).
        congruence.
      * injection E as <- E.
        destruct (IH b t (i + 1) E) as (b' & t' & E' & I & L).
        exists (c :: b'), t'. split; [simpl; now f_equal|].
        split; [rewrite I; unfold Js.len; simpl length; lia|simpl; lia].
Qed.

Lemma sliceFrom_app (a b : Js.str) : Js.sliceFrom (a ++ b) (Js.len a) = b.
Proof.
  unfold Js.sliceFrom, Js.slice, Js.relIndex.
  pose proof (len_nonneg a) as La. pose proof (len_nonneg (a ++ b)) as Lab.
  pose proof (len_app a b) as Lapp. pose proof (len_nonneg b) as Lb.
  destruct (Js.len a <? 0) eqn:E1; [apply Z.ltb_lt in E1; lia|].
  destruct (Js.len (a ++ b) <? 0) eqn:E2; [apply Z.ltb_lt in E2; lia|].
  rewrite Z.min_id, (Z.min_l (Js.len a)) by lia.
  replace (Z.to_nat (Js.len a)) with (length a) by (unfold Js.len; lia).
  rewrite skipn_app, skipn_all, Nat.sub_diag.
  simpl. apply firstn_all2. unfold Js.len in *. lia.
Qed.

(** X21. [decodeRawText] returns the decoded text whole when it holds no
    blank line, and otherwise what follows the first blank line: the text
    behind the leftmost of two line feeds, each with or without a carriage
    return before it. *)
Theorem decodeRawText_spec (decoded : Js.str) :
  ((forall brk, HeaderBreak brk -> ~ Infix brk decoded) ->
     decodeRawText decoded = decoded)
  /\ (forall headers brk body,
        decoded = headers ++ brk ++ body ->
        HeaderBreak brk ->
        (forall headers' brk' body',
           decoded = headers' ++ brk' ++ body' -> HeaderBreak brk' ->
           (length headers <= length headers')%nat) ->
        decodeRawText decoded = body).
Proof.
  unfold decodeRawText, Re.match0. split.
  - intros N.
    destruct (Re.search headerBreak decoded) as [[[before found] rest]|] eqn:S;
      [|reflexivity].
    apply search_sound in S. destruct S as (-> & M).
    apply matches_headerBreak in M. exfalso. apply (N found M).
    now exists before, rest.
  - intros headers brk body E Hbrk Hfirst.
    assert (Re.prefix headerBreak (brk ++ body) <> None) as P.
    { apply prefix_iff. exists brk, body. split; [reflexivity|].
      now apply matches_headerBreak. }
    destruct (Re.search headerBreak decoded) as [[[before found] rest]|] eqn:S.
    2: { pose proof (search_none _ _ S headers (brk ++ body) E). contradiction. }
    pose proof (search_leftmost _ _ _ _ _ S headers (brk ++ body) E P) as L1.
    apply search_sound in S. destruct S as (E' & M).
    apply matches_headerBreak in M.
    pose proof (Hfirst before found rest E' M) as L2.
    assert (before = headers /\ found ++ rest = brk ++ body) as (-> & E2).
    { rewrite E in E'. apply app_eq_app in E'.
      destruct E' as (l & [(-> & El)|(-> & El)]).
      - rewrite length_app in L2.
        destruct l; [|simpl in L2; lia]. rewrite app_nil_r.
        split; [reflexivity|exact El].
      - rewrite length_app in L1.
        destruct l; [|simpl in L1; lia]. rewrite app_nil_r.
        split; [reflexivity|now symmetry]. }
    pose proof (headerBreak_prefix_free _ _ _ _ M Hbrk E2) as ->.
    apply app_inv_head in E2. subst rest.
    destruct (indexOf_from_first brk decoded headers body 0 E)
      as (b' & t' & E3 & I & L3).
    pose proof (Hfirst b' brk t' E3 Hbrk) as L4.
    assert (b' = headers) as ->.
    { rewrite E in E3. apply app_eq_app in E3.
      destruct E3 as (l & [(-> & El)|(-> & El)]).
      - rewrite length_app in L4. destruct l; [|simpl in L4; lia].
        now rewrite app_nil_r.
      - rewrite length_app in L3. destruct l; [|simpl in L3; lia].
        now rewrite app_nil_r. }
    unfold Js.indexOf. rewrite I, E, Z.add_0_l, <- len_app, app_assoc.
    apply sliceFrom_app.
Qed.

Lemma decodeRawText_spec_witness :
  (forall brk, HeaderBreak brk -> ~ Infix brk `"no blank line here")
  /\ decodeRawText `"no blank line here" = `"no blank line here".
Proof.
  assert (forall brk, HeaderBreak brk -> ~ Infix brk `"no blank line here") as N.
  { intros brk H I.
    assert (Re.search headerBreak `"no blank line here" <> None) as S.
    { apply search_iff. exists brk. split; [|exact I].
      now apply matches_headerBreak. }
    apply S. reflexivity. }
  split; [exact N|].
  exact (proj1 (decodeRawText_spec `"no blank line here") N).
Defined.

Example decodeRawText_examples :
  decodeRawText (`"Subject: x" ++ [13; 10] ++ `"To: y" ++ [13; 10; 13; 10]
                   ++ `"body" ++ [10; 10] ++ `"more")
  = `"body" ++ [10; 10] ++ `"more"
  /\ decodeRawText (`"a" ++ [10; 13; 10] ++ `"b") = `"b"
  /\ decodeRawText (`"a" ++ [13; 10] ++ `"b") = `"a" ++ [13; 10] ++ `"b".
Proof. repeat split; reflexivity. Qed.

End RawText.

(** ** What a fingerprint tells apart *)

Section Material.

Lemma first_field (sep : Z) (a a' b b' : Js.str) :
  ~ In sep a -> ~ In sep a' ->
  a ++ sep :: b = a' ++ sep :: b' -> a = a' /\ b = b'.
Proof.
  revert a'. induction a as [|x a IH]; intros [|y a'] Ha Ha' E; simpl in E.
  - injection E as ->. now split.
  - injection E as <- _. exfalso. apply Ha'. now left.
  - injection E as -> _. exfalso. apply Ha. now left.
  - injection E as -> E.
    destruct (IH a') as (-> & ->); [| |exact E|now split].
    + intros H. apply Ha. now right.
    + intros H. apply Ha'. now right.
Qed.

Lemma last_field (sep : Z) (a a' b b' : Js.str) :
  ~ In sep b -> ~ In sep b' ->
  a ++ sep :: b = a' ++ sep :: b' -> a = a' /\ b = b'.
Proof.
  intros Hb Hb' E. apply (f_equal (@rev Z)) in E.
  rewrite !rev_app_distr in E. simpl in E. rewrite <- !app_assoc in E.
  simpl in E. apply first_field in E; try (rewrite <- in_rev; assumption).
  destruct E as (E1 & E2). apply (f_equal (@rev Z)) in E1, E2.
  rewrite !rev_involutive in E1, E2. now split.
Qed.

Lemma lowerHex_no_bar (h : Js.str) : forallb isLowerHex h = true -> ~ In 124 h.
Proof.
  intros F H. rewrite forallb_forall in F. specialize (F 124 H). discriminate.
Qed.

(** X22. When neither sender nor date holds a vertical bar, the material that
    is hashed determines its four parts: two inputs get the same material
    only if they agree on the sender (an absent one counting as empty), the
    subject, the date and the hash of the body. *)
Theorem fingerprintMaterial_injective (i1 i2 : FingerprintInput) :
  ~ In 124 (Js.orElse (fp_from i1) `"") -> ~ In 124 (fp_date i1) ->
  ~ In 124 (Js.orElse (fp_from i2) `"") -> ~ In 124 (fp_date i2) ->
  fingerprintMaterial i1 (sha256Hex (fp_body i1))
  = fingerprintMaterial i2 (sha256Hex (fp_body i2)) ->
  Js.orElse (fp_from i1) `"" = Js.orElse (fp_from i2) `""
  /\ fp_subject i1 = fp_subject i2
  /\ fp_date i1 = fp_date i2
  /\ sha256Hex (fp_body i1) = sha256Hex (fp_body i2).
Proof.
  intros F1 D1 F2 D2 E. unfold fingerprintMaterial in E.
  change (`"|") with [124] in E. simpl app in E.
  pose proof (lowerHex_no_bar _ (proj2 (sha256Hex_shape (fp_body i1)))) as H1.
  pose proof (lowerHex_no_bar _ (proj2 (sha256Hex_shape (fp_body i2)))) as H2.
  apply first_field in E; [|assumption..]. destruct E as (Ef & E).
  split; [exact Ef|].
  assert (forall a b c : Js.str,
            a ++ 124 :: b ++ 124 :: c = (a ++ 124 :: b) ++ 124 :: c) as R
    by (intros; now rewrite <- app_assoc).
  rewrite !R in E.
  apply last_field in E; [|assumption..]. destruct E as (E & Eh).
  apply last_field in E; [|assumption..]. destruct E as (Es & Ed).
  now repeat split.
Qed.

End Material.

Lemma fingerprintMaterial_injective_witness :
  let i1 := {| fp_from := None; fp_subject := `"a|b";
               fp_date := `"2024-01-02T00:00:00.000Z"; fp_body := `"x" |} in
  let i2 := {| fp_from := Some `""; fp_subject := `"a|b";
               fp_date := `"2024-01-02T00:00:00.000Z"; fp_body := `"x" |} in
  fingerprintMaterial i1 (sha256Hex (fp_body i1))
  = fingerprintMaterial i2 (sha256Hex (fp_body i2))
  /\ fp_subject i1 = fp_subject i2.
Proof.
  intros i1 i2.
  assert (fingerprintMaterial i1 (sha256Hex (fp_body i1))
          = fingerprintMaterial i2 (sha256Hex (fp_body i2))) as E
    by reflexivity.
  split; [exact E|].
  apply (fingerprintMaterial_injective i1 i2); try exact E;
    simpl; intuition discriminate.
Defined.

(** X23. The material does not mark where one part ends: text moved across a
    vertical bar between the sender and the subject leaves the fingerprint
    as it was. *)
Theorem buildFingerprint_bar_ambiguity (a b c date body : Js.str) :
  buildFingerprint {| fp_from := Some (a ++ `"|" ++ b); fp_subject := c;
                      fp_date := date; fp_body := body |}
  = buildFingerprint {| fp_from := Some a; fp_subject := b ++ `"|" ++ c;
                        fp_date := date; fp_body := body |}.
Proof.
  unfold buildFingerprint, fingerprintMaterial. cbn [fp_from fp_subject
    fp_date fp_body Js.orElse]. f_equal. now rewrite <- !app_assoc.
Qed.

(** ** What the first version sends *)

Section FirstVersion.

Variables (world : World) (env : Env) (message : ForwardableEmailMessage).

Local Abbreviation subject :=
  (Js.orElse (mail_subject (message_mail message)) `"").

(** X24. A request of the first version belongs to a subject with the marker
    and holds four properties: a title that is never empty, the creation
    time, the source and a raw preview of at most 1800 code units, the
    start of the resolved text. *)
Theorem V1_email_request (request : NotionRequest) :
  In request (calls (V1.email world message env)) ->
  containsMarker subject
  /\ calls (V1.email world message env) = [request]
  /\ exists title raw,
      req_properties request
      = [ (`"Name", PTitle title);
          (`"Created", PDate (createdAtNow world));
          (`"Source",
            buildSourceProperty (toLowerCase world) (SOURCE_AS_RICH_TEXT env));
          (`"Raw", PRichText raw) ]
      /\ title <> [] /\ Js.len raw <= 1800
      /\ raw = firstn 1800
                 (V1.resolveMailText (mail_text (message_mail message))
                    (mail_html (message_mail message))).
Proof.
  unfold V1.email.
  destruct (Re.test _ subject) eqn:T; simpl negb; cbv iota; [|intros []].
  apply test_marker_iff in T.
  destruct (rejectedByAllowlist _ _ _); [intros []|].
  match goal with
  | |- context [buildChildrenBlocks ?text ?from] =>
      destruct (buildChildrenBlocks_returns text from) as (body & Hb & _)
  end.
  rewrite Hb, bind_ret. unfold post, bind, calls.
  match goal with
  | |- context [resp_ok ?r] => destruct (resp_ok r); simpl negb; cbv iota
  end;
    simpl; intros [<-|[]]; (split; [exact T|]); (split; [reflexivity|]);
    eexists _, _; (split; [reflexivity|]);
    (split; [unfold V1.normalizeTitle;
             destruct (Js.len _ =? 0) eqn:L; simpl;
             [discriminate|destruct (Js.trim _); [discriminate L|discriminate]]
            |]);
    (rewrite slice_prefix by (unfold RAW_PREVIEW_LIMIT; lia));
    (split; [unfold Js.len, RAW_PREVIEW_LIMIT; rewrite length_firstn; lia
            |reflexivity]).
Qed.

End FirstVersion.

Lemma V1_email_request_witness :
  exists request,
    In request (calls (V1.email (exampleWorld 200)
                         (exampleMessage `"Fwd: InBox stuff") exampleEnv))
    /\ containsMarker `"Fwd: InBox stuff".
Proof.
  eexists. split; [left; reflexivity|].
  eapply (V1_email_request (exampleWorld 200) exampleEnv
            (exampleMessage `"Fwd: InBox stuff")).
  left. reflexivity.
Defined.

(** ** A mail delivered twice *)

Section Sent.

Variables (world : World) (env : Env).
Variables (receivedAt : Js.str) (mail : Mail) (resolved : ResolvedBody).
Variable messageFrom : option Js.str.

Local Abbreviation sender :=
  (match extractFromAddress (mail_from mail) with
   | Some a => Some a
   | None => messageFrom
   end).

(** The calls of [handleNotionCreate]: none, or the one request. *)
Lemma handleNotionCreate_calls :
  calls (handleNotionCreate world env receivedAt mail resolved messageFrom)
  = if rejectedByAllowlist (toLowerCase world)
         (parseAllowlist (toLowerCase world) (ALLOWED_FROM env)) sender
    then []
    else
      match (if Js.present (mail_date mail)
             then dateToISOString world (Js.the (mail_date mail))
             else Some (createdAtNow world)),
            buildChildrenBlocks (body_text resolved) sender with
      | Some date, Some children =>
          [ {| req_token := NOTION_TOKEN env;
               req_version :=
                 Js.orElse (NOTION_VERSION env) DEFAULT_NOTION_VERSION;
               req_database := INBOX_DB_ID env;
               req_properties :=
                 buildProperties (toLowerCase world) env
                   (truncateText
                      (buildTitle (Js.orElse (mail_subject mail) `"") receivedAt)
                      TITLE_LIMIT)
                   (createdAtNow world)
                   (truncateText (body_text resolved) RAW_PREVIEW_LIMIT)
                   (buildFingerprint
                      {| fp_from := sender;
                         fp_subject := Js.orElse (mail_subject mail) `"";
                         fp_date := date;
                         fp_body := body_text resolved |});
               req_children := childrenField children |} ]
      | _, _ => []
      end.
Proof.
  unfold handleNotionCreate.
  destruct (rejectedByAllowlist _ _ _); [reflexivity|].
  destruct (buildChildrenBlocks_returns (body_text resolved) sender)
    as (body & Hb & _).
  rewrite Hb.
  destruct (Js.present (mail_date mail));
    [destruct (dateToISOString world _) as [iso|]; [|reflexivity]|];
    rewrite bind_ret, bind_ret; unfold post, bind, calls;
    match goal with
    | |- context [notionApi world ?r] =>
        destruct (notionApi world r) as [status message]
    end;
    unfold resp_ok; cbn [resp_status resp_message];
    destruct ((200 <=? status) && (status <=? 299)); simpl negb; cbv iota;
    try reflexivity;
    destruct message; simpl; try reflexivity;
    destruct (Js.present (extractMissingProperty _)); reflexivity.
Qed.

End Sent.

Section Redelivery.

Variables (first second : World) (env : Env).
Variables (mail : Mail) (resolved : ResolvedBody).
Variable messageFrom : option Js.str.
Variables (receivedAt receivedAt' : Js.str).

Local Abbreviation delivery world time :=
  (handleNotionCreate world env time mail resolved messageFrom).

Local Abbreviation fingerprintOf request :=
  (getProperty (name_fingerprint (resolvePropertyNames env))
     (req_properties request)).

(** X25. The same mail handled twice, at different times and with
    different answers of Notion: whether a request is sent is the same
    both times, and so are the children of the request. When the mail
    has a date of its own the two requests carry the same fingerprint.
    When it has none, the time of processing stands in the hashed material
    in its place, and the two materials are equal only if the two times
    of processing are. *)
Theorem handleNotionCreate_redelivery :
  toLowerCase first = toLowerCase second ->
  dateToISOString first = dateToISOString second ->
  (calls (delivery first receivedAt) = []
   <-> calls (delivery second receivedAt') = [])
  /\ forall r1 r2,
       In r1 (calls (delivery first receivedAt)) ->
       In r2 (calls (delivery second receivedAt')) ->
       req_children r1 = req_children r2
       /\ (Js.present (mail_date mail) = true ->
           fingerprintOf r1 = fingerprintOf r2)
       /\ (Js.present (mail_date mail) = false ->
           exists material1 material2,
             fingerprintOf r1 = Some (PRichText (sha256Hex material1))
             /\ fingerprintOf r2 = Some (PRichText (sha256Hex material2))
             /\ (material1 = material2
                 <-> createdAtNow first = createdAtNow second)).
Proof.
  intros Hlower Hdate. rewrite !handleNotionCreate_calls.
  rewrite <- Hlower, <- Hdate.
  destruct (rejectedByAllowlist _ _ _); [split; [tauto|intros r1 r2 []]|].
  destruct (buildChildrenBlocks _ _) as [children|];
    [|destruct (if Js.present (mail_date mail) then _ else _),
               (if Js.present (mail_date mail) then _ else _);
      split; try tauto; intros r1 r2 []].
  destruct (Js.present (mail_date mail)).
  - destruct (dateToISOString first _) as [iso|];
      [|split; [tauto|intros r1 r2 []]].
    split; [split; discriminate|].
    intros r1 r2 [<-|[]] [<-|[]]. cbn [req_children req_properties].
    split; [reflexivity|]. split; [|discriminate]. intros _.
    unfold buildProperties. now rewrite !getProperty_set_same.
  - split; [split; discriminate|].
    intros r1 r2 [<-|[]] [<-|[]]. cbn [req_children req_properties].
    split; [reflexivity|]. split; [discriminate|]. intros _.
    unfold buildProperties. rewrite !getProperty_set_same.
    unfold buildFingerprint. eexists _, _.
    split; [reflexivity|]. split; [reflexivity|].
    unfold fingerprintMaterial. cbn [fp_from fp_subject fp_date fp_body].
    split; [|now intros ->].
    intros E. rewrite !app_assoc in E.
    apply app_inv_tail in E. apply app_inv_tail in E.
    now apply app_inv_head in E.
Qed.

End Redelivery.

Lemma handleNotionCreate_redelivery_witness :
  let later :=
    {| receivedAtNow := `"2024-03-01T08:00:00.000Z";
       createdAtNow := `"2024-03-01T08:00:01.000Z";
       dateToISOString := fun s => Some s;
       toLowerCase := asciiLower;
       notionApi := fun _ => {| resp_status := 500;
                                resp_message := MessageOther |} |} in
  let mail :=
    {| mail_subject := Some `"INBOX: hi"; mail_text := Some `"hi";
       mail_html := None;
       mail_from := AddrRecord (Some `"ann@example.com") AddrAbsent;
       mail_to := AddrAbsent;
       mail_date := Some `"2024-02-01T00:00:00.000Z" |} in
  let resolved := {| body_text := `"hi"; body_source := SrcText |} in
  exists r1 r2,
    handleNotionCreate (exampleWorld 200) exampleEnv
      `"2024-02-03T10:00:00.000Z" mail resolved None
    = ([r1], Returned tt)
    /\ handleNotionCreate later exampleEnv `"2024-03-01T08:00:00.000Z" mail
         resolved None
       = ([r2], Raised TypeError)
    /\ getProperty `"Fingerprint" (req_properties r1)
       = getProperty `"Fingerprint" (req_properties r2).
Proof.
  intros later mail resolved. eexists _, _.
  split; [reflexivity|]. split; [reflexivity|].
  refine (proj1 (proj2 (proj2 (handleNotionCreate_redelivery
                                 (exampleWorld 200) later exampleEnv mail
                                 resolved None `"2024-02-03T10:00:00.000Z"
                                 `"2024-03-01T08:00:00.000Z" eq_refl eq_refl)
                                _ _ _ _)) eq_refl);
    left; reflexivity.
Defined.
